(** * ReplicateConstantsPass: a shallow embedding and its properties

    The pass of [tensorflow/core/common_runtime/replicate_constants_pass.cc]
    replicates small CPU-resident constants once per consumer device.  The
    development below embeds the graph data model, the helper functions of the
    anonymous namespace and [ReplicateConstantsPass::Run], and proves the
    behavioural properties of the rewrite. *)

From Stdlib Require Import ZArith String Ascii DecimalString DecimalPos DecimalN
  List Lia.
From Stdlib Require Import Sorting.Sorted Structures.OrderedTypeEx.
From stdpp Require Import base list strings.

Local Open Scope Z_scope.

(** ** Status values *)

Module Errors.

(** The error kinds the pass can surface. [NoAssignedDeviceError] is the
    [absl::AbortedError] raised by [GetDestinationCpuDevice];
    [MalformedDeviceNameError] is whatever
    [DeviceNameUtils::DeviceNameToCpuDeviceName] returns on failure;
    [MissingAttributeError] comes from [GetNodeAttr] and
    [MalformedTensorShapeError] from [TensorShape::BuildTensorShape]. *)
Inductive Error :=
  | NoAssignedDeviceError
  | MalformedDeviceNameError
  | MissingAttributeError
  | MalformedTensorShapeError.

Inductive Status :=
  | OkStatus
  | Failed (e : Error).

Inductive StatusOr (A : Type) :=
  | Ok (a : A)
  | Err (e : Error).
Arguments Ok {A} a.
Arguments Err {A} e.

#[global] Instance Error_eq_dec : EqDecision Error.
Proof. solve_decision. Defined.

End Errors.
Export Errors.

(** ** 64-bit limits used by the diagnostics *)

Definition INT64_MAX : Z := 2 ^ 63 - 1.
Definition INT64_MIN : Z := - 2 ^ 63.

(** Maximum size constant to replicate. *)
Definition kMaxSize : Z := 16.

(** ** Tensor shapes *)

(** The [tensor_shape] field of the "value" attribute: the declared
    dimension sizes, in order. *)
Definition TensorShapeProto := list Z.

Record TensorShape := mkTensorShape {
  dim_sizes : list Z;
  num_elements : Z
}.

(** Modelled from the spec: [TensorShape::BuildTensorShape]
    (tensor_shape.h/.cc are not part of the sources at hand).  A shape is an
    ordered sequence of non-negative dimension sizes from which an element
    count is derived; construction is rejected for a negative dimension or
    when the running element count no longer fits a signed 64-bit integer. *)
Fixpoint AddDims (acc : Z) (done_dims dims : list Z) : StatusOr TensorShape :=
  match dims with
  | [] => Ok (mkTensorShape done_dims acc)
  | d :: ds =>
      if d <? 0 then Err MalformedTensorShapeError
      else if INT64_MAX <? acc * d then Err MalformedTensorShapeError
      else AddDims (acc * d) (done_dims ++ [d]) ds
  end.

Definition BuildTensorShape (proto : TensorShapeProto) : StatusOr TensorShape :=
  AddDims 1 [] proto.

(** ** Graph model *)

Module GraphModel.

(** Modelled from the spec: the node of graph.h (not part of the sources at
    hand).  A node has a name, a kind discriminator (only [IsConstant] is
    consulted), an optional assigned device and, under attribute "value", a
    tensor whose declared shape is all the pass reads. *)
Record Node := mkNode {
  name : string;
  IsConstant : bool;
  assigned_device_name : option string;
  attr_value : option TensorShapeProto
}.

Definition has_assigned_device_name (n : Node) : bool :=
  match assigned_device_name n with Some _ => true | None => false end.

(** [Node*] is modelled by the node's id, its index in the arena. *)
Definition NodeId := nat.
Bind Scope nat_scope with NodeId.

(** Modelled from the spec: an edge of graph.h.  A data edge goes from an
    output slot of [src] to an input slot of [dst]; a control edge uses
    [kControlSlot] on both ends. *)
Record Edge := mkEdge {
  src : NodeId;
  src_output : Z;
  dst : NodeId;
  dst_input : Z
}.

Definition kControlSlot : Z := -1.

Definition IsControlEdge (e : Edge) : bool := src_output e =? kControlSlot.

#[global] Instance Node_eq_dec : EqDecision Node.
Proof. solve_decision. Defined.

#[global] Instance Edge_eq_dec : EqDecision Edge.
Proof. solve_decision. Defined.

(** Modelled from the spec: the graph of graph.h, as an arena.  [nodes_] is
    indexed by node id, a removed node leaves [None] behind and ids are never
    reused; [edges_] lists the edges in insertion order; [name_counter_]
    feeds [NewName]. *)
Record Graph := mkGraph {
  nodes_ : list (option Node);
  edges_ : list Edge;
  name_counter_ : N
}.

Definition num_node_ids (g : Graph) : nat := length (nodes_ g).

Definition FindNodeId (g : Graph) (id : NodeId) : option Node :=
  mjoin (nodes_ g !! id).

(** [node->out_edges()], [node->in_edges()] and [node->in_nodes()]; the
    latter yields one source per inbound edge. *)
Definition out_edges (g : Graph) (node : NodeId) : list Edge :=
  filter (λ e, src e = node) (edges_ g).

Definition in_edges (g : Graph) (node : NodeId) : list Edge :=
  filter (λ e, dst e = node) (edges_ g).

Definition in_nodes (g : Graph) (node : NodeId) : list NodeId :=
  src <$> in_edges g node.

(** Modelled from the spec: [Graph::nodes()], the ids present when the
    iteration starts, in increasing (insertion) order.  Nodes created while
    iterating get larger ids and are not visited. *)
Definition nodes (g : Graph) : list NodeId := seq 0 (num_node_ids g).

(** Modelled from the spec: [Graph::CopyNode], a structural duplicate under a
    fresh id. *)
Definition CopyNode (g : Graph) (n : Node) : Graph * NodeId :=
  (mkGraph (nodes_ g ++ [Some n]) (edges_ g) (name_counter_ g),
   num_node_ids g).

Definition update_node (g : Graph) (id : NodeId) (f : Node → Node) : Graph :=
  mkGraph (alter (fmap f) id (nodes_ g)) (edges_ g) (name_counter_ g).

Definition set_name (g : Graph) (id : NodeId) (s : string) : Graph :=
  update_node g id
    (λ n, mkNode s (IsConstant n) (assigned_device_name n) (attr_value n)).

Definition set_assigned_device_name (g : Graph) (id : NodeId) (d : string)
  : Graph :=
  update_node g id
    (λ n, mkNode (name n) (IsConstant n) (Some d) (attr_value n)).

Definition decimal (c : N) : string := NilZero.string_of_uint (N.to_uint c).

(** Modelled from the spec: [Graph::NewName], the prefix followed by a
    fixed marker and the value of a monotonically increasing counter. *)
Definition NewName (g : Graph) (prefix : string) : Graph * string :=
  (mkGraph (nodes_ g) (edges_ g) (name_counter_ g + 1)%N,
   prefix +:+ "/_"%string +:+ decimal (name_counter_ g)).

(** Modelled from the spec: [Graph::AddEdge] and [Graph::AddControlEdge]
    (called with [allow_duplicates = true], so the edge is always added). *)
Definition AddEdge (g : Graph) (s : NodeId) (x : Z) (d : NodeId) (y : Z)
  : Graph :=
  mkGraph (nodes_ g) (edges_ g ++ [mkEdge s x d y]) (name_counter_ g).

Definition AddControlEdge (g : Graph) (s d : NodeId) : Graph :=
  AddEdge g s kControlSlot d kControlSlot.

(** Modelled from the spec: [Graph::RemoveNode], which detaches every edge
    of the node before releasing it, so that no edge references a removed
    node. *)
Definition RemoveNode (g : Graph) (node : NodeId) : Graph :=
  mkGraph (<[node := None]> (nodes_ g))
          (filter (λ e, src e ≠ node ∧ dst e ≠ node) (edges_ g))
          (name_counter_ g).

(** Every edge references two nodes currently present in the graph. *)
Definition live (g : Graph) (id : NodeId) : Prop := is_Some (FindNodeId g id).

Definition wf_graph (g : Graph) : Prop :=
  Forall (λ e, live g (src e) ∧ live g (dst e)) (edges_ g).

#[global] Instance live_dec g id : Decision (live g id).
Proof. unfold live. apply _. Defined.

#[global] Instance wf_graph_dec g : Decision (wf_graph g).
Proof. unfold wf_graph. apply _. Defined.

End GraphModel.
Export GraphModel.

(** ** The ordered map of the pass *)

Module BTree.

(** [absl::btree_map<std::string, V>]: an association list kept in strictly
    increasing key order, the order [std::string::operator<] induces
    (lexicographic on the bytes). *)
Abbreviation btree_map V := (list (string * V)).

Definition key_lt (a b : string) : Prop := String.compare a b = Lt.

Fixpoint count {V} (k : string) (m : btree_map V) : bool :=
  match m with
  | [] => false
  | (k', _) :: m' =>
      match String.compare k k' with
      | Eq => true
      | Lt => false
      | Gt => count k m'
      end
  end.

(** [insert] leaves the map alone when the key is present. *)
Fixpoint insert {V} (k : string) (v : V) (m : btree_map V) : btree_map V :=
  match m with
  | [] => [(k, v)]
  | (k', v') :: m' =>
      match String.compare k k' with
      | Eq => m
      | Lt => (k, v) :: m
      | Gt => (k', v') :: insert k v m'
      end
  end.

(** [m[k].push_back(x)]: [operator[]] creates an empty vector for a missing
    key. *)
Fixpoint push_back {V} (k : string) (x : V) (m : btree_map (list V))
  : btree_map (list V) :=
  match m with
  | [] => [(k, [x])]
  | (k', v') :: m' =>
      match String.compare k k' with
      | Eq => (k', (v' ++ [x])%list) :: m'
      | Lt => (k, [x]) :: m
      | Gt => (k', v') :: push_back k x m'
      end
  end.

Definition keys {V} (m : btree_map V) : list string := m.*1.

Definition sorted {V} (m : btree_map V) : Prop :=
  StronglySorted key_lt (keys m).

End BTree.

(** ** The pass *)

Module Pass.

Section WithDeviceNames.

(** [DeviceNameUtils] belongs to the host environment.  [ParseFullName]
    yields the [type] component of a device name it can parse;
    [DeviceNameToCpuDeviceName] yields the name of the CPU device on the same
    host, or fails. *)
Variable ParseFullName : string → option string.
Variable DeviceNameToCpuDeviceName : string → option string.

(** Set [node]'s name to <original-name>/replicate/_<unique-index>. *)
Definition SetUniqueName (g : Graph) (node : NodeId) : Graph :=
  match FindNodeId g node with
  | Some n =>
      let '(g1, s) := NewName g (name n +:+ "/replicate"%string) in
      set_name g1 node s
  | None => g
  end.

(** [node] has an output control edge. *)
Definition HasControlOut (g : Graph) (node : NodeId) : bool :=
  existsb IsControlEdge (out_edges g node).

(** [node]'s device is a CPU. *)
Definition HasCpuDevice (n : Node) : bool :=
  match ParseFullName (default ""%string (assigned_device_name n)) with
  | None => false
  | Some type => bool_decide (type = "CPU"%string)
  end.

(** Get the CPU device on the same host as [dst].  [dst] is the result of
    dereferencing an edge's destination; a stale id is treated as a node
    without an assigned device. *)
Definition GetDestinationCpuDevice (dst : option Node) : StatusOr string :=
  match dst ≫= assigned_device_name with
  | None => Err NoAssignedDeviceError
  | Some assigned =>
      match DeviceNameToCpuDeviceName assigned with
      | Some device => Ok device
      | None => Err MalformedDeviceNameError
      end
  end.

(** Collect the successor edges of the constant, grouped by the device of
    the successor. *)
Fixpoint collect_edges (g : Graph) (es : list Edge)
    (device_to_edges : BTree.btree_map (list Edge))
  : StatusOr (BTree.btree_map (list Edge)) :=
  match es with
  | [] => Ok device_to_edges
  | edge :: rest =>
      match GetDestinationCpuDevice (FindNodeId g (dst edge)) with
      | Err e => Err e
      | Ok device =>
          let m :=
            if BTree.count device device_to_edges then device_to_edges
            else BTree.insert device [] device_to_edges in
          collect_edges g rest (BTree.push_back device edge m)
      end
  end.

Definition GetSuccessorEdges (g : Graph) (node : NodeId)
    (device_to_edges : BTree.btree_map (list Edge))
  : StatusOr (BTree.btree_map (list Edge)) :=
  collect_edges g (out_edges g node) device_to_edges.

(** One iteration of the loop of [ReplicateToEachDevice]. *)
Definition replicate_to_device (node : NodeId) (n : Node) (g : Graph)
    (pair : string * list Edge) : Graph :=
  let '(g1, copy) := CopyNode g n in
  let g2 := SetUniqueName g1 copy in
  let g3 := set_assigned_device_name g2 copy pair.1 in
  let g4 :=
    foldl (λ g edge, AddEdge g copy (src_output edge) (dst edge) (dst_input edge))
          g3 pair.2 in
  foldl (λ g s, AddControlEdge g s copy) g4 (in_nodes g4 node).

(** Replicate the constant to each successor device.  [n] is the record
    [node] points to. *)
Definition ReplicateToEachDevice (g : Graph) (node : NodeId) (n : Node)
    (device_to_edges : BTree.btree_map (list Edge)) : Graph :=
  RemoveNode (foldl (replicate_to_device node n) g device_to_edges) node.

Definition GetNodeAttr_value (n : Node) : StatusOr TensorShapeProto :=
  match attr_value n with
  | Some value => Ok value
  | None => Err MissingAttributeError
  end.

(** Why the loop body of [Run] moved on to the next node. *)
Inductive SkipReason :=
  | NoSuchNode
  | NotConstant
  | AtMostOneSuccessor
  | ControlSuccessor
  | NoAssignedDevice
  | NotOnCpu
  | SameDevice.

(** What the loop body of [Run] decides for one node. *)
Inductive Outcome :=
  | Skip (why : SkipReason)
  | SkipTooLarge (elements : Z)
  | Replicate (n : Node) (device_to_edges : BTree.btree_map (list Edge))
  | Abort (e : Error).

(** The tests of the loop body of [Run] that follow the size test: the
    constant's own device, then the devices of its successors. *)
Definition examine_devices (g : Graph) (node : NodeId) (n : Node) : Outcome :=
  if negb (has_assigned_device_name n) then Skip NoAssignedDevice
  else if negb (HasCpuDevice n) then Skip NotOnCpu
  else
    match GetSuccessorEdges g node [] with
    | Err e => Abort e
    | Ok device_to_edges =>
        if (length device_to_edges <=? 1)%nat then Skip SameDevice
        else Replicate n device_to_edges
    end.

(** The tests of the loop body of [Run], in source order. *)
Definition examine (g : Graph) (node : NodeId) : Outcome :=
  match FindNodeId g node with
  | None => Skip NoSuchNode
  | Some n =>
      if negb (IsConstant n) then Skip NotConstant
      else if (length (out_edges g node) <=? 1)%nat then Skip AtMostOneSuccessor
      else if HasControlOut g node then Skip ControlSuccessor
      else
        match GetNodeAttr_value n with
        | Err e => Abort e
        | Ok value =>
            match BuildTensorShape value with
            | Err e => Abort e
            | Ok shape =>
                if kMaxSize <? num_elements shape
                then SkipTooLarge (num_elements shape)
                else examine_devices g node n
            end
        end
  end.

(** The state the loop of [Run] threads: the graph and the running range of
    skipped element counts. *)
Record LoopState := mkLoopState {
  ls_graph : Graph;
  min_skipped : Z;
  max_skipped : Z
}.

Fixpoint run_nodes (ids : list NodeId) (s : LoopState) : Status * LoopState :=
  match ids with
  | [] => (OkStatus, s)
  | node :: rest =>
      match examine (ls_graph s) node with
      | Skip _ => run_nodes rest s
      | SkipTooLarge elements =>
          run_nodes rest
            (mkLoopState (ls_graph s)
                         (Z.min (min_skipped s) elements)
                         (Z.max (max_skipped s) elements))
      | Replicate n device_to_edges =>
          run_nodes rest
            (mkLoopState
               (ReplicateToEachDevice (ls_graph s) node n device_to_edges)
               (min_skipped s) (max_skipped s))
      | Abort e => (Failed e, s)
      end
  end.

(** What a call of [Run] leaves behind: the status, the graph behind the
    handle and the range the final trace line reports, if it is written. *)
Record RunResult := mkRunResult {
  status : Status;
  graph : option Graph;
  skipped_range : option (Z * Z)
}.

Definition Run (options_graph : option Graph) : RunResult :=
  match options_graph with
  | None => mkRunResult OkStatus None None
  | Some g =>
      let '(st, s) := run_nodes (nodes g) (mkLoopState g INT64_MAX INT64_MIN) in
      match st with
      | Failed e => mkRunResult (Failed e) (Some (ls_graph s)) None
      | OkStatus =>
          mkRunResult OkStatus (Some (ls_graph s))
            (if bool_decide (min_skipped s ≠ INT64_MAX)
             then Some (min_skipped s, max_skipped s) else None)
      end
  end.

End WithDeviceNames.

End Pass.
Export Pass.

(** ** Vocabulary of the statements *)

Module Eligibility.

Section WithDeviceNames.

Variable ParseFullName : string → option string.
Variable DeviceNameToCpuDeviceName : string → option string.

(** The consumer at the far end of [edge] resolves to a CPU device. *)
Definition resolves (g : Graph) (edge : Edge) : Prop :=
  ∃ device,
    Pass.GetDestinationCpuDevice DeviceNameToCpuDeviceName
      (FindNodeId g (dst edge)) = Ok device.

(** The device [edge]'s consumer is grouped under. *)
Definition device_of (g : Graph) (edge : Edge) : StatusOr string :=
  Pass.GetDestinationCpuDevice DeviceNameToCpuDeviceName
    (FindNodeId g (dst edge)).

(** Some consumer of the constant has no assigned device, or has an
    assigned device name without a CPU counterpart. *)
Definition unassigned_consumer (g : Graph) (node : NodeId) : Prop :=
  ∃ e, e ∈ out_edges g node ∧
       FindNodeId g (dst e) ≫= assigned_device_name = None.

Definition malformed_consumer (g : Graph) (node : NodeId) : Prop :=
  ∃ e a, e ∈ out_edges g node ∧
         FindNodeId g (dst e) ≫= assigned_device_name = Some a ∧
         DeviceNameToCpuDeviceName a = None.

(** The kind of error the grouping ends with, read off the mere existence
    of a consumer of either sort. *)
Definition error_kind_by_existence (g : Graph) (node : NodeId) : Prop :=
  (Pass.GetSuccessorEdges DeviceNameToCpuDeviceName g node [] =
     Err NoAssignedDeviceError ↔ unassigned_consumer g node) ∧
  (Pass.GetSuccessorEdges DeviceNameToCpuDeviceName g node [] =
     Err MalformedDeviceNameError ↔ malformed_consumer g node).

(** The first three tests of the loop body let the node through: it is a
    constant with more than one outbound edge, none of them a control
    edge. *)
Record reaches_size_test (g : Graph) (node : NodeId) (n : Node) : Prop := {
  rst_node : FindNodeId g node = Some n;
  rst_constant : IsConstant n = true;
  rst_fanout : (1 < length (out_edges g node))%nat;
  rst_no_control : HasControlOut g node = false
}.

(** The first six tests let the node through: the grouping of its
    successors by device is what comes next. *)
Record reaches_grouping (g : Graph) (node : NodeId) (n : Node) : Prop := {
  rg_size_test : reaches_size_test g node n;
  rg_small : ∃ value shape,
      attr_value n = Some value ∧ BuildTensorShape value = Ok shape ∧
      num_elements shape ≤ kMaxSize;
  rg_device : has_assigned_device_name n = true;
  rg_cpu : Pass.HasCpuDevice ParseFullName n = true
}.

(** The declared shape of the constant, as the size test obtains it. *)
Definition value_shape (n : Node) : StatusOr TensorShape :=
  match GetNodeAttr_value n with
  | Err e => Err e
  | Ok value => BuildTensorShape value
  end.

(** The loop body leaves the graph alone and does not fail. *)
Definition quiet (o : Outcome) : Prop :=
  match o with
  | Skip _ | SkipTooLarge _ => True
  | Replicate _ _ | Abort _ => False
  end.

Definition settled (g : Graph) (node : NodeId) : Prop :=
  quiet (Pass.examine ParseFullName DeviceNameToCpuDeviceName g node).

(** The element counts of the constants the loop skips for their size, in
    visiting order. *)
Fixpoint skipped_sizes (ids : list NodeId) (g : Graph) : list Z :=
  match ids with
  | [] => []
  | node :: rest =>
      match Pass.examine ParseFullName DeviceNameToCpuDeviceName g node with
      | Skip _ => skipped_sizes rest g
      | SkipTooLarge elements => elements :: skipped_sizes rest g
      | Replicate n device_to_edges =>
          skipped_sizes rest
            (Pass.ReplicateToEachDevice g node n device_to_edges)
      | Abort _ => []
      end
  end.

(** The loop state [Run] starts from. *)
Definition initial (g : Graph) : LoopState :=
  mkLoopState g INT64_MAX INT64_MIN.

End WithDeviceNames.

End Eligibility.
Export Eligibility.

(** ** What the rewrite of one constant adds to the graph *)

Module RewriteSpec.

(** The replica made for [device] when the name counter stands at [c]. *)
Definition replica (n : Node) (c : N) (device : string) : Node :=
  mkNode ((name n +:+ "/replicate"%string) +:+ "/_"%string +:+ decimal c)
         (IsConstant n) (Some device) (attr_value n).

(** The data edge that replaces [e], leaving [copy] instead of the
    constant. *)
Definition redirect (copy : NodeId) (e : Edge) : Edge :=
  mkEdge copy (src_output e) (dst e) (dst_input e).

Definition control_edge (copy : NodeId) (p : NodeId) : Edge :=
  mkEdge p kControlSlot copy kControlSlot.

(** The nodes appended for the device groups, in creation order. *)
Fixpoint new_nodes (n : Node) (c : N) (device_to_edges : BTree.btree_map (list Edge))
  : list (option Node) :=
  match device_to_edges with
  | [] => []
  | entry :: rest => Some (replica n c entry.1) :: new_nodes n (c + 1)%N rest
  end.

(** The edges appended for the device groups, in insertion order.  [copy]
    is the id of the next replica and [preds] lists the sources of the edges
    that enter the constant so far. *)
Fixpoint new_edges (node copy : NodeId) (preds : list NodeId)
    (device_to_edges : BTree.btree_map (list Edge)) : list Edge :=
  match device_to_edges with
  | [] => []
  | entry :: rest =>
      let added := redirect copy <$> entry.2 in
      let preds' := preds ++ (src <$> filter (λ e, dst e = node) added) in
      added ++ (control_edge copy <$> preds') ++
      new_edges node (S copy) preds' rest
  end.

(** The same without an edge from the constant to itself: every replica
    gets the same predecessors. *)
Fixpoint plain_edges (copy : NodeId) (preds : list NodeId)
    (device_to_edges : BTree.btree_map (list Edge)) : list Edge :=
  match device_to_edges with
  | [] => []
  | entry :: rest =>
      (redirect copy <$> entry.2) ++ (control_edge copy <$> preds) ++
      plain_edges (S copy) preds rest
  end.

(** The data edges among them, and the control edges among them. *)
Fixpoint redirected (copy : NodeId)
    (device_to_edges : BTree.btree_map (list Edge)) : list Edge :=
  match device_to_edges with
  | [] => []
  | entry :: rest => (redirect copy <$> entry.2) ++ redirected (S copy) rest
  end.

Fixpoint controls (copy : NodeId) (preds : list NodeId)
    (device_to_edges : BTree.btree_map (list Edge)) : list Edge :=
  match device_to_edges with
  | [] => []
  | entry :: rest =>
      (control_edge copy <$> preds) ++ controls (S copy) preds rest
  end.

(** An edge with its source forgotten: output slot, destination node and
    input slot. *)
Definition endpoint (e : Edge) : Z * NodeId * Z :=
  (src_output e, dst e, dst_input e).

(** The ids of the replicas of a constant rewritten in [g]. *)
Definition replica_ids (g : Graph) (device_to_edges : BTree.btree_map (list Edge))
  : list NodeId :=
  seq (num_node_ids g) (length device_to_edges).

End RewriteSpec.
Export RewriteSpec.

(** ** A concrete device-naming scheme for the examples *)

Module Example.

Local Open Scope string_scope.

(** Device names of the form "<host>/<TYPE>:<n>"; the empty host and names
    without a slash do not parse. *)
Fixpoint split_slash (s : string) : option (string * string) :=
  match s with
  | EmptyString => None
  | String c rest =>
      if Ascii.eqb c "/"%char then Some (EmptyString, rest)
      else
        match split_slash rest with
        | Some (h, t) => Some (String c h, t)
        | None => None
        end
  end.

Fixpoint before_colon (s : string) : string :=
  match s with
  | EmptyString => EmptyString
  | String c rest =>
      if Ascii.eqb c ":"%char then EmptyString else String c (before_colon rest)
  end.

Definition ParseFullName (s : string) : option string :=
  match split_slash s with
  | Some (String _ _, t) => Some (before_colon t)
  | _ => None
  end.

Definition DeviceNameToCpuDeviceName (s : string) : option string :=
  match split_slash s with
  | Some (String c h, _) => Some (String c h +:+ "/CPU:0")
  | _ => None
  end.

Definition const (nm : string) (dev : option string) (dims : list Z) : option Node :=
  Some (mkNode nm true dev (Some dims)).

Definition op (nm : string) (dev : option string) : option Node :=
  Some (mkNode nm false dev None).

Definition data (s d : NodeId) (slot : Z) : Edge := mkEdge s 0 d slot.

Definition ctrl (s d : NodeId) : Edge := mkEdge s kControlSlot d kControlSlot.

(** The scenario of the design notes: constant C (4 elements) with three
    consumers on hosts a, b, a; node 4 precedes C through a control edge. *)
Definition g_scenario : Graph :=
  mkGraph
    [ const "C" (Some "a/CPU:0") [2; 2];
      op "x" (Some "a/GPU:0");
      op "y" (Some "b/GPU:0");
      op "z" (Some "a/GPU:1");
      op "p" (Some "a/CPU:0") ]
    [ data 0 1 0; data 0 2 0; data 0 3 1; ctrl 4 0 ]
    0%N.

(** [g_scenario] with its edges enumerated in the opposite order. *)
Definition g_scenario_reordered : Graph :=
  mkGraph
    [ const "C" (Some "a/CPU:0") [2; 2];
      op "x" (Some "a/GPU:0");
      op "y" (Some "b/GPU:0");
      op "z" (Some "a/GPU:1");
      op "p" (Some "a/CPU:0") ]
    [ ctrl 4 0; data 0 3 1; data 0 2 0; data 0 1 0 ]
    0%N.

(** The constant of [g_scenario] with its consumers on two hosts and one
    inbound neighbour, p, that has two control edges into it. *)
Definition g_par : Graph :=
  mkGraph
    [ const "C" (Some "a/CPU:0") [2; 2];
      op "x" (Some "a/GPU:0");
      op "y" (Some "b/GPU:0");
      op "p" (Some "a/CPU:0") ]
    [ data 0 1 0; data 0 2 0; ctrl 3 0; ctrl 3 0 ]
    0%N.

(** A constant of [elements] elements feeding two consumers on different
    hosts. *)
Definition g_sized (dims : list Z) : Graph :=
  mkGraph
    [ const "D" (Some "a/CPU:0") dims;
      op "x" (Some "a/GPU:0");
      op "y" (Some "b/GPU:0") ]
    [ data 0 1 0; data 0 2 0 ]
    0%N.

(** A constant without a "value" attribute and without an assigned device. *)
Definition g_no_value : Graph :=
  mkGraph
    [ Some (mkNode "V" true None None);
      op "x" (Some "a/GPU:0");
      op "y" (Some "b/GPU:0") ]
    [ data 0 1 0; data 0 2 0 ]
    0%N.

(** Constant C is replicated; constant E, visited later, has a consumer whose
    device name does not parse and another without a device. *)
Definition g_abort : Graph :=
  mkGraph
    [ const "C" (Some "a/CPU:0") [2; 2];
      op "x" (Some "a/GPU:0");
      op "y" (Some "b/GPU:0");
      const "E" (Some "a/CPU:0") [3];
      op "u" (Some "a/GPU:0");
      op "v" (Some "nonsense");
      op "w" None ]
    [ data 0 1 0; data 0 2 0; data 3 4 0; data 3 5 0; data 3 6 0 ]
    0%N.

(** A constant whose second consumer has a device name that does not parse
    and whose third consumer has no device. *)
Definition g_bad_consumers : Graph :=
  mkGraph
    [ const "E" (Some "a/CPU:0") [3];
      op "u" (Some "a/GPU:0");
      op "v" (Some "nonsense");
      op "w" None ]
    [ data 0 1 0; data 0 2 0; data 0 3 0 ]
    0%N.

(** Constants the first three tests stop: V has one consumer, W has a
    control successor; neither has a "value" attribute. *)
Definition g_quiet : Graph :=
  mkGraph
    [ Some (mkNode "V" true None None);
      op "x" None;
      Some (mkNode "W" true None None);
      op "y" None ]
    [ data 0 1 0; data 2 1 1; data 2 3 0; ctrl 2 3 ]
    0%N.

(** A small constant on a GPU whose consumers have no device. *)
Definition g_gpu_const : Graph :=
  mkGraph
    [ const "G" (Some "a/GPU:0") [2];
      op "x" None;
      op "y" None ]
    [ data 0 1 0; data 0 2 0 ]
    0%N.

(** A small constant whose consumers sit on two devices of one host. *)
Definition g_same_host : Graph :=
  mkGraph
    [ const "S" (Some "a/CPU:0") [2];
      op "x" (Some "a/GPU:0");
      op "y" (Some "a/GPU:1") ]
    [ data 0 1 0; data 0 2 0 ]
    0%N.

(** The constant of [g_scenario] and the grouping of its outbound edges. *)
Definition c_scenario : Node :=
  mkNode "C" true (Some "a/CPU:0") (Some [2; 2]).

Definition dte_scenario : BTree.btree_map (list Edge) :=
  [ ("a/CPU:0", [data 0 1 0; data 0 3 1]); ("b/CPU:0", [data 0 2 0]) ].

(** The grouping of the outbound edges of the constant of [g_par]. *)
Definition dte_par : BTree.btree_map (list Edge) :=
  [ ("a/CPU:0", [data 0 1 0]); ("b/CPU:0", [data 0 2 0]) ].

Definition run := Run ParseFullName DeviceNameToCpuDeviceName.

Definition run_nodes := Pass.run_nodes ParseFullName DeviceNameToCpuDeviceName.

Definition examine := Pass.examine ParseFullName DeviceNameToCpuDeviceName.

End Example.

(** ** Reading a group off the ordered map *)

Module GroupView.

#[global] Instance StatusOr_eq_dec {A} `{EqDecision A} : EqDecision (StatusOr A).
Proof. solve_decision. Defined.

(** The vector stored under [d], empty when the key is absent: what
    [find(d)] would give. *)
Fixpoint group_of {V} (d : string) (m : BTree.btree_map (list V)) : list V :=
  match m with
  | [] => []
  | (k, v) :: m' => if String.eqb k d then v else group_of d m'
  end.

(** The constant [n] got past the tests that look at the node alone: it
    has an assigned CPU device and a well-formed shape of at most
    [kMaxSize] elements. *)
Definition qualified (ParseFullName : string → option string) (n : Node)
  : Prop :=
  IsConstant n = true ∧ has_assigned_device_name n = true ∧
  Pass.HasCpuDevice ParseFullName n = true ∧
  ∃ shape, value_shape n = Ok shape ∧ num_elements shape ≤ kMaxSize.

(** The same graph with its edges enumerated in another order: the same
    nodes under the same ids, the same name counter, and the same edges up
    to their order. *)
Definition reordered (g1 g2 : Graph) : Prop :=
  nodes_ g1 = nodes_ g2 ∧ name_counter_ g1 = name_counter_ g2 ∧
  edges_ g1 ≡ₚ edges_ g2.

(** The error comes from resolving the device of a consumer. *)
Definition resolver_error (e : Error) : Prop :=
  e = NoAssignedDeviceError ∨ e = MalformedDeviceNameError.

(** The nodes with an edge, of any kind, into [node], each listed once. *)
Definition inbound_neighbours (g : Graph) (node : NodeId) : list NodeId :=
  remove_dups (in_nodes g node).

(** C2 as worded, with [k] the number of inbound neighbour nodes: in the
    rewritten graph [g'] every replica has a control edge from each inbound
    neighbour of the constant, and the control edges into the replicas
    number [k * m] for [m] replicas. *)
Definition fan_in_by_neighbour (g g' : Graph) (node : NodeId)
    (replicas : list NodeId) : Prop :=
  (∀ r p, r ∈ replicas → p ∈ inbound_neighbours g node →
          control_edge r p ∈ edges_ g') ∧
  length (filter (λ x, IsControlEdge x = true ∧ dst x ∈ replicas)
            (edges_ g')) =
    (length (inbound_neighbours g node) * length replicas)%nat.

(** The node has at most one outbound edge, or a control successor, or all
    its successors resolve to one CPU device: a visit of the loop passes
    over it or fails on its value, but does not replicate it. *)
Definition unsplittable (DeviceNameToCpuDeviceName : string → option string)
    (g : Graph) (i : NodeId) : Prop :=
  (length (out_edges g i) ≤ 1)%nat ∨ Pass.HasControlOut g i = true ∨
  ∃ d, Forall (λ e, Eligibility.device_of DeviceNameToCpuDeviceName g e = Ok d)
         (out_edges g i).

(** No data edge enters a constant: constants take no data inputs, only
    control inputs. *)
Definition no_data_into_constants (g : Graph) : Prop :=
  Forall (λ e, IsControlEdge e = false →
               IsConstant <$> FindNodeId g (dst e) = Some false)
         (edges_ g).

(** The text after the last underscore of a name, if it has one: for a name
    made by [SetUniqueName] this is the unique index. *)
Fixpoint unique_index (s : string) : option string :=
  match s with
  | EmptyString => None
  | String c s' =>
      match unique_index s' with
      | Some r => Some r
      | None => if Ascii.eqb c "_" then Some s' else None
      end
  end.

End GroupView.
Export GroupView.

(** ** Facts about the ordered map *)

Module BTreeFacts.

Import BTree.

Lemma compare_refl s : String.compare s s = Eq.
Proof. by apply String_as_OT.cmp_eq. Qed.

Lemma compare_Gt_lt a b : String.compare a b = Gt → key_lt b a.
Proof.
  intros H. unfold key_lt. rewrite String.compare_antisym, H. done.
Qed.

Lemma key_lt_trans a b c : key_lt a b → key_lt b c → key_lt a c.
Proof.
  unfold key_lt. intros H1 H2.
  apply String_as_OT.cmp_lt in H1, H2. apply String_as_OT.cmp_lt.
  by eapply String_as_OT.lt_trans.
Qed.

Lemma key_lt_irrefl a : ¬ key_lt a a.
Proof. unfold key_lt. by rewrite compare_refl. Qed.

Section Values.

Context {V : Type}.
Implicit Types m : btree_map (list V).

Lemma push_back_after_insert k x m :
  push_back k x (if count k m then m else insert k [] m) = push_back k x m.
Proof.
  induction m as [|[k' v'] m IH]; simpl.
  - by rewrite compare_refl.
  - destruct (String.compare k k') eqn:Hc; simpl.
    + by rewrite Hc.
    + by rewrite compare_refl.
    + rewrite <- IH. destruct (count k m); simpl; by rewrite Hc.
Qed.

Lemma elem_of_keys_push_back k x m k0 :
  k0 ∈ keys (push_back k x m) ↔ k0 = k ∨ k0 ∈ keys m.
Proof.
  unfold keys. induction m as [|[k' v'] m IH]; simpl.
  - rewrite list_elem_of_singleton, elem_of_nil. tauto.
  - destruct (String.compare k k') eqn:Hc; simpl.
    + apply String.compare_eq_iff in Hc as ->. rewrite !elem_of_cons. tauto.
    + rewrite !elem_of_cons. simpl. tauto.
    + rewrite !elem_of_cons, IH. tauto.
Qed.

Lemma sorted_push_back k x m : sorted m → sorted (push_back k x m).
Proof.
  unfold sorted. induction m as [|[k' v'] m IH]; simpl; intros Hs.
  - repeat constructor.
  - apply StronglySorted_inv in Hs as [Hs Hall].
    destruct (String.compare k k') eqn:Hc; simpl.
    + by constructor.
    + constructor; [by constructor |]. constructor; [done |].
      eapply Forall_impl; [exact Hall |]. intros k2. by apply key_lt_trans.
    + constructor; [by apply IH |].
      apply Forall_forall. intros k0 Hk0.
      apply elem_of_keys_push_back in Hk0 as [->|Hk0].
      * by apply compare_Gt_lt.
      * rewrite Forall_forall in Hall. by apply Hall.
Qed.

Lemma push_back_Forall (P : string → V → Prop) k x m :
  Forall (λ p, Forall (P p.1) p.2) m → P k x →
  Forall (λ p, Forall (P p.1) p.2) (push_back k x m).
Proof.
  intros Hm Hx. induction m as [|[k' v'] m IH]; simpl.
  - repeat constructor; done.
  - apply Forall_cons in Hm as [Hv Hm].
    destruct (String.compare k k') eqn:Hc.
    + apply String.compare_eq_iff in Hc as ->. constructor; [| done].
      simpl in *. apply Forall_app. split; [done | by constructor].
    + constructor; [by repeat constructor |]. by constructor.
    + constructor; [done | by apply IH].
Qed.

Lemma push_back_concat k x m :
  concat ((push_back k x m).*2) ≡ₚ x :: concat (m.*2).
Proof.
  induction m as [|[k' v'] m IH]; simpl; [done |].
  destruct (String.compare k k'); simpl.
  - rewrite <- app_assoc. simpl.
    by rewrite <- Permutation_middle.
  - done.
  - rewrite IH. by rewrite <- Permutation_middle.
Qed.

Lemma push_back_nonempty k x m :
  Forall (λ p, p.2 ≠ []) m → Forall (λ p, p.2 ≠ []) (push_back k x m).
Proof.
  induction m as [|[k' v'] m IH]; simpl; intros Hm.
  - by repeat constructor.
  - apply Forall_cons in Hm as [Hv Hm]. destruct (String.compare k k').
    + constructor; [| done]. simpl. by destruct v'.
    + constructor; [done |]. by constructor.
    + constructor; [done | by apply IH].
Qed.

End Values.

Lemma sorted_NoDup {V} (m : btree_map V) : sorted m → NoDup (keys m).
Proof.
  unfold sorted. generalize (keys m). intros ks.
  induction 1 as [|k ks Hs IH Hall]; constructor; [| done].
  intros Hin. rewrite Forall_forall in Hall.
  apply Hall in Hin. by apply key_lt_irrefl in Hin.
Qed.

(** Two strictly increasing lists with the same elements are equal. *)
Lemma sorted_keys_unique (ks1 ks2 : list string) :
  StronglySorted key_lt ks1 → StronglySorted key_lt ks2 →
  (∀ k, k ∈ ks1 ↔ k ∈ ks2) → ks1 = ks2.
Proof.
  intros H1. revert ks2.
  induction H1 as [|a ks1 Hs1 IH Ha]; intros ks2 H2 Heq.
  - destruct ks2 as [|b ks2]; [done |].
    destruct (Heq b) as [_ Hb]. specialize (Hb ltac:(left)).
    by apply elem_of_nil in Hb.
  - destruct H2 as [|b ks2 Hs2 Hb].
    { destruct (Heq a) as [Ha' _]. specialize (Ha' ltac:(left)).
      by apply elem_of_nil in Ha'. }
    rewrite Forall_forall in Ha, Hb.
    assert (a = b) as <-.
    { destruct (Heq a) as [Hab _], (Heq b) as [_ Hba].
      specialize (Hab ltac:(left)). specialize (Hba ltac:(left)).
      apply elem_of_cons in Hab as [|Hab]; [done |].
      apply elem_of_cons in Hba as [|Hba]; [done |].
      apply Hb in Hab. apply Ha in Hba.
      destruct (key_lt_irrefl a). by eapply key_lt_trans. }
    f_equal. apply IH; [done |]. intros k. split; intros Hk.
    + destruct (Heq k) as [Hk' _]. specialize (Hk' ltac:(by right)).
      apply elem_of_cons in Hk' as [->|]; [| done].
      apply Ha in Hk. by apply key_lt_irrefl in Hk.
    + destruct (Heq k) as [_ Hk']. specialize (Hk' ltac:(by right)).
      apply elem_of_cons in Hk' as [->|]; [| done].
      apply Hb in Hk. by apply key_lt_irrefl in Hk.
Qed.

End BTreeFacts.

(** ** Grouping the successors by device *)

Module Grouping.

Import BTree BTreeFacts.

Section WithDeviceNames.

Variable DeviceNameToCpuDeviceName : string → option string.

Local Abbreviation GetSuccessorEdges :=
  (Pass.GetSuccessorEdges DeviceNameToCpuDeviceName).
Local Abbreviation collect_edges :=
  (Pass.collect_edges DeviceNameToCpuDeviceName).
Local Abbreviation device_of := (Eligibility.device_of DeviceNameToCpuDeviceName).

Lemma collect_edges_cons g e es m :
  collect_edges g (e :: es) m =
    match device_of g e with
    | Err x => Err x
    | Ok d => collect_edges g es (push_back d e m)
    end.
Proof.
  simpl. unfold Eligibility.device_of.
  destruct (Pass.GetDestinationCpuDevice _ _); [| done].
  by rewrite push_back_after_insert.
Qed.

Lemma collect_edges_sorted g es m dte :
  collect_edges g es m = Ok dte → sorted m → sorted dte.
Proof.
  revert m. induction es as [|e es IH]; intros m.
  - by intros [= ->].
  - rewrite collect_edges_cons. destruct (device_of g e); [| done].
    intros H Hm. eapply IH; [done |]. by apply sorted_push_back.
Qed.

Lemma collect_edges_devices g es m dte :
  collect_edges g es m = Ok dte →
  Forall (λ p, Forall (λ e, device_of g e = Ok p.1) p.2) m →
  Forall (λ p, Forall (λ e, device_of g e = Ok p.1) p.2) dte.
Proof.
  revert m. induction es as [|e es IH]; intros m.
  - by intros [= ->].
  - rewrite collect_edges_cons. destruct (device_of g e) as [d|] eqn:Hd; [| done].
    intros H Hm. eapply IH; [done |].
    by apply (push_back_Forall (λ k x, device_of g x = Ok k)).
Qed.

Lemma collect_edges_concat g es m dte :
  collect_edges g es m = Ok dte → concat (dte.*2) ≡ₚ concat (m.*2) ++ es.
Proof.
  revert m. induction es as [|e es IH]; intros m.
  - intros [= ->]. by rewrite app_nil_r.
  - rewrite collect_edges_cons. destruct (device_of g e); [| done].
    intros H. rewrite (IH _ H), push_back_concat.
    by rewrite <- Permutation_middle.
Qed.

Lemma collect_edges_keys g es m dte :
  collect_edges g es m = Ok dte →
  ∀ k, k ∈ keys dte ↔ k ∈ keys m ∨ ∃ e, e ∈ es ∧ device_of g e = Ok k.
Proof.
  revert m. induction es as [|e es IH]; intros m.
  - intros [= ->] k. split; [by left |].
    intros [|(e & He & _)]; [done | by apply elem_of_nil in He].
  - rewrite collect_edges_cons. destruct (device_of g e) as [d|] eqn:Hd; [| done].
    intros H k. rewrite (IH _ H), elem_of_keys_push_back. split.
    + intros [[->|]|(x & Hx & Hk)]; [| by left |].
      * right. exists e. split; [left | done].
      * right. exists x. split; [by right | done].
    + intros [|(x & Hx & Hk)]; [by left; right |].
      apply elem_of_cons in Hx as [->|Hx].
      * left; left. congruence.
      * right. by exists x.
Qed.

Lemma collect_edges_nonempty g es m dte :
  collect_edges g es m = Ok dte →
  Forall (λ p, p.2 ≠ []) m → Forall (λ p, p.2 ≠ []) dte.
Proof.
  revert m. induction es as [|e es IH]; intros m.
  - by intros [= ->].
  - rewrite collect_edges_cons. destruct (device_of g e); [| done].
    intros H Hm. eapply IH; [done |]. by apply push_back_nonempty.
Qed.

(** The keys of the grouping do not depend on the order in which the
    outbound edges are enumerated. *)
Lemma collect_edges_keys_perm g es1 es2 dte1 dte2 :
  es1 ≡ₚ es2 →
  collect_edges g es1 [] = Ok dte1 → collect_edges g es2 [] = Ok dte2 →
  keys dte1 = keys dte2.
Proof.
  intros Hp H1 H2. apply sorted_keys_unique.
  - eapply collect_edges_sorted; [done | constructor].
  - eapply collect_edges_sorted; [done | constructor].
  - intros k. rewrite (collect_edges_keys _ _ _ _ H1 k),
      (collect_edges_keys _ _ _ _ H2 k).
    by setoid_rewrite Hp.
Qed.

(** All successors on one device: at most one group. *)
Lemma collect_edges_one_device g es dte d :
  collect_edges g es [] = Ok dte →
  Forall (λ e, device_of g e = Ok d) es →
  (length dte ≤ 1)%nat.
Proof.
  intros H Hall.
  assert (Hk : ∀ k, k ∈ keys dte → k = d).
  { intros k Hk. apply (collect_edges_keys _ _ _ _ H) in Hk
      as [Hk|(e & He & Hd)]; [by apply elem_of_nil in Hk |].
    rewrite Forall_forall in Hall. specialize (Hall e He). congruence. }
  assert (Hnd : NoDup (keys dte)).
  { apply sorted_NoDup. eapply collect_edges_sorted; [done | constructor]. }
  unfold keys in *. rewrite <- (length_fmap fst).
  destruct (dte.*1) as [|a [|b ks]]; simpl; [lia | lia |].
  assert (a = d) as -> by (apply Hk; left).
  assert (b = d) as -> by (apply Hk; right; left).
  apply NoDup_cons in Hnd as [Hnd _]. destruct Hnd. left.
Qed.

End WithDeviceNames.

End Grouping.

(** ** The rewrite of one constant in closed form *)

Module RewriteFacts.

Section WithDeviceNames.

Implicit Types (g : Graph) (n : Node) (node copy : NodeId).

Lemma foldl_AddEdge copy (es : list Edge) g :
  foldl (λ g edge, AddEdge g copy (src_output edge) (dst edge) (dst_input edge))
        g es =
  mkGraph (nodes_ g) (edges_ g ++ (redirect copy <$> es)) (name_counter_ g).
Proof.
  revert g. induction es as [|e es IH]; intros g; simpl.
  - rewrite app_nil_r. by destruct g.
  - rewrite IH. simpl. by rewrite <- app_assoc.
Qed.

Lemma foldl_AddControlEdge copy (ps : list NodeId) g :
  foldl (λ g s, AddControlEdge g s copy) g ps =
  mkGraph (nodes_ g) (edges_ g ++ (control_edge copy <$> ps)) (name_counter_ g).
Proof.
  revert g. induction ps as [|p ps IH]; intros g; simpl.
  - rewrite app_nil_r. by destruct g.
  - rewrite IH. simpl. by rewrite <- app_assoc.
Qed.

Lemma FindNodeId_snoc g (x : option Node) :
  mjoin ((nodes_ g ++ [x]) !! num_node_ids g) = x.
Proof.
  unfold num_node_ids. by rewrite list_lookup_middle.
Qed.

Lemma alter_snoc {A} (f : A → A) (l : list A) x :
  alter f (length l) (l ++ [x]) = l ++ [f x].
Proof.
  replace (length l) with (length l + 0)%nat by lia.
  by rewrite alter_app_r.
Qed.

Lemma in_nodes_app g node (es : list Edge) :
  in_nodes (mkGraph (nodes_ g) (edges_ g ++ es) (name_counter_ g)) node =
  in_nodes g node ++ (src <$> filter (λ e, dst e = node) es).
Proof.
  unfold in_nodes, in_edges. simpl. by rewrite filter_app, fmap_app.
Qed.

Lemma filter_control_edges node copy (ps : list NodeId) :
  node ≠ copy → filter (λ e, dst e = node) (control_edge copy <$> ps) = [].
Proof.
  intros Hne. induction ps as [|p ps IH]; [done |].
  rewrite fmap_cons, filter_cons_False; [done |]. simpl. congruence.
Qed.

Lemma replicate_to_device_eq node n g (pair : string * list Edge) :
  let copy := num_node_ids g in
  let added := redirect copy <$> pair.2 in
  let preds := in_nodes g node ++ (src <$> filter (λ e, dst e = node) added) in
  Pass.replicate_to_device node n g pair =
  mkGraph (nodes_ g ++ [Some (replica n (name_counter_ g) pair.1)])
          (edges_ g ++ added ++ (control_edge copy <$> preds))
          (name_counter_ g + 1)%N.
Proof.
  intros copy added preds. subst added preds copy.
  unfold Pass.replicate_to_device, CopyNode.
  unfold Pass.SetUniqueName, FindNodeId. simpl.
  rewrite FindNodeId_snoc. simpl.
  unfold set_name, set_assigned_device_name, update_node. simpl.
  unfold num_node_ids. rewrite !alter_snoc. simpl.
  rewrite foldl_AddEdge. simpl. rewrite foldl_AddControlEdge. simpl.
  f_equal. rewrite <- app_assoc. do 3 f_equal.
  unfold in_nodes, in_edges. simpl. by rewrite filter_app, fmap_app.
Qed.

Lemma fold_replicate node n g (device_to_edges : BTree.btree_map (list Edge)) :
  (node < num_node_ids g)%nat →
  foldl (Pass.replicate_to_device node n) g device_to_edges =
  mkGraph
    (nodes_ g ++ new_nodes n (name_counter_ g) device_to_edges)
    (edges_ g ++
       new_edges node (num_node_ids g) (in_nodes g node) device_to_edges)
    (name_counter_ g + N.of_nat (length device_to_edges))%N.
Proof.
  revert g. induction device_to_edges as [|pair rest IH]; intros g Hlt.
  - simpl. rewrite !app_nil_r, N.add_0_r. by destruct g.
  - cbn [foldl]. rewrite replicate_to_device_eq.
    set (copy := num_node_ids g).
    set (added := redirect copy <$> pair.2).
    set (preds := in_nodes g node ++ (src <$> filter (λ e, dst e = node) added)).
    rewrite IH.
    2:{ clear -Hlt. unfold num_node_ids in *. simpl. rewrite length_app.
        simpl. lia. }
    cbn [nodes_ edges_ name_counter_].
    assert (Hin : in_nodes
              (mkGraph (nodes_ g ++ [Some (replica n (name_counter_ g) pair.1)])
                 (edges_ g ++ added ++ (control_edge copy <$> preds))
                 (name_counter_ g + 1)%N) node = preds).
    { unfold in_nodes, in_edges. cbn [edges_].
      rewrite !filter_app, filter_control_edges by (unfold copy; lia).
      by rewrite app_nil_r, fmap_app. }
    rewrite Hin.
    assert (Hlen : num_node_ids
              (mkGraph (nodes_ g ++ [Some (replica n (name_counter_ g) pair.1)])
                 (edges_ g ++ added ++ (control_edge copy <$> preds))
                 (name_counter_ g + 1)%N) = S copy).
    { unfold copy, num_node_ids. cbn [nodes_]. rewrite length_app. simpl. lia. }
    rewrite Hlen. cbn [new_nodes new_edges length].
    fold copy. fold added. fold preds.
    f_equal.
    + by rewrite <- app_assoc.
    + by rewrite <- !app_assoc.
    + lia.
Qed.

Lemma ReplicateToEachDevice_eq node n g
    (device_to_edges : BTree.btree_map (list Edge)) :
  (node < num_node_ids g)%nat →
  Pass.ReplicateToEachDevice g node n device_to_edges =
  mkGraph
    (<[node := None]> (nodes_ g ++ new_nodes n (name_counter_ g) device_to_edges))
    (filter (λ e, src e ≠ node ∧ dst e ≠ node)
       (edges_ g ++
          new_edges node (num_node_ids g) (in_nodes g node) device_to_edges))
    (name_counter_ g + N.of_nat (length device_to_edges))%N.
Proof.
  intros Hlt. unfold Pass.ReplicateToEachDevice.
  by rewrite fold_replicate.
Qed.

Lemma length_new_nodes n c (device_to_edges : BTree.btree_map (list Edge)) :
  length (new_nodes n c device_to_edges) = length device_to_edges.
Proof.
  revert c. induction device_to_edges as [|pair rest IH]; intros c; simpl;
    [done | by rewrite IH].
Qed.

Lemma lookup_new_nodes n c (device_to_edges : BTree.btree_map (list Edge)) k :
  new_nodes n c device_to_edges !! k =
  (λ pair, Some (replica n (c + N.of_nat k) pair.1)) <$> device_to_edges !! k.
Proof.
  revert c k. induction device_to_edges as [|pair rest IH]; intros c k; [done |].
  destruct k as [|k]; simpl.
  - by rewrite N.add_0_r.
  - rewrite IH. by replace (c + 1 + N.of_nat k)%N with (c + N.of_nat (S k))%N by lia.
Qed.

Lemma elem_of_new_edges node copy preds
    (device_to_edges : BTree.btree_map (list Edge)) x :
  x ∈ new_edges node copy preds device_to_edges →
  (∃ k pair e, device_to_edges !! k = Some pair ∧ e ∈ pair.2 ∧
               x = redirect (copy + k) e) ∨
  (∃ k p, (k < length device_to_edges)%nat ∧ x = control_edge (copy + k) p ∧
          (p ∈ preds ∨ (copy ≤ p ≤ copy + k)%nat)).
Proof.
  revert copy preds.
  induction device_to_edges as [|pair rest IH]; intros copy preds; simpl.
  - intros H. by apply elem_of_nil in H.
  - rewrite !elem_of_app. intros [Hx|[Hx|Hx]].
    + apply list_elem_of_fmap in Hx as (e & -> & He).
      left. exists 0%nat, pair, e. by rewrite Nat.add_0_r.
    + apply list_elem_of_fmap in Hx as (p & -> & Hp).
      right. exists 0%nat, p. rewrite Nat.add_0_r.
      split; [lia |]. split; [done |].
      apply elem_of_app in Hp as [Hp|Hp]; [by left |]. right.
      apply list_elem_of_fmap in Hp as (y & -> & Hy).
      apply list_elem_of_filter in Hy as [_ Hy].
      apply list_elem_of_fmap in Hy as (e & -> & _). simpl. lia.
    + apply IH in Hx as [(k & p & e & Hk & He & ->)|(k & p & Hk & -> & Hp)].
      * left. exists (S k), p, e. repeat split; [done | done |].
        f_equal. lia.
      * right. exists (S k), p. split; [lia |].
        split; [f_equal; lia |].
        destruct Hp as [Hp|Hp]; [| right; lia].
        apply elem_of_app in Hp as [Hp|Hp]; [by left |]. right.
        apply list_elem_of_fmap in Hp as (y & -> & Hy).
        apply list_elem_of_filter in Hy as [_ Hy].
        apply list_elem_of_fmap in Hy as (e & -> & _). simpl. lia.
Qed.

Lemma redirect_in_new_edges node copy preds
    (device_to_edges : BTree.btree_map (list Edge)) k pair e :
  device_to_edges !! k = Some pair → e ∈ pair.2 →
  redirect (copy + k) e ∈ new_edges node copy preds device_to_edges.
Proof.
  revert copy preds k.
  induction device_to_edges as [|pair0 rest IH]; intros copy preds k; [done |].
  destruct k as [|k]; simpl.
  - intros [= ->] He. rewrite Nat.add_0_r. apply elem_of_app. left.
    by apply list_elem_of_fmap_2.
  - intros Hk He. rewrite !elem_of_app. right; right.
    replace (copy + S k)%nat with (S copy + k)%nat by lia. by apply IH.
Qed.

Lemma control_in_new_edges node copy preds
    (device_to_edges : BTree.btree_map (list Edge)) k p :
  (k < length device_to_edges)%nat → p ∈ preds →
  control_edge (copy + k) p ∈ new_edges node copy preds device_to_edges.
Proof.
  revert copy preds k.
  induction device_to_edges as [|pair0 rest IH]; intros copy preds k; simpl;
    [lia |].
  intros Hk Hp. rewrite !elem_of_app. destruct k as [|k].
  - right; left. rewrite Nat.add_0_r. apply list_elem_of_fmap_2.
    apply elem_of_app. by left.
  - right; right. replace (copy + S k)%nat with (S copy + k)%nat by lia.
    apply IH; [lia |]. apply elem_of_app. by left.
Qed.

End WithDeviceNames.

End RewriteFacts.

(** ** Properties of the loop of [Run] *)

Module LoopFacts.

Section WithDeviceNames.

Variable ParseFullName : string → option string.
Variable DeviceNameToCpuDeviceName : string → option string.

Local Abbreviation examine := (Pass.examine ParseFullName DeviceNameToCpuDeviceName).
Local Abbreviation examine_devices :=
  (Pass.examine_devices ParseFullName DeviceNameToCpuDeviceName).
Local Abbreviation run_nodes :=
  (Pass.run_nodes ParseFullName DeviceNameToCpuDeviceName).
Local Abbreviation Run := (Pass.Run ParseFullName DeviceNameToCpuDeviceName).
Local Abbreviation GetSuccessorEdges :=
  (Pass.GetSuccessorEdges DeviceNameToCpuDeviceName).
Local Abbreviation GetDestinationCpuDevice :=
  (Pass.GetDestinationCpuDevice DeviceNameToCpuDeviceName).
Local Abbreviation HasCpuDevice := (Pass.HasCpuDevice ParseFullName).
Local Abbreviation reaches_grouping :=
  (Eligibility.reaches_grouping ParseFullName).

Lemma examine_at_size_test g node n :
  reaches_size_test g node n →
  examine g node =
    match GetNodeAttr_value n with
    | Err e => Abort e
    | Ok value =>
        match BuildTensorShape value with
        | Err e => Abort e
        | Ok shape =>
            if kMaxSize <? num_elements shape
            then SkipTooLarge (num_elements shape)
            else examine_devices g node n
        end
    end.
Proof.
  intros [Hn Hc Hf Hctl]. unfold Pass.examine.
  rewrite Hn, Hc, Hctl. simpl.
  destruct (Nat.leb_spec (length (out_edges g node)) 1); [lia | done].
Qed.

Lemma examine_at_grouping g node n :
  reaches_grouping g node n →
  examine g node =
    match GetSuccessorEdges g node [] with
    | Err e => Abort e
    | Ok device_to_edges =>
        if (length device_to_edges <=? 1)%nat then Skip SameDevice
        else Replicate n device_to_edges
    end.
Proof.
  intros [Hs (value & shape & Hv & Hb & Hle) Hd Hcpu].
  rewrite (examine_at_size_test _ _ _ Hs).
  unfold GetNodeAttr_value. rewrite Hv, Hb.
  destruct (Z.ltb_spec kMaxSize (num_elements shape)); [lia |].
  unfold Pass.examine_devices. by rewrite Hd, Hcpu.
Qed.

Lemma examine_devices_not_too_large g node n elements :
  examine_devices g node n ≠ SkipTooLarge elements.
Proof.
  unfold Pass.examine_devices.
  repeat case_match; discriminate.
Qed.

Lemma run_nodes_app pre post s :
  run_nodes (pre ++ post) s =
    match run_nodes pre s with
    | (OkStatus, s1) => run_nodes post s1
    | (Failed e, s1) => (Failed e, s1)
    end.
Proof.
  revert s. induction pre as [|node pre IH]; intros s; simpl; [done |].
  destruct (examine (ls_graph s) node); by rewrite ?IH.
Qed.

Lemma run_nodes_abort pre node post s s1 e :
  run_nodes pre s = (OkStatus, s1) →
  examine (ls_graph s1) node = Abort e →
  run_nodes (pre ++ node :: post) s = (Failed e, s1).
Proof.
  intros Hpre Hex. rewrite run_nodes_app, Hpre. simpl. by rewrite Hex.
Qed.

Lemma Run_abort g pre node post s1 e :
  nodes g = pre ++ node :: post →
  run_nodes pre (initial g) = (OkStatus, s1) →
  examine (ls_graph s1) node = Abort e →
  Run (Some g) = mkRunResult (Failed e) (Some (ls_graph s1)) None.
Proof.
  intros Hn Hpre Hex. unfold Pass.Run.
  by rewrite Hn, (run_nodes_abort _ _ _ _ _ _ Hpre Hex).
Qed.

End WithDeviceNames.

End LoopFacts.

(** ** The size test, missing values and the absent graph *)

Module SizeTest.

Local Ltac concrete :=
  first [ reflexivity | vm_compute; reflexivity | vm_compute; lia
        | vm_compute; discriminate ].

Section WithDeviceNames.

Variable ParseFullName : string → option string.
Variable DeviceNameToCpuDeviceName : string → option string.

Local Abbreviation examine := (Pass.examine ParseFullName DeviceNameToCpuDeviceName).
Local Abbreviation examine_devices :=
  (Pass.examine_devices ParseFullName DeviceNameToCpuDeviceName).
Local Abbreviation run_nodes :=
  (Pass.run_nodes ParseFullName DeviceNameToCpuDeviceName).
Local Abbreviation Run := (Pass.Run ParseFullName DeviceNameToCpuDeviceName).

(** C9: when the graph handle is absent, [Run] returns success and there is
    no graph it could have touched. *)
Theorem Run_absent_graph :
  Run None = mkRunResult OkStatus None None.
Proof. reflexivity. Qed.

Lemma run_nodes_widens ids s st s' :
  run_nodes ids s = (st, s') →
  min_skipped s' ≤ min_skipped s ∧ max_skipped s ≤ max_skipped s'.
Proof.
  revert s. induction ids as [|node ids IH]; intros s Hrun; simpl in Hrun.
  - injection Hrun as <- <-. lia.
  - destruct (examine (ls_graph s) node) as [why|elements|n dte|e].
    + by apply IH.
    + apply IH in Hrun. simpl in Hrun. lia.
    + apply IH in Hrun. simpl in Hrun. lia.
    + injection Hrun as <- <-. lia.
Qed.

(** C3: a constant that got past the first three tests and whose shape has
    [E] elements gets past the size test iff [E <= 16]; then the device tests
    decide and the visit leaves the recorded range as it was.  With [E > 16]
    (so at 17, but not at 16) the visit changes nothing but the recorded
    range, which becomes [min mn E, max mx E]; [E] stays inside the range
    until the loop ends, and a run that succeeds reports a range around [E]
    (for [E] below the value that stands for "nothing skipped"). *)
Theorem size_threshold g node n shape :
  reaches_size_test g node n →
  value_shape n = Ok shape →
  let E := num_elements shape in
  (E ≤ 16 ↔ ∀ x, examine g node ≠ SkipTooLarge x) ∧
  (E ≤ 16 →
     examine g node = examine_devices g node n ∧
     ∀ mn mx st s',
       run_nodes [node] (mkLoopState g mn mx) = (st, s') →
       min_skipped s' = mn ∧ max_skipped s' = mx) ∧
  (E = 16 → examine g node = examine_devices g node n) ∧
  (E = 17 → examine g node = SkipTooLarge 17) ∧
  (16 < E →
     examine g node = SkipTooLarge E ∧
     (∀ mn mx,
        run_nodes [node] (mkLoopState g mn mx) =
          (OkStatus, mkLoopState g (Z.min mn E) (Z.max mx E))) ∧
     (∀ rest mn mx,
        run_nodes (node :: rest) (mkLoopState g mn mx) =
          run_nodes rest (mkLoopState g (Z.min mn E) (Z.max mx E))) ∧
     (∀ rest mn mx st s',
        run_nodes (node :: rest) (mkLoopState g mn mx) = (st, s') →
        min_skipped s' ≤ E ≤ max_skipped s') ∧
     (∀ g0 pre post s1,
        nodes g0 = pre ++ node :: post →
        run_nodes pre (initial g0) = (OkStatus, s1) →
        ls_graph s1 = g →
        status (Run (Some g0)) = OkStatus →
        E < INT64_MAX →
        ∃ lo hi, skipped_range (Run (Some g0)) = Some (lo, hi) ∧
                 lo ≤ E ≤ hi)).
Proof.
  intros Hr Hs E.
  pose proof (LoopFacts.examine_at_size_test ParseFullName
                DeviceNameToCpuDeviceName g node n Hr) as Hex.
  unfold value_shape in Hs.
  destruct (GetNodeAttr_value n) as [value|]; [| discriminate].
  rewrite Hs in Hex. fold E in Hex. unfold kMaxSize in Hex.
  assert (Hsmall : E ≤ 16 → examine g node = examine_devices g node n).
  { intros HE. rewrite Hex. destruct (Z.ltb_spec 16 E); [lia | done]. }
  assert (Hlarge : 16 < E → examine g node = SkipTooLarge E).
  { intros HE. rewrite Hex. destruct (Z.ltb_spec 16 E); [done | lia]. }
  assert (Hstep : 16 < E → ∀ rest mn mx,
            run_nodes (node :: rest) (mkLoopState g mn mx) =
              run_nodes rest (mkLoopState g (Z.min mn E) (Z.max mx E))).
  { intros HE rest mn mx. simpl. by rewrite (Hlarge HE). }
  assert (Hinside : 16 < E → ∀ rest mn mx st s',
            run_nodes (node :: rest) (mkLoopState g mn mx) = (st, s') →
            min_skipped s' ≤ E ≤ max_skipped s').
  { intros HE rest mn mx st s' Hrun. rewrite (Hstep HE) in Hrun.
    apply run_nodes_widens in Hrun. simpl in Hrun. lia. }
  split; [| split; [| split; [| split]]].
  - split.
    + intros HE x. rewrite (Hsmall HE).
      apply LoopFacts.examine_devices_not_too_large.
    + intros Hne. destruct (Z.le_gt_cases E 16) as [|HE]; [done |].
      by destruct (Hne E (Hlarge ltac:(lia))).
  - intros HE. split; [by apply Hsmall |].
    intros mn mx st s' Hrun. simpl in Hrun.
    pose proof (LoopFacts.examine_devices_not_too_large ParseFullName
                  DeviceNameToCpuDeviceName g node n) as Hnot.
    rewrite (Hsmall HE) in Hrun.
    destruct (examine_devices g node n) as [why|elements|n0 dte|e];
      [| by destruct (Hnot elements) | |];
      by injection Hrun as <- <-.
  - intros HE. apply Hsmall. lia.
  - intros HE. rewrite <- HE. apply Hlarge. lia.
  - intros HE. split; [by apply Hlarge |]. split; [| split; [| split]].
    + intros mn mx. by rewrite (Hstep HE).
    + by apply Hstep.
    + by apply Hinside.
    + intros g0 pre post s1 Hn Hpre Hg Hst Hmax.
      unfold Pass.Run in *. rewrite Hn in *.
      rewrite LoopFacts.run_nodes_app in *. unfold initial in Hpre.
      rewrite Hpre in *.
      destruct s1 as [g1 mn mx]. simpl in Hg. subst g1.
      destruct (run_nodes (node :: post) (mkLoopState g mn mx))
        as [[|e] s'] eqn:Hrun; [| discriminate].
      apply (Hinside HE) in Hrun. simpl.
      rewrite bool_decide_eq_true_2 by lia.
      exists (min_skipped s'), (max_skipped s'). by split.
Qed.

(** C10: a constant with more than one outbound edge, none of them a control
    edge, whose "value" attribute is missing or whose shape cannot be built
    makes [Run] return that error, whatever its assigned device and the
    devices of its successors are; the graph stays as it was when the
    constant was reached. *)
Theorem bad_value_aborts g pre node post s1 n e :
  nodes g = pre ++ node :: post →
  run_nodes pre (initial g) = (OkStatus, s1) →
  reaches_size_test (ls_graph s1) node n →
  value_shape n = Err e →
  examine (ls_graph s1) node = Abort e ∧
  Run (Some g) = mkRunResult (Failed e) (Some (ls_graph s1)) None ∧
  (attr_value n = None → e = MissingAttributeError) ∧
  (is_Some (attr_value n) → e = MalformedTensorShapeError).
Proof.
  intros Hn Hpre Hr Hs.
  assert (Hex : examine (ls_graph s1) node = Abort e).
  { rewrite (LoopFacts.examine_at_size_test _ _ _ _ _ Hr).
    unfold value_shape in Hs.
    destruct (GetNodeAttr_value n) as [value|]; [by rewrite Hs | congruence]. }
  split; [done |]. split; [by eapply LoopFacts.Run_abort |].
  unfold value_shape, GetNodeAttr_value in Hs. split.
  - intros Hv. rewrite Hv in Hs. congruence.
  - intros [value Hv]. rewrite Hv in Hs. unfold BuildTensorShape in Hs.
    clear -Hs. revert Hs. generalize 1 (@nil Z).
    induction value as [|d ds IH]; intros acc done_dims; simpl; [discriminate |].
    repeat case_match; try congruence. apply IH.
Qed.

End WithDeviceNames.

Lemma size_threshold_witness :
  (reaches_size_test (Example.g_sized [4; 4]) 0
     (mkNode "D" true (Some "a/CPU:0"%string) (Some [4; 4])) ∧
   Example.examine (Example.g_sized [4; 4]) 0 =
     Pass.examine_devices Example.ParseFullName
       Example.DeviceNameToCpuDeviceName (Example.g_sized [4; 4]) 0
       (mkNode "D" true (Some "a/CPU:0"%string) (Some [4; 4]))) ∧
  (reaches_size_test (Example.g_sized [17]) 0
     (mkNode "D" true (Some "a/CPU:0"%string) (Some [17])) ∧
   Example.run_nodes [0%nat] (mkLoopState (Example.g_sized [17]) 40 30) =
     (OkStatus, mkLoopState (Example.g_sized [17]) 17 30) ∧
   ∃ lo hi,
     skipped_range (Example.run (Some (Example.g_sized [17]))) =
       Some (lo, hi) ∧ lo ≤ 17 ≤ hi).
Proof.
  assert (Hr : reaches_size_test (Example.g_sized [4; 4]) 0
                 (mkNode "D" true (Some "a/CPU:0"%string) (Some [4; 4]))).
  { split; concrete. }
  assert (Hr' : reaches_size_test (Example.g_sized [17]) 0
                  (mkNode "D" true (Some "a/CPU:0"%string) (Some [17]))).
  { split; concrete. }
  split; [split; [exact Hr |] | split; [exact Hr' |]].
  - refine (proj1 (proj2 (proj2 (size_threshold Example.ParseFullName
              Example.DeviceNameToCpuDeviceName _ _ _
              (mkTensorShape [4; 4] 16) Hr _))) _); concrete.
  - pose proof (proj2 (proj2 (proj2 (proj2 (size_threshold
                  Example.ParseFullName Example.DeviceNameToCpuDeviceName
                  _ _ _ (mkTensorShape [17] 17) Hr' eq_refl))))
                ltac:(simpl; lia)) as (_ & Hone & _ & _ & Hrun).
    split; [exact (Hone 40 30) |].
    refine (Hrun (Example.g_sized [17]) [] [1; 2]%nat
              (initial (Example.g_sized [17])) _ _ _ _ _); concrete.
Defined.

Lemma bad_value_aborts_witness :
  Example.run (Some Example.g_no_value) =
    mkRunResult (Failed MissingAttributeError) (Some Example.g_no_value) None.
Proof.
  refine (proj1 (proj2 (bad_value_aborts Example.ParseFullName
            Example.DeviceNameToCpuDeviceName Example.g_no_value
            [] 0%nat [1; 2]%nat (initial Example.g_no_value)
            (mkNode "V" true None None) MissingAttributeError _ _ _ _)));
    first [ concrete | split; concrete ].
Defined.

End SizeTest.

(** ** Failures of the device-name resolver *)

Module Resolver.

Local Ltac concrete :=
  first [ reflexivity | vm_compute; reflexivity | vm_compute; lia
        | vm_compute; discriminate ].

Section WithDeviceNames.

Variable ParseFullName : string → option string.
Variable DeviceNameToCpuDeviceName : string → option string.

Local Abbreviation examine := (Pass.examine ParseFullName DeviceNameToCpuDeviceName).
Local Abbreviation run_nodes :=
  (Pass.run_nodes ParseFullName DeviceNameToCpuDeviceName).
Local Abbreviation Run := (Pass.Run ParseFullName DeviceNameToCpuDeviceName).
Local Abbreviation GetSuccessorEdges :=
  (Pass.GetSuccessorEdges DeviceNameToCpuDeviceName).
Local Abbreviation collect_edges :=
  (Pass.collect_edges DeviceNameToCpuDeviceName).
Local Abbreviation GetDestinationCpuDevice :=
  (Pass.GetDestinationCpuDevice DeviceNameToCpuDeviceName).
Local Abbreviation reaches_grouping :=
  (Eligibility.reaches_grouping ParseFullName).
Local Abbreviation resolves :=
  (Eligibility.resolves DeviceNameToCpuDeviceName).
Local Abbreviation malformed_consumer :=
  (Eligibility.malformed_consumer DeviceNameToCpuDeviceName).
Local Abbreviation error_kind_by_existence :=
  (Eligibility.error_kind_by_existence DeviceNameToCpuDeviceName).

Lemma resolver_no_device (dst : Node) :
  GetDestinationCpuDevice (Some dst) = Err NoAssignedDeviceError ↔
  assigned_device_name dst = None.
Proof.
  unfold Pass.GetDestinationCpuDevice. simpl.
  destruct (assigned_device_name dst) as [a|]; [| done].
  destruct (DeviceNameToCpuDeviceName a); split; discriminate.
Qed.

Lemma resolver_malformed (dst : Node) :
  GetDestinationCpuDevice (Some dst) = Err MalformedDeviceNameError ↔
  ∃ a, assigned_device_name dst = Some a ∧ DeviceNameToCpuDeviceName a = None.
Proof.
  unfold Pass.GetDestinationCpuDevice. simpl.
  destruct (assigned_device_name dst) as [a|].
  - destruct (DeviceNameToCpuDeviceName a) eqn:Ha; split.
    + discriminate.
    + intros (a' & [= <-] & Ha'). congruence.
    + eauto.
    + done.
  - split; [discriminate | by intros (a & ? & _)].
Qed.

Lemma resolver_error_kinds dst e :
  GetDestinationCpuDevice dst = Err e →
  e = NoAssignedDeviceError ∨ e = MalformedDeviceNameError.
Proof.
  unfold Pass.GetDestinationCpuDevice.
  repeat case_match; intros [= <-]; auto.
Qed.

Lemma collect_edges_fails g es m e :
  collect_edges g es m = Err e ↔
  ∃ pre edge post,
    es = pre ++ edge :: post ∧ Forall (resolves g) pre ∧
    GetDestinationCpuDevice (FindNodeId g (dst edge)) = Err e.
Proof.
  revert m. induction es as [|x es IH]; intros m; simpl.
  - split; [discriminate |]. intros (pre & edge & post & Hes & _).
    by destruct pre.
  - destruct (GetDestinationCpuDevice (FindNodeId g (dst x))) as [d|e'] eqn:Hx.
    + rewrite IH. split.
      * intros (pre & edge & post & -> & Hpre & He).
        exists (x :: pre), edge, post. repeat split; [| done].
        constructor; [by exists d | done].
      * intros (pre & edge & post & Hes & Hpre & He).
        destruct pre as [|y pre]; simplify_eq/=; [congruence |].
        exists pre, edge, post. repeat split; [| done].
        by inversion Hpre.
    + split.
      * intros [= ->]. exists [], x, es. by repeat split.
      * intros (pre & edge & post & Hes & Hpre & He).
        destruct pre as [|y pre]; simplify_eq/=; [congruence |].
        inversion Hpre as [|? ? [d Hd] ?]; simplify_eq. congruence.
Qed.

Lemma collect_edges_ok_resolves g es m dte :
  collect_edges g es m = Ok dte → Forall (resolves g) es.
Proof.
  revert m. induction es as [|x es IH]; intros m; simpl; [done |].
  destruct (GetDestinationCpuDevice (FindNodeId g (dst x))) as [d|] eqn:Hx;
    [| done].
  intros H. constructor; [by exists d | by eapply IH].
Qed.

Lemma resolver_unassigned dst :
  GetDestinationCpuDevice dst = Err NoAssignedDeviceError ↔
  dst ≫= assigned_device_name = None.
Proof.
  unfold Pass.GetDestinationCpuDevice.
  destruct (dst ≫= assigned_device_name) as [a|]; [| done].
  destruct (DeviceNameToCpuDeviceName a); split; discriminate.
Qed.

Lemma resolver_unparsed dst :
  GetDestinationCpuDevice dst = Err MalformedDeviceNameError ↔
  ∃ a, dst ≫= assigned_device_name = Some a ∧
       DeviceNameToCpuDeviceName a = None.
Proof.
  unfold Pass.GetDestinationCpuDevice.
  destruct (dst ≫= assigned_device_name) as [a|].
  - destruct (DeviceNameToCpuDeviceName a) eqn:Ha; split.
    + discriminate.
    + intros (a' & [= <-] & Ha'). congruence.
    + eauto.
    + done.
  - split; [discriminate | by intros (a & ? & _)].
Qed.

Lemma grouping_error_sound g node :
  (GetSuccessorEdges g node [] = Err NoAssignedDeviceError →
   unassigned_consumer g node) ∧
  (GetSuccessorEdges g node [] = Err MalformedDeviceNameError →
   malformed_consumer g node).
Proof.
  split; intros He; apply collect_edges_fails in He
    as (pre & edge & post & Hout & _ & He).
  - exists edge. split; [| by apply resolver_unassigned].
    rewrite Hout, elem_of_app. right; left.
  - apply resolver_unparsed in He as (a & Ha & HD).
    exists edge, a. split; [| done].
    rewrite Hout, elem_of_app. right; left.
Qed.

Lemma grouping_fails_iff g node :
  (∃ e, GetSuccessorEdges g node [] = Err e) ↔
  unassigned_consumer g node ∨ malformed_consumer g node.
Proof.
  split.
  - intros [e He]. pose proof He as He'.
    apply collect_edges_fails in He' as (_ & edge & _ & _ & _ & Hk).
    apply resolver_error_kinds in Hk as [->| ->].
    + left. by apply grouping_error_sound.
    + right. by apply grouping_error_sound.
  - intros Hbad.
    destruct (GetSuccessorEdges g node []) as [dte|e] eqn:Hg; [| by exists e].
    apply collect_edges_ok_resolves in Hg. rewrite Forall_forall in Hg.
    destruct Hbad as [(x & Hx & Hnone)|(x & a & Hx & Ha & HD)];
      destruct (Hg x Hx) as [d Hd].
    + apply resolver_unassigned in Hnone. congruence.
    + assert (GetDestinationCpuDevice (FindNodeId g (dst x)) =
              Err MalformedDeviceNameError); [| congruence].
      apply resolver_unparsed. by exists a.
Qed.

(** The grouping ends with one error: with a consumer of either sort among
    the successors, the error kind cannot follow from mere existence. *)
Lemma mixed_failures g node :
  unassigned_consumer g node → malformed_consumer g node →
  ¬ error_kind_by_existence g node.
Proof.
  intros Hu Hm [[_ H1] [_ H2]].
  specialize (H1 Hu). specialize (H2 Hm). congruence.
Qed.

(** C5: resolving one consumer fails with
    [NoAssignedDeviceError] iff that consumer has no assigned device, and
    with [MalformedDeviceNameError] iff its assigned device name has no CPU
    counterpart.  Grouping the consumers of a constant fails iff some
    consumer is of one of these two sorts, and then with the error of the
    first such consumer in the order of the outbound edges; a grouping that
    fails with either error has a consumer of that sort.  The error ends the
    pass. *)
Theorem consumer_resolution_errors :
  (∀ dst : Node,
     GetDestinationCpuDevice (Some dst) = Err NoAssignedDeviceError ↔
     assigned_device_name dst = None) ∧
  (∀ dst : Node,
     GetDestinationCpuDevice (Some dst) = Err MalformedDeviceNameError ↔
     ∃ a, assigned_device_name dst = Some a ∧
          DeviceNameToCpuDeviceName a = None) ∧
  (∀ g node e,
     GetSuccessorEdges g node [] = Err e ↔
     ∃ pre edge post,
       out_edges g node = pre ++ edge :: post ∧ Forall (resolves g) pre ∧
       GetDestinationCpuDevice (FindNodeId g (dst edge)) = Err e) ∧
  (∀ g node,
     (∃ e, GetSuccessorEdges g node [] = Err e) ↔
     unassigned_consumer g node ∨ malformed_consumer g node) ∧
  (∀ g node,
     GetSuccessorEdges g node [] = Err NoAssignedDeviceError →
     unassigned_consumer g node) ∧
  (∀ g node,
     GetSuccessorEdges g node [] = Err MalformedDeviceNameError →
     malformed_consumer g node) ∧
  (∀ g node e,
     GetSuccessorEdges g node [] = Err e →
     e = NoAssignedDeviceError ∨ e = MalformedDeviceNameError) ∧
  (∀ g node n e rest mn mx,
     reaches_grouping g node n →
     GetSuccessorEdges g node [] = Err e →
     run_nodes (node :: rest) (mkLoopState g mn mx) =
       (Failed e, mkLoopState g mn mx)).
Proof.
  split; [exact resolver_no_device |].
  split; [exact resolver_malformed |].
  split; [intros; apply collect_edges_fails |].
  split; [exact grouping_fails_iff |].
  split; [intros g node; apply grouping_error_sound |].
  split; [intros g node; apply grouping_error_sound |].
  split.
  - intros g node e He. apply collect_edges_fails in He
      as (_ & edge & _ & _ & _ & He). by eapply resolver_error_kinds.
  - intros g node n e rest mn mx Hr He. simpl.
    rewrite (LoopFacts.examine_at_grouping _ _ _ _ _ Hr). by rewrite He.
Qed.

End WithDeviceNames.

Lemma consumer_resolution_errors_witness :
  Example.run_nodes [0; 1; 2; 3]%nat (initial Example.g_bad_consumers) =
    (Failed MalformedDeviceNameError, initial Example.g_bad_consumers).
Proof.
  refine (proj2 (proj2 (proj2 (proj2 (proj2 (proj2 (proj2
            (consumer_resolution_errors Example.ParseFullName
               Example.DeviceNameToCpuDeviceName)))))))
          Example.g_bad_consumers 0%nat
          (mkNode "E" true (Some "a/CPU:0"%string) (Some [3]))
          MalformedDeviceNameError [1; 2; 3]%nat INT64_MAX INT64_MIN _ _).
  - split; [split; concrete | | concrete | concrete].
    exists [3], (mkTensorShape [3] 3). repeat split; concrete.
  - concrete.
Defined.

(** The constant of [g_bad_consumers] has a consumer without a device and
    a consumer with a malformed device name; the grouping reports the
    latter only. *)
Lemma mixed_failures_counterexample :
  ¬ error_kind_by_existence Example.DeviceNameToCpuDeviceName
      Example.g_bad_consumers 0.
Proof.
  apply mixed_failures.
  - exists (Example.data 0 3 0). split; [| reflexivity].
    apply list_elem_of_In. vm_compute. tauto.
  - exists (Example.data 0 2 0), "nonsense"%string.
    split; [| split; reflexivity].
    apply list_elem_of_In. vm_compute. tauto.
Qed.

End Resolver.

(** ** What the tests of the loop body depend on *)

Module Stability.

Import BTree.

Section WithDeviceNames.

Variable ParseFullName : string → option string.
Variable DeviceNameToCpuDeviceName : string → option string.

Local Abbreviation examine := (Pass.examine ParseFullName DeviceNameToCpuDeviceName).
Local Abbreviation examine_devices :=
  (Pass.examine_devices ParseFullName DeviceNameToCpuDeviceName).
Local Abbreviation run_nodes :=
  (Pass.run_nodes ParseFullName DeviceNameToCpuDeviceName).
Local Abbreviation GetSuccessorEdges :=
  (Pass.GetSuccessorEdges DeviceNameToCpuDeviceName).
Local Abbreviation collect_edges :=
  (Pass.collect_edges DeviceNameToCpuDeviceName).
Local Abbreviation device_of := (Eligibility.device_of DeviceNameToCpuDeviceName).
Local Abbreviation reaches_grouping :=
  (Eligibility.reaches_grouping ParseFullName).
Local Abbreviation settled :=
  (Eligibility.settled ParseFullName DeviceNameToCpuDeviceName).

Implicit Types (g : Graph) (n : Node) (node : NodeId).

Lemma FindNodeId_lt g node n :
  FindNodeId g node = Some n → (node < num_node_ids g)%nat.
Proof.
  unfold FindNodeId, num_node_ids. intros H.
  destruct (nodes_ g !! node) eqn:Hl; [| done].
  by apply lookup_lt_Some in Hl.
Qed.

Lemma live_lt g node : live g node → (node < num_node_ids g)%nat.
Proof. intros [n Hn]. by eapply FindNodeId_lt. Qed.

Lemma examine_Replicate_inv g node n dte :
  examine g node = Replicate n dte →
  reaches_grouping g node n ∧ GetSuccessorEdges g node [] = Ok dte ∧
  (1 < length dte)%nat.
Proof.
  unfold Pass.examine.
  destruct (FindNodeId g node) as [n0|] eqn:Hn; [| discriminate].
  destruct (IsConstant n0) eqn:Hc; [| discriminate]. simpl.
  destruct (Nat.leb_spec (length (out_edges g node)) 1) as [|Hf]; [discriminate |].
  destruct (Pass.HasControlOut g node) eqn:Hctl; [discriminate |].
  destruct (GetNodeAttr_value n0) as [value|] eqn:Hv; [| discriminate].
  destruct (BuildTensorShape value) as [shape|] eqn:Hb; [| discriminate].
  destruct (Z.ltb_spec kMaxSize (num_elements shape)) as [|Hle]; [discriminate |].
  unfold Pass.examine_devices.
  destruct (has_assigned_device_name n0) eqn:Hd; [| discriminate]. simpl.
  destruct (Pass.HasCpuDevice ParseFullName n0) eqn:Hcpu; [| discriminate]. simpl.
  destruct (GetSuccessorEdges g node []) as [m|] eqn:Hg; [| discriminate].
  destruct (Nat.leb_spec (length m) 1) as [|Hm]; [discriminate |].
  intros [= <- <-]. repeat split; try done.
  exists value, shape. repeat split; [| done | done].
  unfold GetNodeAttr_value in Hv. by destruct (attr_value n0); simplify_eq.
Qed.

Lemma HasControlOut_true g node x :
  x ∈ edges_ g → src x = node → IsControlEdge x = true →
  Pass.HasControlOut g node = true.
Proof.
  intros Hx Hs Hc. unfold Pass.HasControlOut. apply existsb_exists.
  exists x. split; [| done]. apply list_elem_of_In, list_elem_of_filter. done.
Qed.

(** A node with a control successor is passed over. *)
Lemma settled_control_out g node :
  Pass.HasControlOut g node = true → settled g node.
Proof.
  intros Hctl. unfold Eligibility.settled, Pass.examine.
  destruct (FindNodeId g node); [| done].
  destruct (negb _); [done |].
  destruct (_ <=? _)%nat; [done |]. by rewrite Hctl.
Qed.

Lemma collect_edges_ext g1 g2 es m :
  Forall (λ e, FindNodeId g1 (dst e) = FindNodeId g2 (dst e)) es →
  collect_edges g1 es m = collect_edges g2 es m.
Proof.
  revert m. induction es as [|e es IH]; intros m Hall; [done |].
  apply Forall_cons in Hall as [He Hall]. simpl. rewrite He.
  destruct (Pass.GetDestinationCpuDevice _ _); [| done]. by apply IH.
Qed.

(** The outcome of the tests depends on the node, its outbound edges and
    the nodes at their far ends only. *)
Lemma examine_ext g1 g2 node :
  FindNodeId g1 node = FindNodeId g2 node →
  out_edges g1 node = out_edges g2 node →
  Forall (λ e, FindNodeId g1 (dst e) = FindNodeId g2 (dst e)) (out_edges g1 node) →
  examine g1 node = examine g2 node.
Proof.
  intros Hn Ho Hd. unfold Pass.examine, Pass.examine_devices,
    Pass.HasControlOut, Pass.GetSuccessorEdges.
  rewrite <- Hn, <- Ho. by rewrite (collect_edges_ext g1 g2 _ _ Hd).
Qed.

Lemma collect_edges_total g es m :
  Forall (λ e, ∃ d, device_of g e = Ok d) es →
  ∃ dte, collect_edges g es m = Ok dte.
Proof.
  intros Hall. destruct (collect_edges g es m) as [dte|e] eqn:H; [by eexists |].
  apply Resolver.collect_edges_fails in H as (pre & edge & post & -> & _ & He).
  apply Forall_app in Hall as [_ Hall]. apply Forall_cons in Hall as [[d Hd] _].
  unfold Eligibility.device_of in Hd. congruence.
Qed.

(** A constant whose declared shape is well formed and whose data
    successors all sit on one device is passed over. *)
Lemma settled_one_device g node n shape d :
  FindNodeId g node = Some n →
  value_shape n = Ok shape →
  Forall (λ e, IsControlEdge e = true ∨ device_of g e = Ok d) (out_edges g node) →
  settled g node.
Proof.
  intros Hn Hs Hall. unfold Eligibility.settled, Pass.examine. rewrite Hn.
  destruct (negb _); [done |].
  destruct (_ <=? _)%nat; [done |].
  destruct (Pass.HasControlOut g node) eqn:Hctl; [done |].
  unfold value_shape in Hs.
  destruct (GetNodeAttr_value n) as [value|]; [| done]. rewrite Hs.
  destruct (_ <? _); [done |]. unfold Pass.examine_devices.
  destruct (negb _); [done |]. destruct (negb _); [done |].
  assert (Hall' : Forall (λ e, device_of g e = Ok d) (out_edges g node)).
  { rewrite Forall_forall in Hall. apply Forall_forall. intros e He.
    destruct (Hall e He) as [Hc|]; [| done].
    unfold Pass.HasControlOut in Hctl.
    assert (existsb IsControlEdge (out_edges g node) = true); [| congruence].
    apply existsb_exists. exists e. split; [by apply list_elem_of_In | done]. }
  unfold Pass.GetSuccessorEdges.
  destruct (collect_edges_total g (out_edges g node) []) as [dte Hdte].
  { eapply Forall_impl; [exact Hall' |]. intros e He. by exists d. }
  rewrite Hdte.
  pose proof (Grouping.collect_edges_one_device _ _ _ _ _ Hdte Hall') as Hlen.
  destruct (Nat.leb_spec (length dte) 1); [done | lia].
Qed.

Lemma filter_ext_in {A} (P Q : A → Prop) `{∀ x, Decision (P x)}
    `{∀ x, Decision (Q x)} (l : list A) :
  (∀ x, x ∈ l → (P x ↔ Q x)) → filter P l = filter Q l.
Proof.
  induction l as [|a l IH]; intros Hext; [done |].
  rewrite !filter_cons.
  destruct (decide (P a)) as [HP|HP], (decide (Q a)) as [HQ|HQ].
  - f_equal. apply IH. intros x Hx. apply Hext. by right.
  - destruct HQ. apply Hext; [left | done].
  - destruct HP. apply Hext; [left | done].
  - apply IH. intros x Hx. apply Hext. by right.
Qed.

Lemma filter_none {A} (P : A → Prop) `{∀ x, Decision (P x)} (l : list A) :
  (∀ x, x ∈ l → ¬ P x) → filter P l = [].
Proof.
  induction l as [|a l IH]; intros Hno; [done |].
  rewrite filter_cons_False by (apply Hno; left).
  apply IH. intros x Hx. apply Hno. by right.
Qed.

Lemma filter_all {A} (P : A → Prop) `{∀ x, Decision (P x)} (l : list A) :
  (∀ x, x ∈ l → P x) → filter P l = l.
Proof.
  induction l as [|a l IH]; intros Hall; [done |].
  rewrite filter_cons_True by (apply Hall; left).
  f_equal. apply IH. intros x Hx. apply Hall. by right.
Qed.

Lemma elem_of_concat {A} (x : A) (ls : list (list A)) :
  x ∈ concat ls ↔ ∃ l, l ∈ ls ∧ x ∈ l.
Proof.
  rewrite list_elem_of_In, in_concat. split.
  - intros (l & Hl & Hx). exists l. by rewrite !list_elem_of_In.
  - intros (l & Hl & Hx). exists l. by rewrite <- !list_elem_of_In.
Qed.

(** *** The graph after the rewrite of one constant *)

Section Rewritten.

Variables (g : Graph) (node : NodeId) (n : Node).
Variable dte : btree_map (list Edge).

Hypothesis Hwf : wf_graph g.
Hypothesis Hex : examine g node = Replicate n dte.

Local Abbreviation g' := (Pass.ReplicateToEachDevice g node n dte).

Lemma rewritten_node_lt : (node < num_node_ids g)%nat.
Proof.
  apply examine_Replicate_inv in Hex as ([[Hn _ _ _] _ _ _] & _).
  by eapply FindNodeId_lt.
Qed.

Lemma rewritten_eq :
  g' = mkGraph
         (<[node := None]> (nodes_ g ++ new_nodes n (name_counter_ g) dte))
         (filter (λ e, src e ≠ node ∧ dst e ≠ node)
            (edges_ g ++ new_edges node (num_node_ids g) (in_nodes g node) dte))
         (name_counter_ g + N.of_nat (length dte))%N.
Proof. apply RewriteFacts.ReplicateToEachDevice_eq, rewritten_node_lt. Qed.

Lemma num_node_ids_rewritten :
  num_node_ids g' = (num_node_ids g + length dte)%nat.
Proof.
  rewrite rewritten_eq. unfold num_node_ids. simpl.
  by rewrite length_insert, length_app, RewriteFacts.length_new_nodes.
Qed.

Lemma FindNodeId_rewritten_old i :
  (i < num_node_ids g)%nat → i ≠ node → FindNodeId g' i = FindNodeId g i.
Proof.
  intros Hi Hne. rewrite rewritten_eq. unfold FindNodeId. simpl.
  rewrite list_lookup_insert_ne by done. by rewrite lookup_app_l.
Qed.

Lemma FindNodeId_rewritten_node : FindNodeId g' node = None.
Proof.
  rewrite rewritten_eq. unfold FindNodeId. simpl.
  rewrite list_lookup_insert_eq; [done |].
  rewrite length_app. pose proof rewritten_node_lt. unfold num_node_ids in *. lia.
Qed.

Lemma FindNodeId_rewritten_replica k pair :
  dte !! k = Some pair →
  FindNodeId g' (num_node_ids g + k) =
    Some (replica n (name_counter_ g + N.of_nat k) pair.1).
Proof.
  intros Hk. rewrite rewritten_eq. unfold FindNodeId. simpl.
  pose proof rewritten_node_lt.
  rewrite list_lookup_insert_ne by lia.
  unfold num_node_ids. rewrite lookup_app_r by lia.
  replace (length (nodes_ g) + k - length (nodes_ g))%nat with k by lia.
  by rewrite RewriteFacts.lookup_new_nodes, Hk.
Qed.

Lemma elem_of_edges_rewritten x :
  x ∈ edges_ g' ↔
  (src x ≠ node ∧ dst x ≠ node) ∧
  (x ∈ edges_ g ∨
   x ∈ new_edges node (num_node_ids g) (in_nodes g node) dte).
Proof.
  rewrite rewritten_eq. simpl. by rewrite list_elem_of_filter, elem_of_app.
Qed.

Lemma grouping_ok : collect_edges g (out_edges g node) [] = Ok dte.
Proof. by apply examine_Replicate_inv in Hex as (_ & ? & _). Qed.

Lemma group_edge k pair e :
  dte !! k = Some pair → e ∈ pair.2 →
  e ∈ edges_ g ∧ src e = node ∧ device_of g e = Ok pair.1.
Proof.
  intros Hk He. pose proof grouping_ok as Hg.
  assert (Hin : e ∈ out_edges g node).
  { rewrite <- (app_nil_l (out_edges g node)).
    change (@nil Edge) with (concat (([] : btree_map (list Edge)).*2)).
    rewrite <- (Grouping.collect_edges_concat _ _ _ _ _ Hg).
    apply elem_of_concat. exists pair.2. split; [| done].
    apply list_elem_of_fmap_2. by eapply list_elem_of_lookup_2. }
  apply list_elem_of_filter in Hin as [Hs Hin]. split; [done |]. split; [done |].
  pose proof (Grouping.collect_edges_devices _ _ _ _ _ Hg (Forall_nil_2 _)) as Hd.
  rewrite Forall_forall in Hd.
  specialize (Hd pair ltac:(by eapply list_elem_of_lookup_2)).
  rewrite Forall_forall in Hd. by apply Hd.
Qed.

Lemma edge_in_range x :
  x ∈ edges_ g → (src x < num_node_ids g)%nat ∧ (dst x < num_node_ids g)%nat.
Proof.
  intros Hx. unfold wf_graph in Hwf. rewrite Forall_forall in Hwf.
  destruct (Hwf x Hx). split; by apply live_lt.
Qed.

Lemma in_nodes_live p : p ∈ in_nodes g node → live g p.
Proof.
  intros Hp. apply list_elem_of_fmap in Hp as (x & -> & Hx).
  apply list_elem_of_filter in Hx as [_ Hx].
  unfold wf_graph in Hwf. rewrite Forall_forall in Hwf.
  by destruct (Hwf x Hx).
Qed.

Lemma live_rewritten_old i : live g i → i ≠ node → live g' i.
Proof.
  intros Hl Hne. unfold live.
  rewrite FindNodeId_rewritten_old; [done | by apply live_lt | done].
Qed.

Lemma live_rewritten_replica k : (k < length dte)%nat → live g' (num_node_ids g + k).
Proof.
  intros Hk. destruct (lookup_lt_is_Some_2 dte k Hk) as [pair Hp].
  unfold live. by rewrite (FindNodeId_rewritten_replica _ _ Hp).
Qed.

(** The rewrite keeps every edge attached to nodes that are present. *)
Lemma wf_rewritten : wf_graph g'.
Proof.
  unfold wf_graph. apply Forall_forall. intros x Hx.
  apply elem_of_edges_rewritten in Hx as [[Hs Hd] [Hx|Hx]].
  - unfold wf_graph in Hwf. rewrite Forall_forall in Hwf.
    destruct (Hwf x Hx). split; by apply live_rewritten_old.
  - apply RewriteFacts.elem_of_new_edges in Hx
      as [(k & pair & e & Hk & He & ->)|(k & p & Hk & -> & Hp)]; simpl in *.
    + split.
      * apply live_rewritten_replica. by eapply lookup_lt_Some.
      * destruct (group_edge _ _ _ Hk He) as (Hin & _ & _).
        unfold wf_graph in Hwf. rewrite Forall_forall in Hwf.
        destruct (Hwf e Hin). by apply live_rewritten_old.
    + split; [| by apply live_rewritten_replica].
      destruct Hp as [Hp|Hp].
      * apply live_rewritten_old; [by apply in_nodes_live | done].
      * replace p with (num_node_ids g + (p - num_node_ids g))%nat by lia.
        apply live_rewritten_replica. lia.
Qed.

Lemma settled_rewritten_node : settled g' node.
Proof.
  unfold Eligibility.settled, Pass.examine.
  by rewrite FindNodeId_rewritten_node.
Qed.

Lemma rewritten_has_groups : (1 < length dte)%nat.
Proof. by apply examine_Replicate_inv in Hex as (_ & _ & ?). Qed.

Lemma out_edges_rewritten_old i :
  (i < num_node_ids g)%nat → i ≠ node → i ∉ in_nodes g node →
  out_edges g' i = out_edges g i.
Proof.
  intros Hi Hne Hnot. unfold out_edges. rewrite rewritten_eq. simpl.
  rewrite list_filter_filter, filter_app.
  rewrite (filter_none _ (new_edges _ _ _ _)), app_nil_r.
  - apply filter_ext_in. intros x Hx. split; [tauto |].
    intros Hs. repeat split; [done | congruence |].
    intros Hd. apply Hnot. rewrite <- Hs.
    apply list_elem_of_fmap_2, list_elem_of_filter. done.
  - intros x Hx [Hs _].
    apply RewriteFacts.elem_of_new_edges in Hx
      as [(k & pair & e & Hk & He & ->)|(k & p & Hk & -> & Hp)]; simpl in *.
    + lia.
    + subst p. destruct Hp; [done | lia].
Qed.

(** Rewriting one constant leaves every node that was passed over before
    in a state where it is passed over again. *)
Lemma settled_rewritten_old i :
  (i < num_node_ids g)%nat → settled g i → settled g' i.
Proof.
  intros Hi Hset.
  assert (Hne : i ≠ node).
  { intros ->. unfold Eligibility.settled in Hset. by rewrite Hex in Hset. }
  pose proof rewritten_node_lt as Hlt.
  destruct (decide (i ∈ in_nodes g node)) as [Hin|Hnot].
  - apply settled_control_out.
    apply (HasControlOut_true _ _ (control_edge (num_node_ids g + 0) i));
      [| done | done].
    apply elem_of_edges_rewritten. simpl. split; [split; [done | lia] |].
    right. apply RewriteFacts.control_in_new_edges; [| done].
    pose proof rewritten_has_groups. lia.
  - unfold Eligibility.settled.
    rewrite (examine_ext g' g i); [done | | |].
    + by apply FindNodeId_rewritten_old.
    + by apply out_edges_rewritten_old.
    + rewrite out_edges_rewritten_old by done.
      apply Forall_forall. intros e He.
      apply list_elem_of_filter in He as [Hs He].
      apply FindNodeId_rewritten_old; [by apply edge_in_range |].
      intros Hd. apply Hnot. rewrite <- Hs.
      apply list_elem_of_fmap_2, list_elem_of_filter. done.
Qed.

Lemma value_shape_replica c d : value_shape (replica n c d) = value_shape n.
Proof. done. Qed.

(** Every replica is passed over: its data successors share its device. *)
Lemma settled_rewritten_replica r :
  (num_node_ids g ≤ r < num_node_ids g')%nat → settled g' r.
Proof.
  rewrite num_node_ids_rewritten. intros Hr.
  pose proof rewritten_node_lt as Hlt.
  destruct (lookup_lt_is_Some_2 dte (r - num_node_ids g)) as [pair Hp]; [lia |].
  pose proof (FindNodeId_rewritten_replica _ _ Hp) as Hn.
  replace (num_node_ids g + (r - num_node_ids g))%nat with r in Hn by lia.
  destruct (examine_Replicate_inv _ _ _ _ Hex)
    as ([_ (value & shape & Hv & Hb & _) _ _] & _ & _).
  eapply (settled_one_device _ _ _ shape pair.1); [exact Hn | |].
  { rewrite value_shape_replica. unfold value_shape, GetNodeAttr_value.
    by rewrite Hv. }
  apply Forall_forall. intros x Hx.
  apply list_elem_of_filter in Hx as [Hs Hx].
  apply elem_of_edges_rewritten in Hx as [[_ Hd] [Hx|Hx]].
  - apply edge_in_range in Hx. lia.
  - apply RewriteFacts.elem_of_new_edges in Hx
      as [(k & pair' & e & Hk & He & ->)|(k & p & Hk & -> & _)]; [| by left].
    right. simpl in Hs, Hd.
    assert (k = (r - num_node_ids g)%nat) as -> by lia.
    assert (pair' = pair) as -> by congruence.
    destruct (group_edge _ _ _ Hk He) as (Hin & _ & Hdev).
    unfold Eligibility.device_of in *. simpl.
    rewrite FindNodeId_rewritten_old; [done | by apply edge_in_range | done].
Qed.

End Rewritten.

(** *** The loop over nodes that are all passed over *)

Lemma run_nodes_settled ids g mn mx :
  Forall (settled g) ids →
  ∃ mn' mx',
    run_nodes ids (mkLoopState g mn mx) = (OkStatus, mkLoopState g mn' mx').
Proof.
  revert mn mx. induction ids as [|i ids IH]; intros mn mx Hall.
  - by exists mn, mx.
  - apply Forall_cons in Hall as [Hi Hall]. simpl.
    unfold Eligibility.settled in Hi.
    destruct (examine g i); simpl in Hi; try done; by apply IH.
Qed.

(** *** What one run of the loop establishes *)

Lemma run_nodes_settles ids s st s' :
  wf_graph (ls_graph s) →
  Forall (λ i, (i < num_node_ids (ls_graph s))%nat) ids →
  run_nodes ids s = (st, s') →
  wf_graph (ls_graph s') ∧
  (num_node_ids (ls_graph s) ≤ num_node_ids (ls_graph s'))%nat ∧
  (∀ i, (i < num_node_ids (ls_graph s))%nat →
        settled (ls_graph s) i → settled (ls_graph s') i) ∧
  (∀ r, (num_node_ids (ls_graph s) ≤ r < num_node_ids (ls_graph s'))%nat →
        settled (ls_graph s') r) ∧
  match st with
  | OkStatus => Forall (settled (ls_graph s')) ids
  | Failed e =>
      ∃ pre node post,
        ids = pre ++ node :: post ∧ Forall (settled (ls_graph s')) pre ∧
        examine (ls_graph s') node = Abort e
  end.
Proof.
  revert s. induction ids as [|node ids IH]; intros s Hwf Hids Hrun.
  - simpl in Hrun. injection Hrun as <- <-.
    repeat split; [done | lia | done | lia | done].
  - apply Forall_cons in Hids as [Hnode Hids]. simpl in Hrun.
    destruct (examine (ls_graph s) node) as [why|elements|n dte|e] eqn:Hex.
    + destruct (IH _ Hwf Hids Hrun) as (Hwf' & Hle & Hold & Hnew & Hst).
      repeat split; try done.
      assert (Hset : settled (ls_graph s') node).
      { apply Hold; [done |]. unfold Eligibility.settled. by rewrite Hex. }
      destruct st as [|e].
      * by constructor.
      * destruct Hst as (pre & node' & post & -> & Hpre & Habort).
        exists (node :: pre), node', post. repeat split; [| done].
        by constructor.
    + destruct (IH (mkLoopState (ls_graph s) _ _) Hwf Hids Hrun)
        as (Hwf' & Hle & Hold & Hnew & Hst).
      simpl in Hle, Hold, Hnew.
      repeat split; try done.
      assert (Hset : settled (ls_graph s') node).
      { apply (Hold node); [done |]. unfold Eligibility.settled.
        by rewrite Hex. }
      destruct st as [|e].
      * by constructor.
      * destruct Hst as (pre & node' & post & -> & Hpre & Habort).
        exists (node :: pre), node', post. repeat split; [| done].
        by constructor.
    + pose proof (wf_rewritten _ _ _ _ Hwf Hex) as Hwf1.
      pose proof (num_node_ids_rewritten _ _ _ _ Hex) as Hlen1.
      assert (Hids1 : Forall (λ i, (i < num_node_ids
                (Pass.ReplicateToEachDevice (ls_graph s) node n dte))%nat) ids).
      { eapply Forall_impl; [exact Hids |]. simpl. intros i Hi. lia. }
      destruct (IH (mkLoopState _ _ _) Hwf1 Hids1 Hrun)
        as (Hwf' & Hle & Hold & Hnew & Hst).
      simpl in Hle, Hold, Hnew.
      assert (Hkeep : ∀ i,
                (i < num_node_ids (ls_graph s))%nat →
                settled (ls_graph s) i → settled (ls_graph s') i).
      { intros i Hi Hset. apply Hold; [lia |].
        by apply settled_rewritten_old. }
      assert (Hset : settled (ls_graph s') node).
      { apply Hold; [lia |]. by apply settled_rewritten_node. }
      split; [done |]. split; [lia |]. split; [done |]. split.
      * intros r Hr.
        destruct (decide (r < num_node_ids
                    (Pass.ReplicateToEachDevice (ls_graph s) node n dte))%nat).
        -- apply Hold; [done |]. apply settled_rewritten_replica; [done | done |].
           lia.
        -- apply Hnew. lia.
      * destruct st as [|e].
        -- by constructor.
        -- destruct Hst as (pre & node' & post & -> & Hpre & Habort).
           exists (node :: pre), node', post. repeat split; [| done].
           by constructor.
    + injection Hrun as <- <-.
      split; [done |]. split; [lia |]. split; [done |]. split; [lia |].
      exists [], node, ids. by repeat split.
Qed.

Lemma Run_unfold g :
  graph (Pass.Run ParseFullName DeviceNameToCpuDeviceName (Some g)) =
    Some (ls_graph (run_nodes (nodes g) (initial g)).2) ∧
  status (Pass.Run ParseFullName DeviceNameToCpuDeviceName (Some g)) =
    (run_nodes (nodes g) (initial g)).1.
Proof.
  unfold Pass.Run, initial.
  destruct (run_nodes (nodes g) _) as [[|e] s]; done.
Qed.

Lemma nodes_lt g : Forall (λ i, (i < num_node_ids g)%nat) (nodes g).
Proof.
  apply Forall_forall. intros i Hi. unfold nodes in Hi.
  apply elem_of_seq in Hi. lia.
Qed.

Lemma nodes_grow g g1 :
  (num_node_ids g ≤ num_node_ids g1)%nat →
  nodes g1 = nodes g ++ seq (num_node_ids g) (num_node_ids g1 - num_node_ids g).
Proof.
  intros Hle. unfold nodes.
  replace (num_node_ids g1)
    with (num_node_ids g + (num_node_ids g1 - num_node_ids g))%nat at 1 by lia.
  by rewrite seq_app.
Qed.

End WithDeviceNames.

End Stability.

(** ** An abort keeps what was rewritten before *)

Module NoRollback.

Section WithDeviceNames.

Variable ParseFullName : string → option string.
Variable DeviceNameToCpuDeviceName : string → option string.

Local Abbreviation examine := (Pass.examine ParseFullName DeviceNameToCpuDeviceName).
Local Abbreviation run_nodes :=
  (Pass.run_nodes ParseFullName DeviceNameToCpuDeviceName).
Local Abbreviation Run := (Pass.Run ParseFullName DeviceNameToCpuDeviceName).
Local Abbreviation GetSuccessorEdges :=
  (Pass.GetSuccessorEdges DeviceNameToCpuDeviceName).
Local Abbreviation reaches_grouping :=
  (Eligibility.reaches_grouping ParseFullName).

Lemma run_nodes_grows ids s st s' :
  run_nodes ids s = (st, s') →
  (num_node_ids (ls_graph s) ≤ num_node_ids (ls_graph s'))%nat.
Proof.
  revert s. induction ids as [|node ids IH]; intros s Hrun; simpl in Hrun.
  - by injection Hrun as <- <-.
  - destruct (examine (ls_graph s) node) as [why|elements|n dte|e] eqn:Hex.
    + by apply IH.
    + by apply IH in Hrun.
    + apply IH in Hrun. simpl in Hrun.
      rewrite (Stability.num_node_ids_rewritten _ _ _ _ _ _ Hex) in Hrun. lia.
    + by injection Hrun as <- <-.
Qed.

(** The loop touches the arena slot of a node only when it visits the node
    and finds it present. *)
Lemma run_nodes_keeps ids s st s' i :
  run_nodes ids s = (st, s') →
  (i < num_node_ids (ls_graph s))%nat →
  FindNodeId (ls_graph s) i = None ∨ i ∉ ids →
  FindNodeId (ls_graph s') i = FindNodeId (ls_graph s) i.
Proof.
  revert s. induction ids as [|node ids IH]; intros s Hrun Hi Hcase;
    simpl in Hrun.
  - by injection Hrun as <- <-.
  - assert (Hcase' : FindNodeId (ls_graph s) i = None ∨ i ∉ ids).
    { destruct Hcase as [|Hni]; [by left |]. right.
      intros Hin. apply Hni. by right. }
    destruct (examine (ls_graph s) node) as [why|elements|n dte|e] eqn:Hex.
    + by apply IH.
    + by apply (IH _ Hrun).
    + assert (Hne : i ≠ node).
      { intros ->. destruct Hcase as [Hnone|Hni]; [| apply Hni; left].
        apply Stability.examine_Replicate_inv in Hex as ([[Hn _ _ _] _ _ _] & _).
        congruence. }
      pose proof (Stability.FindNodeId_rewritten_old _ _ _ _ _ _ Hex i Hi Hne)
        as Hold.
      rewrite <- Hold. apply (IH (mkLoopState _ _ _) Hrun); simpl.
      * rewrite (Stability.num_node_ids_rewritten _ _ _ _ _ _ Hex). lia.
      * rewrite Hold. done.
    + by injection Hrun as <- <-.
Qed.

(** C4: when grouping the consumers of a constant that got past the first
    six tests fails, [Run] returns that error, and the graph it leaves is the
    graph as it stood when that constant was reached.  A constant rewritten
    before that point stays removed and its replicas stay in place. *)
Theorem resolver_failure_aborts g pre node post s1 n e :
  nodes g = pre ++ node :: post →
  run_nodes pre (initial g) = (OkStatus, s1) →
  reaches_grouping (ls_graph s1) node n →
  GetSuccessorEdges (ls_graph s1) node [] = Err e →
  Run (Some g) = mkRunResult (Failed e) (Some (ls_graph s1)) None ∧
  (∀ pre1 c pre2 s0 n0 dte0,
     pre = pre1 ++ c :: pre2 →
     run_nodes pre1 (initial g) = (OkStatus, s0) →
     examine (ls_graph s0) c = Replicate n0 dte0 →
     FindNodeId (ls_graph s1) c = None ∧
     ∀ k pair,
       dte0 !! k = Some pair →
       FindNodeId (ls_graph s1) (num_node_ids (ls_graph s0) + k) =
         Some (replica n0 (name_counter_ (ls_graph s0) + N.of_nat k) pair.1)).
Proof.
  intros Hn Hpre Hr He. split.
  { eapply LoopFacts.Run_abort; [done | done |].
    rewrite (LoopFacts.examine_at_grouping _ _ _ _ _ Hr). by rewrite He. }
  intros pre1 c pre2 s0 n0 dte0 -> Hpre1 Hex.
  rewrite LoopFacts.run_nodes_app, Hpre1 in Hpre. simpl in Hpre.
  rewrite Hex in Hpre.
  pose proof (Stability.num_node_ids_rewritten _ _ _ _ _ _ Hex) as Hlen.
  pose proof (Stability.rewritten_node_lt _ _ _ _ _ _ Hex) as Hlt.
  split.
  - rewrite (run_nodes_keeps _ _ _ _ c Hpre); simpl.
    + by apply (Stability.FindNodeId_rewritten_node _ _ _ _ _ _ Hex).
    + lia.
    + left. by apply (Stability.FindNodeId_rewritten_node _ _ _ _ _ _ Hex).
  - intros k pair Hk.
    rewrite (run_nodes_keeps _ _ _ _ (num_node_ids (ls_graph s0) + k) Hpre);
      simpl.
    + by apply (Stability.FindNodeId_rewritten_replica _ _ _ _ _ _ Hex).
    + apply lookup_lt_Some in Hk. lia.
    + right. intros Hin.
      assert (Hc : (num_node_ids (ls_graph s0) + k < num_node_ids g)%nat).
      { pose proof (Stability.nodes_lt g) as Hall.
        rewrite Forall_forall in Hall. apply Hall. rewrite Hn.
        rewrite !elem_of_app. left; right. by right. }
      apply run_nodes_grows in Hpre1. simpl in Hpre1. lia.
Qed.

End WithDeviceNames.

Lemma resolver_failure_aborts_witness :
  Example.run (Some Example.g_abort) =
    mkRunResult (Failed MalformedDeviceNameError)
      (Some (ls_graph (Example.run_nodes [0; 1; 2]%nat
                         (initial Example.g_abort)).2)) None ∧
  FindNodeId (ls_graph (Example.run_nodes [0; 1; 2]%nat
                          (initial Example.g_abort)).2) 0 = None.
Proof.
  pose proof (resolver_failure_aborts Example.ParseFullName
                Example.DeviceNameToCpuDeviceName Example.g_abort
                [0; 1; 2]%nat 3%nat [4; 5; 6]%nat
                (Example.run_nodes [0; 1; 2]%nat (initial Example.g_abort)).2
                (mkNode "E" true (Some "a/CPU:0"%string) (Some [3]))
                MalformedDeviceNameError) as H.
  destruct H as [Hrun Hkeep].
  - reflexivity.
  - vm_compute. reflexivity.
  - split; [split | | |]; try (vm_compute; reflexivity).
    + vm_compute. lia.
    + exists [3], (mkTensorShape [3] 3).
      repeat split;
        first [ vm_compute; reflexivity | vm_compute; discriminate ].
  - vm_compute. reflexivity.
  - split; [exact Hrun |].
    refine (proj1 (Hkeep [] 0%nat [1; 2]%nat (initial Example.g_abort)
                     (mkNode "C" true (Some "a/CPU:0"%string) (Some [2; 2]))
                     [ ("a/CPU:0"%string, [Example.data 0 1 0]);
                       ("b/CPU:0"%string, [Example.data 0 2 0]) ] _ _ _));
      vm_compute; reflexivity.
Defined.

End NoRollback.

(** ** Running the pass a second time *)

Module Idempotence.

Section WithDeviceNames.

Variable ParseFullName : string → option string.
Variable DeviceNameToCpuDeviceName : string → option string.

Local Abbreviation examine := (Pass.examine ParseFullName DeviceNameToCpuDeviceName).
Local Abbreviation run_nodes :=
  (Pass.run_nodes ParseFullName DeviceNameToCpuDeviceName).
Local Abbreviation Run := (Pass.Run ParseFullName DeviceNameToCpuDeviceName).
Local Abbreviation settled :=
  (Eligibility.settled ParseFullName DeviceNameToCpuDeviceName).

(** C6: on a graph whose edges all join present nodes, a second run of the
    pass leaves the graph the first run produced exactly as it is and ends
    with the same status.  Every node the first run created, in particular,
    is passed over by the tests: its data successors all sit on the one
    device it was made for. *)
Theorem Run_idempotent g g1 :
  wf_graph g →
  graph (Run (Some g)) = Some g1 →
  graph (Run (Some g1)) = Some g1 ∧
  status (Run (Some g1)) = status (Run (Some g)) ∧
  (∀ r, (num_node_ids g ≤ r < num_node_ids g1)%nat → settled g1 r).
Proof.
  intros Hwf Hg1.
  destruct (Stability.Run_unfold ParseFullName DeviceNameToCpuDeviceName g)
    as [Hgraph Hstatus].
  destruct (Stability.Run_unfold ParseFullName DeviceNameToCpuDeviceName g1)
    as [Hgraph1 Hstatus1].
  rewrite Hgraph1, Hstatus1, Hstatus. rewrite Hgraph in Hg1.
  destruct (run_nodes (nodes g) (initial g)) as [st s1] eqn:Hrun.
  simpl in Hg1. injection Hg1 as Hg1. simpl.
  destruct (Stability.run_nodes_settles _ _ (nodes g) (initial g) st s1 Hwf
              (Stability.nodes_lt g) Hrun)
    as (Hwf1 & Hle & Hold & Hnew & Hst).
  simpl in Hle, Hold, Hnew. rewrite Hg1 in *.
  rewrite (Stability.nodes_grow g g1 Hle).
  assert (Hreplicas : Forall (settled g1)
            (seq (num_node_ids g) (num_node_ids g1 - num_node_ids g))).
  { apply Forall_forall. intros r Hr. apply elem_of_seq in Hr.
    apply Hnew. lia. }
  split; [| split; [| done]].
  - destruct st as [|e].
    + destruct (Stability.run_nodes_settled ParseFullName
                  DeviceNameToCpuDeviceName
                  (nodes g ++ seq (num_node_ids g) (num_node_ids g1 - num_node_ids g))
                  g1 INT64_MAX INT64_MIN) as (mn & mx & Hrun1).
      { by apply Forall_app. }
      unfold initial. by rewrite Hrun1.
    + destruct Hst as (pre & node & post & Hids & Hpre & Habort).
      rewrite Hids, <- app_assoc. simpl.
      destruct (Stability.run_nodes_settled ParseFullName
                  DeviceNameToCpuDeviceName pre g1 INT64_MAX INT64_MIN)
        as (mn & mx & Hrun1); [done |].
      rewrite LoopFacts.run_nodes_app. unfold initial. rewrite Hrun1.
      simpl. by rewrite Habort.
  - destruct st as [|e].
    + destruct (Stability.run_nodes_settled ParseFullName
                  DeviceNameToCpuDeviceName
                  (nodes g ++ seq (num_node_ids g) (num_node_ids g1 - num_node_ids g))
                  g1 INT64_MAX INT64_MIN) as (mn & mx & Hrun1).
      { by apply Forall_app. }
      unfold initial. by rewrite Hrun1.
    + destruct Hst as (pre & node & post & Hids & Hpre & Habort).
      rewrite Hids, <- app_assoc. simpl.
      destruct (Stability.run_nodes_settled ParseFullName
                  DeviceNameToCpuDeviceName pre g1 INT64_MAX INT64_MIN)
        as (mn & mx & Hrun1); [done |].
      rewrite LoopFacts.run_nodes_app. unfold initial. rewrite Hrun1.
      simpl. by rewrite Habort.
Qed.

End WithDeviceNames.

Lemma Run_idempotent_witness :
  wf_graph Example.g_scenario ∧
  ∃ g1, graph (Example.run (Some Example.g_scenario)) = Some g1 ∧
        graph (Example.run (Some g1)) = Some g1.
Proof.
  assert (Hwf : wf_graph Example.g_scenario).
  { apply (bool_decide_unpack _). vm_compute. exact I. }
  split; [exact Hwf |]. eexists. split; [vm_compute; reflexivity |].
  refine (proj1 (Run_idempotent Example.ParseFullName
            Example.DeviceNameToCpuDeviceName Example.g_scenario _ Hwf _)).
  vm_compute. reflexivity.
Defined.

End Idempotence.

(** ** Fan-out and control fan-in of the replicas *)

Module FanOut.

Import BTree.

Section PlainEdges.

Implicit Types (node copy len : NodeId) (preds : list NodeId).
Implicit Types dte : btree_map (list Edge).

(** Without an edge from the constant to itself the predecessors stay the
    same for every replica. *)
Lemma new_edges_plain node copy preds dte :
  Forall (λ p, Forall (λ e, dst e ≠ node) p.2) dte →
  new_edges node copy preds dte = plain_edges copy preds dte.
Proof.
  revert copy. induction dte as [|pair rest IH]; intros copy Hall; [done |].
  apply Forall_cons in Hall as [Hpair Hall]. simpl.
  rewrite (Stability.filter_none _ (redirect copy <$> pair.2)).
  - rewrite app_nil_r. by rewrite IH.
  - intros x Hx. apply list_elem_of_fmap in Hx as (e & -> & He). simpl.
    rewrite Forall_forall in Hpair. by apply Hpair.
Qed.

Lemma filter_src_plain_edges len copy preds dte :
  (len ≤ copy)%nat → Forall (λ p, (p < len)%nat) preds →
  filter (λ x, (len ≤ src x)%nat) (plain_edges copy preds dte) =
  redirected copy dte.
Proof.
  intros Hle Hpreds. revert copy Hle.
  induction dte as [|pair rest IH]; intros copy Hle; [done |]. simpl.
  rewrite !filter_app, IH by lia. f_equal.
  - apply Stability.filter_all. intros x Hx.
    by apply list_elem_of_fmap in Hx as (e & -> & _).
  - rewrite Stability.filter_none; [done |].
    intros x Hx. apply list_elem_of_fmap in Hx as (p & -> & Hp). simpl.
    rewrite Forall_forall in Hpreds. specialize (Hpreds p Hp). lia.
Qed.

Lemma endpoint_redirected copy dte :
  endpoint <$> redirected copy dte = endpoint <$> concat (dte.*2).
Proof.
  revert copy. induction dte as [|pair rest IH]; intros copy; [done |].
  simpl. rewrite !fmap_app, IH. f_equal.
  rewrite <- list_fmap_compose. by apply list_fmap_ext.
Qed.

Lemma filter_dst_plain_edges len copy preds dte :
  (len ≤ copy)%nat →
  Forall (λ p, Forall (λ e, (dst e < len)%nat) p.2) dte →
  filter (λ x, (len ≤ dst x)%nat) (plain_edges copy preds dte) =
  controls copy preds dte.
Proof.
  intros Hle Hall. revert copy Hle.
  induction dte as [|pair rest IH]; intros copy Hle; [done |].
  apply Forall_cons in Hall as [Hpair Hall]. simpl.
  rewrite !filter_app, IH by (done || lia).
  rewrite Stability.filter_none.
  - simpl. f_equal. apply Stability.filter_all. intros x Hx.
    by apply list_elem_of_fmap in Hx as (p & -> & _).
  - intros x Hx. apply list_elem_of_fmap in Hx as (e & -> & He). simpl.
    rewrite Forall_forall in Hpair. specialize (Hpair e He). lia.
Qed.

Lemma length_controls copy preds dte :
  length (controls copy preds dte) = (length preds * length dte)%nat.
Proof.
  revert copy. induction dte as [|pair rest IH]; intros copy; simpl; [lia |].
  rewrite length_app, length_fmap, IH. lia.
Qed.

Lemma filter_controls copy preds dte k :
  (k < length dte)%nat →
  filter (λ x, dst x = (copy + k)%nat) (controls copy preds dte) =
  control_edge (copy + k) <$> preds.
Proof.
  revert copy k. induction dte as [|pair rest IH]; intros copy k Hk; simpl in *;
    [lia |].
  rewrite filter_app. destruct k as [|k].
  - rewrite Nat.add_0_r.
    rewrite (Stability.filter_none _ (controls _ _ _)).
    + rewrite app_nil_r. apply Stability.filter_all. intros x Hx.
      by apply list_elem_of_fmap in Hx as (p & -> & _).
    + intros x Hx. clear -Hx. revert Hx. generalize (Nat.le_refl (S copy)).
      generalize (S copy) at 2 3. intros c Hc. revert c Hc.
      induction rest as [|pair rest IH]; intros c Hc Hx; simpl in Hx.
      * by apply elem_of_nil in Hx.
      * apply elem_of_app in Hx as [Hx|Hx].
        -- apply list_elem_of_fmap in Hx as (p & -> & _). simpl. lia.
        -- apply (IH (S c)); [lia | done].
  - rewrite Stability.filter_none.
    + simpl. replace (copy + S k)%nat with (S copy + k)%nat by lia.
      apply IH. lia.
    + intros x Hx. apply list_elem_of_fmap in Hx as (p & -> & _). simpl. lia.
Qed.

Lemma Forall_controls copy preds dte :
  Forall (λ x, IsControlEdge x = true) (controls copy preds dte).
Proof.
  revert copy. induction dte as [|pair rest IH]; intros copy; simpl; [done |].
  apply Forall_app. split; [| done].
  apply Forall_forall. intros x Hx.
  by apply list_elem_of_fmap in Hx as (p & -> & _).
Qed.

Lemma filter_src_controls (r p : NodeId) (preds : list NodeId) :
  NoDup preds → p ∈ preds →
  filter (λ x, src x = p) (control_edge r <$> preds) = [control_edge r p].
Proof.
  induction 1 as [|q preds Hq Hnd IH]; intros Hp.
  - by apply elem_of_nil in Hp.
  - rewrite fmap_cons, filter_cons. simpl.
    destruct (decide (q = p)) as [->|Hne].
    + f_equal. apply Stability.filter_none. intros x Hx.
      apply list_elem_of_fmap in Hx as (q & -> & Hin). simpl. by intros ->.
    + apply IH. apply elem_of_cons in Hp as [->|]; done.
Qed.

End PlainEdges.

Section Replicated.

Variable ParseFullName : string → option string.
Variable DeviceNameToCpuDeviceName : string → option string.

Local Abbreviation examine := (Pass.examine ParseFullName DeviceNameToCpuDeviceName).
Local Abbreviation device_of := (Eligibility.device_of DeviceNameToCpuDeviceName).

Variables (g : Graph) (node : NodeId) (n : Node).
Variable dte : btree_map (list Edge).

Hypothesis Hwf : wf_graph g.
Hypothesis Hex : examine g node = Replicate n dte.
Hypothesis Hself : node ∉ in_nodes g node.

Local Abbreviation g' := (Pass.ReplicateToEachDevice g node n dte).
Local Abbreviation len := (num_node_ids g).
Local Abbreviation untouched := (λ e : Edge, src e ≠ node ∧ dst e ≠ node).

Lemma group_edge_of k pair e :
  dte !! k = Some pair → e ∈ pair.2 →
  e ∈ edges_ g ∧ src e = node ∧ device_of g e = Ok pair.1.
Proof.
  apply (Stability.group_edge ParseFullName DeviceNameToCpuDeviceName
           g node n dte Hex).
Qed.

Lemma groups_lookup pair :
  pair ∈ dte → ∃ k, dte !! k = Some pair.
Proof. apply list_elem_of_lookup_1. Qed.

Lemma groups_no_self : Forall (λ p, Forall (λ e, dst e ≠ node) p.2) dte.
Proof.
  apply Forall_forall. intros pair Hpair. apply Forall_forall. intros e He.
  destruct (groups_lookup _ Hpair) as [k Hk].
  destruct (group_edge_of _ _ _ Hk He) as (Hin & Hs & _).
  intros Hd. apply Hself. rewrite <- Hs at 1.
  apply list_elem_of_fmap_2, list_elem_of_filter. done.
Qed.

Lemma groups_in_range : Forall (λ p, Forall (λ e, (dst e < len)%nat) p.2) dte.
Proof.
  apply Forall_forall. intros pair Hpair. apply Forall_forall. intros e He.
  destruct (groups_lookup _ Hpair) as [k Hk].
  destruct (group_edge_of _ _ _ Hk He) as (Hin & _ & _).
  by apply (Stability.edge_in_range g Hwf).
Qed.

Lemma preds_in_range : Forall (λ p, (p < len)%nat) (in_nodes g node).
Proof.
  apply Forall_forall. intros p Hp.
  by apply Stability.live_lt, (Stability.in_nodes_live g node Hwf).
Qed.

Lemma node_lt : (node < len)%nat.
Proof. exact (Stability.rewritten_node_lt ParseFullName _ g node n dte Hex). Qed.

Lemma edges_rewritten_plain :
  edges_ g' =
  filter untouched (edges_ g) ++ plain_edges len (in_nodes g node) dte.
Proof.
  rewrite (Stability.rewritten_eq ParseFullName _ g node n dte Hex). simpl.
  rewrite filter_app. f_equal.
  rewrite <- (new_edges_plain node) by apply groups_no_self.
  apply Stability.filter_all. intros x Hx. pose proof node_lt.
  apply RewriteFacts.elem_of_new_edges in Hx
    as [(k & pair & e & Hk & He & ->)|(k & p & Hk & -> & Hp)]; simpl.
  - split; [lia |]. pose proof groups_no_self as Hns.
    rewrite Forall_forall in Hns.
    specialize (Hns pair ltac:(by eapply list_elem_of_lookup_2)).
    rewrite Forall_forall in Hns. by apply Hns.
  - split; [| lia]. destruct Hp as [Hp|Hp]; [| lia]. by intros ->.
Qed.

Lemma from_replicas :
  filter (λ x, (len ≤ src x)%nat) (edges_ g') = redirected len dte.
Proof.
  rewrite edges_rewritten_plain, filter_app.
  rewrite Stability.filter_none.
  - simpl. apply filter_src_plain_edges; [lia | apply preds_in_range].
  - intros x Hx. apply list_elem_of_filter in Hx as [_ Hx].
    apply (Stability.edge_in_range g Hwf) in Hx. lia.
Qed.

Lemma into_replicas :
  filter (λ x, (len ≤ dst x)%nat) (edges_ g') =
  controls len (in_nodes g node) dte.
Proof.
  rewrite edges_rewritten_plain, filter_app.
  rewrite Stability.filter_none.
  - simpl. apply filter_dst_plain_edges; [lia | apply groups_in_range].
  - intros x Hx. apply list_elem_of_filter in Hx as [_ Hx].
    apply (Stability.edge_in_range g Hwf) in Hx. lia.
Qed.

Lemma elem_of_replica_ids r :
  r ∈ replica_ids g dte ↔ (len ≤ r < len + length dte)%nat.
Proof. unfold replica_ids. apply elem_of_seq. Qed.

Lemma rewritten_in_range x :
  x ∈ edges_ g' →
  (src x < len + length dte)%nat ∧ (dst x < len + length dte)%nat.
Proof.
  intros Hx.
  pose proof (Stability.wf_rewritten ParseFullName _ g node n dte Hwf Hex) as Hwf'.
  pose proof (Stability.edge_in_range _ Hwf' x Hx) as Hr.
  by rewrite (Stability.num_node_ids_rewritten ParseFullName _ g node n dte Hex)
    in Hr.
Qed.

Lemma out_edges_data : Forall (λ e, IsControlEdge e = false) (out_edges g node).
Proof.
  apply Stability.examine_Replicate_inv in Hex as ([[_ _ _ Hctl] _ _ _] & _).
  unfold Pass.HasControlOut in Hctl. apply Forall_forall. intros e He.
  destruct (IsControlEdge e) eqn:Hc; [| done].
  assert (existsb IsControlEdge (out_edges g node) = true); [| congruence].
  apply existsb_exists. exists e. by rewrite <- list_elem_of_In.
Qed.

Lemma groups_concat : concat (dte.*2) ≡ₚ out_edges g node.
Proof.
  pose proof (Stability.grouping_ok ParseFullName _ g node n dte Hex) as Hg.
  by apply Grouping.collect_edges_concat in Hg.
Qed.

Lemma groups_sorted : sorted dte.
Proof.
  pose proof (Stability.grouping_ok ParseFullName _ g node n dte Hex) as Hg.
  eapply Grouping.collect_edges_sorted; [exact Hg | constructor].
Qed.

Lemma group_index_unique k1 k2 pair1 pair2 :
  dte !! k1 = Some pair1 → dte !! k2 = Some pair2 → pair1.1 = pair2.1 →
  k1 = k2.
Proof.
  intros H1 H2 Heq.
  pose proof (BTreeFacts.sorted_NoDup _ groups_sorted) as Hnd.
  unfold keys in Hnd. eapply NoDup_lookup; [exact Hnd | |].
  - by rewrite list_lookup_fmap, H1.
  - rewrite list_lookup_fmap, H2. simpl. by rewrite Heq.
Qed.

Lemma from_replica_ids :
  filter (λ x, src x ∈ replica_ids g dte) (edges_ g') = redirected len dte.
Proof.
  rewrite <- from_replicas. apply Stability.filter_ext_in. intros x Hx.
  rewrite elem_of_replica_ids. apply rewritten_in_range in Hx. lia.
Qed.

Lemma into_replica r :
  r ∈ replica_ids g dte →
  in_edges g' r = control_edge r <$> in_nodes g node.
Proof.
  intros Hr. apply elem_of_replica_ids in Hr. unfold in_edges.
  assert (Heq : filter (λ e, dst e = r) (edges_ g') =
                filter (λ e, dst e = r)
                  (filter (λ x, (len ≤ dst x)%nat) (edges_ g'))).
  { rewrite list_filter_filter. apply Stability.filter_ext_in.
    intros x _. split; [| tauto]. intros ->. split; [done | lia]. }
  rewrite Heq, into_replicas.
  replace r with (len + (r - len))%nat by lia.
  apply filter_controls. lia.
Qed.

(** C1: for a constant that passes all seven tests in a graph whose edges
    join present nodes, and that does not feed itself, the rewrite gives
    every original outbound edge one counterpart: a data edge from exactly
    one replica, out of the same output slot, into the same destination node
    and input slot.  The edges leaving the replicas are, up to their source,
    the original outbound edges of the constant, so there are as many of
    them as the constant had outbound data edges, and the edges between the
    other nodes are as before.  Where the constant was the only producer for
    its destination slots, the data edges into those slots number its data
    out-degree. *)
Theorem fan_out_preserved :
  let replicas := replica_ids g dte in
  (∀ e, e ∈ out_edges g node →
     ∃ r, r ∈ replicas ∧ redirect r e ∈ edges_ g' ∧
          ∀ x, x ∈ edges_ g' → src x ∈ replicas → dst x = dst e → src x = r) ∧
  (endpoint <$> filter (λ x, src x ∈ replicas) (edges_ g')) ≡ₚ
    (endpoint <$> out_edges g node) ∧
  length (filter (λ x, src x ∈ replicas) (edges_ g')) =
    length (out_edges g node) ∧
  Forall (λ e, IsControlEdge e = false) (out_edges g node) ∧
  Forall (λ x, IsControlEdge x = false)
    (filter (λ x, src x ∈ replicas) (edges_ g')) ∧
  filter (λ x, (src x ∉ replicas) ∧ (dst x ∉ replicas)) (edges_ g') =
    filter (λ e, src e ≠ node ∧ dst e ≠ node) (edges_ g) ∧
  let destinations := (λ e, (dst e, dst_input e)) <$> out_edges g node in
  ((∀ x, x ∈ edges_ g → IsControlEdge x = false →
         (dst x, dst_input x) ∈ destinations → src x = node) →
   length (filter (λ x, IsControlEdge x = false ∧
                        (dst x, dst_input x) ∈ destinations) (edges_ g')) =
     length (out_edges g node)).
Proof.
  intros replicas. subst replicas. pose proof node_lt as Hlt.
  assert (Hperm : (endpoint <$> filter (λ x, src x ∈ replica_ids g dte) (edges_ g'))
                  ≡ₚ (endpoint <$> out_edges g node)).
  { rewrite from_replica_ids, endpoint_redirected. by rewrite groups_concat. }
  assert (Hlength : length (filter (λ x, src x ∈ replica_ids g dte) (edges_ g')) =
                    length (out_edges g node)).
  { apply Permutation_length in Hperm. by rewrite !length_fmap in Hperm. }
  assert (Hdata : Forall (λ x, IsControlEdge x = false ∧
                    (dst x, dst_input x) ∈
                      (λ e, (dst e, dst_input e)) <$> out_edges g node)
                    (filter (λ x, src x ∈ replica_ids g dte) (edges_ g'))).
  { apply Forall_forall. intros x Hx.
    assert (Hin : endpoint x ∈ endpoint <$> out_edges g node).
    { rewrite <- Hperm. by apply list_elem_of_fmap_2. }
    apply list_elem_of_fmap in Hin as (e & Heq & He).
    pose proof out_edges_data as Hd. rewrite Forall_forall in Hd.
    specialize (Hd e He). unfold IsControlEdge in *.
    unfold endpoint in Heq. injection Heq as Hso Hdst Hdi.
    rewrite Hso, Hdst, Hdi. split; [done |].
    by apply (list_elem_of_fmap_2 (λ e, (dst e, dst_input e))). }
  split; [| split; [done |]; split; [done |];
            split; [apply out_edges_data |]; split; [| split]].
  - intros e He. rewrite <- groups_concat in He.
    apply Stability.elem_of_concat in He as (l & Hl & He).
    apply list_elem_of_fmap in Hl as (pair & -> & Hpair).
    destruct (groups_lookup _ Hpair) as [k Hk].
    exists (len + k)%nat. split; [| split].
    + apply elem_of_replica_ids. apply lookup_lt_Some in Hk. lia.
    + apply (Stability.elem_of_edges_rewritten ParseFullName _ _ _ _ _ Hex).
      simpl. split.
      * split; [lia |]. pose proof groups_no_self as Hns.
        rewrite Forall_forall in Hns. specialize (Hns pair Hpair).
        rewrite Forall_forall in Hns. by apply Hns.
      * right. by eapply RewriteFacts.redirect_in_new_edges.
    + intros x Hx Hsrc Hdst. apply elem_of_replica_ids in Hsrc.
      destruct (group_edge_of _ _ _ Hk He) as (Hin & _ & Hdev).
      apply (Stability.elem_of_edges_rewritten ParseFullName _ _ _ _ _ Hex)
        in Hx as [_ [Hx|Hx]].
      { apply (Stability.edge_in_range g Hwf) in Hx. lia. }
      apply RewriteFacts.elem_of_new_edges in Hx
        as [(k' & pair' & e' & Hk' & He' & ->)|(k' & p & _ & -> & _)];
        simpl in *.
      * f_equal. destruct (group_edge_of _ _ _ Hk' He') as (_ & _ & Hdev').
        apply (group_index_unique _ _ _ _ Hk' Hk).
        unfold Eligibility.device_of in *. rewrite Hdst in Hdev'. congruence.
      * apply (Stability.edge_in_range g Hwf) in Hin. lia.
  - eapply Forall_impl; [exact Hdata |]. by intros x [? _].
  - rewrite edges_rewritten_plain, filter_app.
    rewrite (Stability.filter_none _ (plain_edges _ _ _)).
    + rewrite app_nil_r. apply Stability.filter_all. intros x Hx.
      apply list_elem_of_filter in Hx as [_ Hx].
      apply (Stability.edge_in_range g Hwf) in Hx.
      rewrite !elem_of_replica_ids. lia.
    + intros x Hx [Hs Hd]. rewrite elem_of_replica_ids in Hs, Hd.
      rewrite <- (new_edges_plain node) in Hx by apply groups_no_self.
      apply RewriteFacts.elem_of_new_edges in Hx
        as [(k & pair & e & Hk & He & ->)|(k & p & Hk & -> & _)]; simpl in *.
      * apply lookup_lt_Some in Hk. lia.
      * lia.
  - intros destinations Hsingle. rewrite <- Hlength. f_equal.
    apply Stability.filter_ext_in. intros x Hx. split.
    + intros [Hc Hd].
      apply (Stability.elem_of_edges_rewritten ParseFullName _ _ _ _ _ Hex)
        in Hx as [[Hs _] [Hx|Hx]].
      { by destruct Hs; apply Hsingle. }
      apply RewriteFacts.elem_of_new_edges in Hx
        as [(k & pair & e & Hk & He & ->)|(k & p & Hk & -> & _)];
        [| discriminate].
      simpl. apply elem_of_replica_ids. apply lookup_lt_Some in Hk. lia.
    + intros Hs. rewrite Forall_forall in Hdata. apply Hdata.
      by apply list_elem_of_filter.
Qed.

Lemma filter_src_control_edges (r p : NodeId) (es : list Edge) :
  length (filter (λ x, src x = p) (control_edge r <$> (src <$> es))) =
  length (filter (λ e, src e = p) es).
Proof.
  induction es as [|e es IH]; [done |].
  rewrite !fmap_cons, !filter_cons. simpl.
  destruct (decide (src e = p)); simpl; by rewrite IH.
Qed.

Lemma edges_between r p :
  r ∈ replica_ids g dte →
  filter (λ x, src x = p ∧ dst x = r) (edges_ g') =
  filter (λ x, src x = p) (control_edge r <$> in_nodes g node).
Proof.
  intros Hr.
  rewrite <- (list_filter_filter (λ x, src x = p) (λ x, dst x = r)).
  fold (in_edges g' r). by rewrite (into_replica r Hr).
Qed.

(** C2: under the same conditions, with [k] the number of inbound edges of
    the constant (data or control; a neighbour with several edges into the
    constant is counted once per edge, as [in_nodes] lists it) and [m] the
    number of device groups, the inbound edges of every replica are control
    edges, one per inbound edge of the constant and from the source of that
    edge, which makes [k * m] control edges into the replicas; [m] counts
    the distinct devices the consumers resolve to.  A neighbour has as many
    control edges into each replica as it has edges into the constant:
    exactly one iff it has exactly one edge into the constant. *)
Theorem control_fan_in :
  let replicas := replica_ids g dte in
  let k := length (in_edges g node) in
  let m := length dte in
  (∀ r, r ∈ replicas →
     in_edges g' r = control_edge r <$> in_nodes g node ∧
     in_nodes g' r = in_nodes g node ∧
     Forall (λ x, IsControlEdge x = true) (in_edges g' r) ∧
     (∀ p, p ∈ in_nodes g node → control_edge r p ∈ edges_ g') ∧
     (∀ p, length (filter (λ x, src x = p ∧ dst x = r) (edges_ g')) =
           length (filter (λ x, src x = p) (in_edges g node)))) ∧
  length (filter (λ x, IsControlEdge x = true ∧ dst x ∈ replicas) (edges_ g')) =
    (k * m)%nat ∧
  length replicas = m ∧
  NoDup (keys dte) ∧
  (∀ d, d ∈ keys dte ↔ ∃ e, e ∈ out_edges g node ∧ device_of g e = Ok d) ∧
  (∀ r p, r ∈ replicas → p ∈ in_nodes g node →
          (filter (λ x, src x = p ∧ dst x = r) (edges_ g') =
             [control_edge r p] ↔
           length (filter (λ x, src x = p) (in_edges g node)) = 1%nat)).
Proof.
  intros replicas k m. subst replicas k m.
  assert (Hcount : ∀ r p, r ∈ replica_ids g dte →
            length (filter (λ x, src x = p ∧ dst x = r) (edges_ g')) =
            length (filter (λ x, src x = p) (in_edges g node))).
  { intros r p Hr. rewrite (edges_between r p Hr).
    apply filter_src_control_edges. }
  split; [| split; [| split; [| split; [| split]]]].
  - intros r Hr. pose proof (into_replica r Hr) as Hin.
    split; [done |]. split; [| split; [| split]].
    + unfold in_nodes at 1. rewrite Hin, <- list_fmap_compose.
      rewrite <- (list_fmap_id (in_nodes g node)) at 2.
      by apply list_fmap_ext.
    + rewrite Hin. apply Forall_forall. intros x Hx.
      by apply list_elem_of_fmap in Hx as (p & -> & _).
    + intros p Hp.
      assert (Hx : control_edge r p ∈ in_edges g' r).
      { rewrite Hin. by apply list_elem_of_fmap_2. }
      by apply list_elem_of_filter in Hx as [_ Hx].
    + intros p. by apply Hcount.
  - rewrite <- (length_fmap src (in_edges g node)). fold (in_nodes g node).
    rewrite <- length_controls with (copy := len), <- into_replicas.
    f_equal. apply Stability.filter_ext_in. intros x Hx.
    rewrite elem_of_replica_ids. split; [lia |]. intros Hd. split.
    + assert (Hc : x ∈ controls len (in_nodes g node) dte).
      { rewrite <- into_replicas. by apply list_elem_of_filter. }
      pose proof (Forall_controls len (in_nodes g node) dte) as Hall.
      rewrite Forall_forall in Hall. by apply Hall.
    + apply rewritten_in_range in Hx. lia.
  - unfold replica_ids. apply length_seq.
  - apply BTreeFacts.sorted_NoDup, groups_sorted.
  - intros d.
    pose proof (Stability.grouping_ok ParseFullName _ g node n dte Hex) as Hg.
    rewrite (Grouping.collect_edges_keys _ _ _ _ _ Hg d). split.
    + intros [Hd|Hd]; [by apply elem_of_nil in Hd | done].
    + by right.
  - intros r p Hr Hp. rewrite <- (Hcount r p Hr). split.
    + by intros ->.
    + intros Hone. rewrite (edges_between r p Hr) in *.
      assert (Hall : Forall (λ x, x = control_edge r p)
                (filter (λ x, src x = p)
                   (control_edge r <$> in_nodes g node))).
      { apply Forall_forall. intros x Hx.
        apply list_elem_of_filter in Hx as [Hs Hx].
        apply list_elem_of_fmap in Hx as (q & -> & _).
        simpl in Hs. by subst q. }
      destruct (filter _ _) as [|x [|y l]]; simpl in Hone; [lia | | lia].
      by apply Forall_cons in Hall as [-> _].
Qed.

End Replicated.

Local Ltac concrete :=
  first [ reflexivity | vm_compute; reflexivity | vm_compute; lia
        | vm_compute; discriminate
        | apply (bool_decide_unpack _); vm_compute; exact I ].

Lemma fan_out_preserved_witness :
  wf_graph Example.g_scenario ∧
  Example.examine Example.g_scenario 0 =
    Replicate Example.c_scenario Example.dte_scenario ∧
  (0%nat ∉ in_nodes Example.g_scenario 0) ∧
  length (filter (λ x, src x ∈ replica_ids Example.g_scenario Example.dte_scenario)
            (edges_ (Pass.ReplicateToEachDevice Example.g_scenario 0
                       Example.c_scenario Example.dte_scenario))) =
    length (out_edges Example.g_scenario 0).
Proof.
  assert (Hwf : wf_graph Example.g_scenario) by concrete.
  assert (Hex : Example.examine Example.g_scenario 0 =
                Replicate Example.c_scenario Example.dte_scenario) by concrete.
  assert (Hself : 0%nat ∉ in_nodes Example.g_scenario 0) by concrete.
  split; [exact Hwf |]. split; [exact Hex |]. split; [exact Hself |].
  exact (proj1 (proj2 (proj2 (fan_out_preserved Example.ParseFullName
           Example.DeviceNameToCpuDeviceName Example.g_scenario 0%nat
           Example.c_scenario Example.dte_scenario Hwf Hex Hself)))).
Defined.

Lemma control_fan_in_witness :
  wf_graph Example.g_par ∧
  Example.examine Example.g_par 0 =
    Replicate Example.c_scenario Example.dte_par ∧
  (0%nat ∉ in_nodes Example.g_par 0) ∧
  length (filter (λ x, IsControlEdge x = true ∧
                       dst x ∈ replica_ids Example.g_par Example.dte_par)
            (edges_ (Pass.ReplicateToEachDevice Example.g_par 0
                       Example.c_scenario Example.dte_par))) =
    (length (in_edges Example.g_par 0) * length Example.dte_par)%nat.
Proof.
  assert (Hwf : wf_graph Example.g_par) by concrete.
  assert (Hex : Example.examine Example.g_par 0 =
                Replicate Example.c_scenario Example.dte_par) by concrete.
  assert (Hself : 0%nat ∉ in_nodes Example.g_par 0) by concrete.
  split; [exact Hwf |]. split; [exact Hex |]. split; [exact Hself |].
  exact (proj1 (proj2 (control_fan_in Example.ParseFullName
           Example.DeviceNameToCpuDeviceName Example.g_par 0%nat
           Example.c_scenario Example.dte_par Hwf Hex Hself))).
Defined.

(** The constant of [g_par] is replicated into two replicas.  Its only
    inbound neighbour has two edges into it and so gets two control edges
    into each replica: four control edges, not the two that one neighbour
    and two replicas would make. *)
Lemma parallel_edges_counterexample :
  Example.examine Example.g_par 0 =
    Replicate Example.c_scenario Example.dte_par ∧
  inbound_neighbours Example.g_par 0 = [3%nat] ∧
  length (replica_ids Example.g_par Example.dte_par) = 2%nat ∧
  ¬ fan_in_by_neighbour Example.g_par
      (Pass.ReplicateToEachDevice Example.g_par 0 Example.c_scenario
         Example.dte_par)
      0 (replica_ids Example.g_par Example.dte_par).
Proof.
  split; [vm_compute; reflexivity |]. split; [vm_compute; reflexivity |].
  split; [reflexivity |].
  intros [_ Hcount]. vm_compute in Hcount. discriminate.
Qed.

End FanOut.

(** ** The range of skipped element counts *)

Module Diagnostics.

Section WithDeviceNames.

Variable ParseFullName : string → option string.
Variable DeviceNameToCpuDeviceName : string → option string.

Local Abbreviation examine := (Pass.examine ParseFullName DeviceNameToCpuDeviceName).
Local Abbreviation run_nodes :=
  (Pass.run_nodes ParseFullName DeviceNameToCpuDeviceName).
Local Abbreviation Run := (Pass.Run ParseFullName DeviceNameToCpuDeviceName).
Local Abbreviation skipped_sizes :=
  (Eligibility.skipped_sizes ParseFullName DeviceNameToCpuDeviceName).

Lemma foldl_min_spec (a : Z) (l : list Z) :
  foldl Z.min a l ≤ a ∧ Forall (λ x, foldl Z.min a l ≤ x) l ∧
  (foldl Z.min a l = a ∨ foldl Z.min a l ∈ l).
Proof.
  revert a. induction l as [|x l IH]; intros a; simpl.
  - split; [lia |]. split; [done | by left].
  - destruct (IH (Z.min a x)) as (Hle & Hall & Hin).
    split; [lia |]. split.
    + constructor; [lia | done].
    + destruct Hin as [Heq|Hin]; [| by right; right].
      destruct (Z.min_spec a x) as [[_ Hm]|[_ Hm]]; rewrite Hm in *.
      * by left.
      * right. rewrite Heq. left.
Qed.

Lemma foldl_max_spec (a : Z) (l : list Z) :
  a ≤ foldl Z.max a l ∧ Forall (λ x, x ≤ foldl Z.max a l) l ∧
  (foldl Z.max a l = a ∨ foldl Z.max a l ∈ l).
Proof.
  revert a. induction l as [|x l IH]; intros a; simpl.
  - split; [lia |]. split; [done | by left].
  - destruct (IH (Z.max a x)) as (Hle & Hall & Hin).
    split; [lia |]. split.
    + constructor; [lia | done].
    + destruct Hin as [Heq|Hin]; [| by right; right].
      destruct (Z.max_spec a x) as [[_ Hm]|[_ Hm]]; rewrite Hm in *.
      * right. rewrite Heq. left.
      * by left.
Qed.

Lemma examine_too_large g node elements :
  examine g node = SkipTooLarge elements → kMaxSize < elements.
Proof.
  unfold Pass.examine. repeat case_match; try discriminate.
  - intros [= <-]. by apply Z.ltb_lt.
  - intros H'. by apply LoopFacts.examine_devices_not_too_large in H'.
Qed.

Lemma skipped_sizes_large ids g :
  Forall (λ x, kMaxSize < x) (skipped_sizes ids g).
Proof.
  revert g. induction ids as [|node ids IH]; intros g; simpl; [done |].
  destruct (examine g node) eqn:Hex; try done.
  constructor; [by eapply examine_too_large | done].
Qed.

(** The loop folds [std::min] and [std::max] over the element counts of the
    constants it skips for their size; nothing else depends on the range. *)
Lemma run_nodes_range ids g mn mx :
  let r := run_nodes ids (mkLoopState g mn mx) in
  r.1 = (run_nodes ids (mkLoopState g INT64_MAX INT64_MIN)).1 ∧
  ls_graph r.2 = ls_graph (run_nodes ids (mkLoopState g INT64_MAX INT64_MIN)).2 ∧
  (r.1 = OkStatus →
   min_skipped r.2 = foldl Z.min mn (skipped_sizes ids g) ∧
   max_skipped r.2 = foldl Z.max mx (skipped_sizes ids g)).
Proof.
  revert g mn mx.
  assert (Hgen : ∀ ids g mn mx mn' mx',
            (run_nodes ids (mkLoopState g mn mx)).1 =
              (run_nodes ids (mkLoopState g mn' mx')).1 ∧
            ls_graph (run_nodes ids (mkLoopState g mn mx)).2 =
              ls_graph (run_nodes ids (mkLoopState g mn' mx')).2).
  { clear ids. induction ids as [|node ids IH]; intros g mn mx mn' mx'; simpl;
      [done |].
    destruct (examine g node); simpl; by try apply IH. }
  intros g mn mx r. subst r.
  split; [apply Hgen |]. split; [apply Hgen |].
  revert g mn mx. induction ids as [|node ids IH]; intros g mn mx; simpl;
    [done |].
  destruct (examine g node); simpl; try apply IH. discriminate.
Qed.

Lemma range_of_fold (sizes : list Z) :
  Forall (λ x, x < INT64_MAX) sizes → Forall (λ x, kMaxSize < x) sizes →
  (foldl Z.min INT64_MAX sizes = INT64_MAX ↔ sizes = []) ∧
  (sizes ≠ [] →
   foldl Z.min INT64_MAX sizes ∈ sizes ∧ foldl Z.max INT64_MIN sizes ∈ sizes ∧
   Forall (λ x, foldl Z.min INT64_MAX sizes ≤ x ≤ foldl Z.max INT64_MIN sizes)
     sizes).
Proof.
  intros Hall Hlarge.
  destruct (foldl_min_spec INT64_MAX sizes) as (Hmle & Hmall & Hmin).
  destruct (foldl_max_spec INT64_MIN sizes) as (Hxle & Hxall & Hmax).
  assert (Hne : sizes ≠ [] → foldl Z.min INT64_MAX sizes ≠ INT64_MAX).
  { intros Hs Heq. destruct sizes as [|x l]; [done |].
    apply Forall_cons in Hall as [Hx _], Hmall as [Hx' _]. lia. }
  split.
  - split; [| by intros ->].
    intros Heq. destruct sizes as [|x l]; [done |]. by destruct Hne.
  - intros Hs. split; [| split].
    + destruct Hmin as [Heq|]; [| done]. by destruct Hne.
    + destruct Hmax as [Heq|]; [| done].
      destruct sizes as [|x l]; [done |].
      apply Forall_cons in Hlarge as [Hl _], Hxall as [Hx' _].
      unfold INT64_MIN, kMaxSize in *. lia.
    + rewrite Forall_forall in Hmall, Hxall. apply Forall_forall.
      intros x Hx. split; [by apply Hmall | by apply Hxall].
Qed.

(** As long as no skipped constant has [INT64_MAX] elements, the trace line
    is written iff a constant was skipped for its size, and it reports the
    least and the greatest of the skipped element counts. *)
Lemma range_below_sentinel g :
  let sizes := skipped_sizes (nodes g) g in
  status (Run (Some g)) = OkStatus →
  Forall (λ x, x < INT64_MAX) sizes →
  (skipped_range (Run (Some g)) = None ↔ sizes = []) ∧
  (∀ mn mx,
     skipped_range (Run (Some g)) = Some (mn, mx) →
     mn ∈ sizes ∧ mx ∈ sizes ∧ Forall (λ x, mn ≤ x ≤ mx) sizes).
Proof.
  intros sizes Hst Hall.
  destruct (range_of_fold sizes Hall (skipped_sizes_large (nodes g) g))
    as [Hiff Hexact].
  unfold Pass.Run in *.
  destruct (run_nodes_range (nodes g) g INT64_MAX INT64_MIN)
    as (_ & _ & Hrange).
  destruct (run_nodes (nodes g) (mkLoopState g INT64_MAX INT64_MIN))
    as [[|e] s]; [| discriminate]. simpl in *.
  destruct (Hrange eq_refl) as [Hmin Hmax]. fold sizes in Hmin, Hmax.
  rewrite <- Hmin, <- Hmax in *.
  split.
  - case_bool_decide as Hd; split; try done.
    + intros Hs. by destruct Hd; apply Hiff.
    + intros _. by apply Hiff.
  - intros mn mx. case_bool_decide as Hd; [| done]. intros [= <- <-].
    apply Hexact. intros Hs. by apply Hd, Hiff.
Qed.

(** The range never steers the rewrite: whatever range the loop starts
    from, it ends with the same status and the same graph. *)
Lemma range_never_steers ids g mn mx mn' mx' :
  (run_nodes ids (mkLoopState g mn mx)).1 =
    (run_nodes ids (mkLoopState g mn' mx')).1 ∧
  ls_graph (run_nodes ids (mkLoopState g mn mx)).2 =
    ls_graph (run_nodes ids (mkLoopState g mn' mx')).2.
Proof.
  destruct (run_nodes_range ids g mn mx) as (-> & -> & _).
  destruct (run_nodes_range ids g mn' mx') as (-> & -> & _). done.
Qed.

End WithDeviceNames.

(** C8 at the sentinel: a constant of [INT64_MAX] elements is skipped for
    its size, yet [min_skipped] still equals the value that stands for
    "nothing skipped", so no range is reported. *)
Theorem sentinel_hides_skip :
  Example.examine (Example.g_sized [INT64_MAX]) 0 = SkipTooLarge INT64_MAX ∧
  Eligibility.skipped_sizes Example.ParseFullName
    Example.DeviceNameToCpuDeviceName
    (nodes (Example.g_sized [INT64_MAX])) (Example.g_sized [INT64_MAX]) =
    [INT64_MAX] ∧
  Example.run (Some (Example.g_sized [INT64_MAX])) =
    mkRunResult OkStatus (Some (Example.g_sized [INT64_MAX])) None.
Proof. repeat split; vm_compute; reflexivity. Qed.

End Diagnostics.

(** ** The grouping as a function of the outbound edges *)

Module GroupingSpec.

Import BTree BTreeFacts.

Section Groups.

Context {V : Type}.
Implicit Types m : btree_map (list V).

Lemma group_of_absent d m : d ∉ keys m → group_of d m = [].
Proof.
  unfold keys. induction m as [|[k v] m IH]; simpl; [done |].
  intros Hd. destruct (String.eqb_spec k d) as [->|Hne].
  - destruct Hd. left.
  - apply IH. intros Hin. apply Hd. by right.
Qed.

Lemma group_of_push_back d k x m :
  sorted m →
  group_of d (push_back k x m) =
    if decide (k = d) then group_of d m ++ [x] else group_of d m.
Proof.
  unfold sorted. induction m as [|[k' v'] m IH]; simpl; intros Hs.
  - destruct (String.eqb_spec k d), (decide (k = d)); done.
  - apply StronglySorted_inv in Hs as [Hs Hall].
    destruct (String.compare k k') eqn:Hc; simpl.
    + apply String.compare_eq_iff in Hc as ->.
      destruct (String.eqb_spec k' d), (decide (k' = d)); done.
    + destruct (String.eqb_spec k d) as [->|Hne], (decide _) as [Hd|Hd];
        try done.
      assert (Hk' : k' ≠ d).
      { intros ->. unfold key_lt in *. rewrite compare_refl in Hc. done. }
      destruct (String.eqb_spec k' d); [done |].
      rewrite group_of_absent; [done |].
      intros Hin. rewrite Forall_forall in Hall. apply Hall in Hin.
      eapply key_lt_irrefl, key_lt_trans; [exact Hc | exact Hin].
    + destruct (String.eqb_spec k' d) as [->|Hne].
      * destruct (decide (k = d)) as [->|]; [| done].
        by rewrite compare_refl in Hc.
      * by apply IH.
Qed.

(** A map without repeated keys is the list of its keys, each with its
    group. *)
Lemma map_of_groups m :
  NoDup (keys m) → m = (λ d, (d, group_of d m)) <$> keys m.
Proof.
  unfold keys. induction m as [|[k v] m IH]; simpl; intros Hnd; [done |].
  apply NoDup_cons in Hnd as [Hk Hnd]. rewrite String.eqb_refl. f_equal.
  rewrite IH at 1 by done. apply list_fmap_ext. intros i d Hd. f_equal.
  destruct (String.eqb_spec k d) as [->|]; [| done].
  destruct Hk. by eapply list_elem_of_lookup_2.
Qed.

End Groups.

Section WithDeviceNames.

Variable DeviceNameToCpuDeviceName : string → option string.

Local Abbreviation GetSuccessorEdges :=
  (Pass.GetSuccessorEdges DeviceNameToCpuDeviceName).
Local Abbreviation collect_edges :=
  (Pass.collect_edges DeviceNameToCpuDeviceName).
Local Abbreviation device_of := (Eligibility.device_of DeviceNameToCpuDeviceName).
Local Abbreviation resolves := (Eligibility.resolves DeviceNameToCpuDeviceName).

Lemma collect_edges_group g es m dte d :
  sorted m → collect_edges g es m = Ok dte →
  group_of d dte = group_of d m ++ filter (λ e, device_of g e = Ok d) es.
Proof.
  revert m. induction es as [|e es IH]; intros m Hs.
  - intros [= ->]. by rewrite app_nil_r.
  - rewrite Grouping.collect_edges_cons.
    destruct (device_of g e) as [k|] eqn:Hk; [| done].
    intros H. rewrite (IH _ (sorted_push_back _ _ _ Hs) H).
    rewrite group_of_push_back by done. rewrite filter_cons, Hk.
    destruct (decide (k = d)) as [->|Hne].
    + rewrite decide_True by done. by rewrite <- app_assoc.
    + rewrite decide_False by congruence. done.
Qed.

(** On success [GetSuccessorEdges] files every outbound edge under the CPU
    device its consumer resolves to: the keys are the devices that occur,
    in strictly increasing order, and the vector under a key lists the edges
    of that device in the order of [out_edges].  No group is empty and no
    edge is lost or repeated. *)
Theorem GetSuccessorEdges_groups g node dte :
  GetSuccessorEdges g node [] = Ok dte →
  StronglySorted key_lt (keys dte) ∧
  (∀ d, d ∈ keys dte ↔ ∃ e, e ∈ out_edges g node ∧ device_of g e = Ok d) ∧
  dte = (λ d, (d, filter (λ e, device_of g e = Ok d) (out_edges g node)))
          <$> keys dte ∧
  Forall (λ p, p.2 ≠ []) dte ∧
  concat (dte.*2) ≡ₚ out_edges g node ∧
  Forall (resolves g) (out_edges g node).
Proof.
  intros Hg. unfold Pass.GetSuccessorEdges in Hg.
  assert (Hs : sorted dte).
  { eapply Grouping.collect_edges_sorted; [exact Hg | constructor]. }
  split; [exact Hs |]. split; [| split; [| split; [| split]]].
  - intros d. rewrite (Grouping.collect_edges_keys _ _ _ _ _ Hg d). split.
    + intros [Hd|Hd]; [by apply elem_of_nil in Hd | done].
    + by right.
  - rewrite (map_of_groups dte) at 1 by by apply sorted_NoDup.
    apply list_fmap_ext. intros i d _. f_equal.
    by rewrite (collect_edges_group g _ [] dte d (SSorted_nil _) Hg).
  - eapply Grouping.collect_edges_nonempty; [exact Hg | constructor].
  - by apply Grouping.collect_edges_concat in Hg.
  - by eapply Resolver.collect_edges_ok_resolves.
Qed.

End WithDeviceNames.

Lemma GetSuccessorEdges_groups_witness :
  Pass.GetSuccessorEdges Example.DeviceNameToCpuDeviceName
    Example.g_scenario 0 [] = Ok Example.dte_scenario ∧
  Example.dte_scenario =
    (λ d, (d, filter (λ e, Eligibility.device_of
                             Example.DeviceNameToCpuDeviceName
                             Example.g_scenario e = Ok d)
                (out_edges Example.g_scenario 0)))
      <$> keys Example.dte_scenario.
Proof.
  assert (Hg : Pass.GetSuccessorEdges Example.DeviceNameToCpuDeviceName
                 Example.g_scenario 0 [] = Ok Example.dte_scenario)
    by (vm_compute; reflexivity).
  split; [exact Hg |].
  exact (proj1 (proj2 (proj2 (GetSuccessorEdges_groups
           Example.DeviceNameToCpuDeviceName Example.g_scenario 0%nat
           Example.dte_scenario Hg)))).
Defined.

End GroupingSpec.

(** ** Where the replicas sit *)

Module Colocation.

Import BTree.

Lemma filter_src_redirected (copy k : nat) (dte : btree_map (list Edge)) pair :
  dte !! k = Some pair →
  filter (λ x, src x = (copy + k)%nat) (redirected copy dte) =
  redirect (copy + k) <$> pair.2.
Proof.
  revert copy k. induction dte as [|p rest IH]; intros copy k Hk; [done |].
  simpl. rewrite filter_app. destruct k as [|k]; simpl in Hk.
  - injection Hk as ->. rewrite Nat.add_0_r.
    rewrite (Stability.filter_none _ (redirected _ _)).
    + rewrite app_nil_r. apply Stability.filter_all. intros x Hx.
      by apply list_elem_of_fmap in Hx as (e & -> & _).
    + intros x Hx. clear -Hx. revert Hx. generalize (Nat.le_refl (S copy)).
      generalize (S copy) at 2 3. intros c Hc. revert c Hc.
      induction rest as [|p rest IH]; intros c Hc Hx; simpl in Hx.
      * by apply elem_of_nil in Hx.
      * apply elem_of_app in Hx as [Hx|Hx].
        -- apply list_elem_of_fmap in Hx as (e & -> & _). simpl. lia.
        -- apply (IH (S c)); [lia | done].
  - rewrite Stability.filter_none.
    + simpl. replace (copy + S k)%nat with (S copy + k)%nat by lia.
      by apply IH.
    + intros x Hx. apply list_elem_of_fmap in Hx as (e & -> & _). simpl. lia.
Qed.

Section WithDeviceNames.

Variable ParseFullName : string → option string.
Variable DeviceNameToCpuDeviceName : string → option string.

Local Abbreviation examine := (Pass.examine ParseFullName DeviceNameToCpuDeviceName).
Local Abbreviation device_of := (Eligibility.device_of DeviceNameToCpuDeviceName).

(** Every replica is placed on the CPU device its data consumers resolve
    to: after the rewrite of a constant, a data edge that leaves the replica
    made for device [d] ends at a node whose CPU device is [d], and [d] is
    the replica's assigned device.  If the constant did not feed itself, the
    outbound edges of the replica are the edges of its group, in order,
    with the replica as their source. *)
Theorem replicas_colocated g node n dte k pair :
  wf_graph g →
  examine g node = Replicate n dte →
  dte !! k = Some pair →
  let g' := Pass.ReplicateToEachDevice g node n dte in
  let r := (num_node_ids g + k)%nat in
  FindNodeId g' r ≫= assigned_device_name = Some pair.1 ∧
  Forall (λ x, IsControlEdge x = false → device_of g' x = Ok pair.1)
    (out_edges g' r) ∧
  (node ∉ in_nodes g node → out_edges g' r = redirect r <$> pair.2).
Proof.
  intros Hwf Hex Hk g' r. subst g' r.
  pose proof (Stability.rewritten_node_lt _ _ _ _ _ _ Hex) as Hlt.
  split; [| split].
  - by rewrite (Stability.FindNodeId_rewritten_replica _ _ _ _ _ _ Hex _ _ Hk).
  - apply Forall_forall. intros x Hx Hdata.
    apply list_elem_of_filter in Hx as [Hs Hx].
    apply (Stability.elem_of_edges_rewritten _ _ _ _ _ _ Hex)
      in Hx as [[_ Hd] [Hx|Hx]].
    { apply (Stability.edge_in_range g Hwf) in Hx. lia. }
    apply RewriteFacts.elem_of_new_edges in Hx
      as [(k' & pair' & e & Hk' & He & ->)|(k' & p & _ & -> & _)];
      [| discriminate].
    simpl in Hs, Hd. assert (k' = k) as -> by lia.
    assert (pair' = pair) as -> by congruence.
    destruct (Stability.group_edge _ _ _ _ _ _ Hex _ _ _ Hk He)
      as (Hin & _ & Hdev).
    unfold Eligibility.device_of in *. simpl.
    rewrite (Stability.FindNodeId_rewritten_old _ _ _ _ _ _ Hex);
      [done | by apply (Stability.edge_in_range g Hwf) | done].
  - intros Hself. unfold out_edges.
    assert (Heq : filter (λ e, src e = (num_node_ids g + k)%nat)
                    (edges_ (Pass.ReplicateToEachDevice g node n dte)) =
                  filter (λ e, src e = (num_node_ids g + k)%nat)
                    (filter (λ x, (num_node_ids g ≤ src x)%nat)
                       (edges_ (Pass.ReplicateToEachDevice g node n dte)))).
    { rewrite list_filter_filter. apply Stability.filter_ext_in.
      intros x _. split; [| tauto]. intros Hx. split; [done | lia]. }
    rewrite Heq, (FanOut.from_replicas _ _ _ _ _ _ Hwf Hex Hself).
    by apply filter_src_redirected.
Qed.

End WithDeviceNames.

Lemma replicas_colocated_witness :
  wf_graph Example.g_scenario ∧
  Example.examine Example.g_scenario 0 =
    Replicate Example.c_scenario Example.dte_scenario ∧
  FindNodeId (Pass.ReplicateToEachDevice Example.g_scenario 0
                Example.c_scenario Example.dte_scenario) 5
    ≫= assigned_device_name = Some "a/CPU:0"%string.
Proof.
  assert (Hwf : wf_graph Example.g_scenario)
    by (apply (bool_decide_unpack _); vm_compute; exact I).
  assert (Hex : Example.examine Example.g_scenario 0 =
                Replicate Example.c_scenario Example.dte_scenario)
    by (vm_compute; reflexivity).
  split; [exact Hwf |]. split; [exact Hex |].
  exact (proj1 (replicas_colocated Example.ParseFullName
           Example.DeviceNameToCpuDeviceName Example.g_scenario 0%nat
           Example.c_scenario Example.dte_scenario 0%nat
           ("a/CPU:0"%string, [Example.data 0 1 0; Example.data 0 3 1])
           Hwf Hex eq_refl)).
Defined.

End Colocation.

(** ** What a run leaves behind *)

Module Postconditions.

Section WithDeviceNames.

Variable ParseFullName : string → option string.
Variable DeviceNameToCpuDeviceName : string → option string.

Local Abbreviation examine := (Pass.examine ParseFullName DeviceNameToCpuDeviceName).
Local Abbreviation run_nodes :=
  (Pass.run_nodes ParseFullName DeviceNameToCpuDeviceName).
Local Abbreviation Run := (Pass.Run ParseFullName DeviceNameToCpuDeviceName).
Local Abbreviation settled :=
  (Eligibility.settled ParseFullName DeviceNameToCpuDeviceName).
Local Abbreviation qualified := (GroupView.qualified ParseFullName).

(** Whatever the outcome, the graph a run leaves has every edge attached to
    nodes that are present: no edge refers to a removed constant. *)
Theorem Run_keeps_edges_attached g g' :
  wf_graph g → graph (Run (Some g)) = Some g' → wf_graph g'.
Proof.
  intros Hwf Hg'.
  destruct (Stability.Run_unfold ParseFullName DeviceNameToCpuDeviceName g)
    as [Hgraph _].
  rewrite Hgraph in Hg'. injection Hg' as <-.
  destruct (run_nodes (nodes g) (initial g)) as [st s1] eqn:Hrun.
  by destruct (Stability.run_nodes_settles _ _ (nodes g) (initial g) st s1 Hwf
                 (Stability.nodes_lt g) Hrun) as (Hwf1 & _).
Qed.

(** After a successful run no node qualifies any more: the tests of the
    loop body pass over every node of the resulting graph, old or new. *)
Theorem Run_leaves_nothing_to_replicate g g' :
  wf_graph g →
  status (Run (Some g)) = OkStatus →
  graph (Run (Some g)) = Some g' →
  ∀ i, settled g' i.
Proof.
  intros Hwf Hst Hg' i.
  destruct (Stability.Run_unfold ParseFullName DeviceNameToCpuDeviceName g)
    as [Hgraph Hstatus].
  rewrite Hg' in Hgraph. rewrite Hst in Hstatus.
  destruct (run_nodes (nodes g) (initial g)) as [st s1] eqn:Hrun.
  simpl in Hgraph, Hstatus. injection Hgraph as ->. subst st.
  destruct (Stability.run_nodes_settles _ _ (nodes g) (initial g) _ s1 Hwf
              (Stability.nodes_lt g) Hrun) as (_ & Hle & _ & Hnew & Hall).
  simpl in Hle, Hnew.
  destruct (decide (i < num_node_ids g)%nat) as [Hi|Hi].
  - rewrite Forall_forall in Hall. apply Hall. unfold nodes.
    apply elem_of_seq. lia.
  - destruct (decide (i < num_node_ids (ls_graph s1))%nat) as [Hi'|Hi'].
    + apply Hnew. lia.
    + unfold Eligibility.settled, Pass.examine, FindNodeId.
      rewrite lookup_ge_None_2; [done |]. unfold num_node_ids in Hi'. lia.
Qed.

Lemma run_nodes_fate ids s st s' i n :
  run_nodes ids s = (st, s') →
  FindNodeId (ls_graph s) i = Some n →
  FindNodeId (ls_graph s') i = Some n ∨
  (FindNodeId (ls_graph s') i = None ∧ qualified n).
Proof.
  revert s. induction ids as [|node ids IH]; intros s Hrun Hn; simpl in Hrun.
  - injection Hrun as <- <-. by left.
  - destruct (examine (ls_graph s) node) as [why|elements|n0 dte|e] eqn:Hex.
    + by apply (IH _ Hrun).
    + by apply (IH _ Hrun).
    + pose proof (Stability.FindNodeId_lt _ _ _ Hn) as Hi.
      destruct (decide (i = node)) as [->|Hne].
      * right.
        pose proof (Stability.FindNodeId_rewritten_node _ _ _ _ _ _ Hex)
          as Hnone.
        split.
        -- rewrite (NoRollback.run_nodes_keeps _ _ _ _ _ _ node Hrun); simpl.
           ++ done.
           ++ rewrite (Stability.num_node_ids_rewritten _ _ _ _ _ _ Hex). lia.
           ++ by left.
        -- apply Stability.examine_Replicate_inv in Hex
             as ([[Hn0 Hc _ _] (value & shape & Hv & Hb & Hle) Hd Hcpu] & _).
           assert (n0 = n) as -> by congruence.
           repeat split; try done. exists shape.
           unfold value_shape, GetNodeAttr_value. by rewrite Hv.
      * apply (IH _ Hrun). simpl.
        by rewrite (Stability.FindNodeId_rewritten_old _ _ _ _ _ _ Hex).
    + injection Hrun as <- <-. by left.
Qed.

(** A run never alters the record of a node and never brings back a removed
    id; the only nodes it removes are constants with an assigned CPU device
    and a well-formed shape of at most 16 elements.  In particular every
    node that is not a constant is still there, as it was. *)
Theorem Run_removes_only_qualified_constants g g' :
  graph (Run (Some g)) = Some g' →
  (num_node_ids g ≤ num_node_ids g')%nat ∧
  (∀ i n, FindNodeId g i = Some n →
          FindNodeId g' i = Some n ∨ (FindNodeId g' i = None ∧ qualified n)) ∧
  (∀ i n, FindNodeId g i = Some n → IsConstant n = false →
          FindNodeId g' i = Some n) ∧
  (∀ i, (i < num_node_ids g)%nat → FindNodeId g i = None →
        FindNodeId g' i = None).
Proof.
  intros Hg'.
  destruct (Stability.Run_unfold ParseFullName DeviceNameToCpuDeviceName g)
    as [Hgraph _].
  rewrite Hgraph in Hg'. injection Hg' as <-.
  destruct (run_nodes (nodes g) (initial g)) as [st s1] eqn:Hrun. simpl.
  split; [| split; [| split]].
  - by apply NoRollback.run_nodes_grows in Hrun.
  - intros i n Hn. by apply (run_nodes_fate _ _ _ _ _ _ Hrun).
  - intros i n Hn Hc.
    destruct (run_nodes_fate _ _ _ _ i n Hrun Hn) as [|[_ [Hc' _]]]; [done |].
    congruence.
  - intros i Hi Hnone.
    rewrite (NoRollback.run_nodes_keeps _ _ _ _ _ _ i Hrun); [done | done |].
    by left.
Qed.

Lemma name_counter_rewritten g node n dte :
  examine g node = Replicate n dte →
  name_counter_ (Pass.ReplicateToEachDevice g node n dte) =
    (name_counter_ g + N.of_nat (length dte))%N.
Proof. intros Hex. by rewrite (Stability.rewritten_eq _ _ _ _ _ _ Hex). Qed.

Lemma run_nodes_new ids s st s' N0 :
  Forall (λ i, (i < N0)%nat) ids →
  (N0 ≤ num_node_ids (ls_graph s))%nat →
  run_nodes ids s = (st, s') →
  name_counter_ (ls_graph s') =
    (name_counter_ (ls_graph s) +
     N.of_nat (num_node_ids (ls_graph s') - num_node_ids (ls_graph s)))%N ∧
  ∀ r, (num_node_ids (ls_graph s) ≤ r < num_node_ids (ls_graph s'))%nat →
       ∃ orig d,
         FindNodeId (ls_graph s') r =
           Some (replica orig
                   (name_counter_ (ls_graph s) +
                    N.of_nat (r - num_node_ids (ls_graph s)))%N d) ∧
         qualified orig.
Proof.
  intros Hids. revert s.
  induction ids as [|node ids IH]; intros s HN Hrun; simpl in Hrun.
  - injection Hrun as <- <-. split; [| intros r Hr; lia].
    rewrite Nat.sub_diag. simpl. lia.
  - apply Forall_cons in Hids as [Hnode Hids].
    destruct (examine (ls_graph s) node) as [why|elements|n dte|e] eqn:Hex.
    + by apply (IH Hids _ HN Hrun).
    + by apply (IH Hids (mkLoopState (ls_graph s) _ _) HN Hrun).
    + pose proof (Stability.num_node_ids_rewritten _ _ _ _ _ _ Hex) as Hlen.
      pose proof (NoRollback.run_nodes_grows _ _ _ _ _ _ Hrun) as Hgrow.
      simpl in Hgrow.
      assert (HN1 : (N0 ≤ num_node_ids
                (Pass.ReplicateToEachDevice (ls_graph s) node n dte))%nat)
        by lia.
      destruct (IH Hids (mkLoopState _ _ _) HN1 Hrun) as [Hctr Hnew].
      cbn [ls_graph] in Hctr, Hnew.
      pose proof (name_counter_rewritten _ _ _ _ Hex) as Hc1.
      split; [lia |].
      intros r Hr.
      destruct (decide (r < num_node_ids
                  (Pass.ReplicateToEachDevice (ls_graph s) node n dte))%nat)
        as [Hold|Hold].
      * destruct (lookup_lt_is_Some_2 dte (r - num_node_ids (ls_graph s)))
          as [pair Hp]; [lia |].
        pose proof (Stability.FindNodeId_rewritten_replica _ _ _ _ _ _ Hex
                      _ _ Hp) as Hrep.
        replace (num_node_ids (ls_graph s) + (r - num_node_ids (ls_graph s)))%nat
          with r in Hrep by lia.
        exists n, pair.1.
        split.
        -- rewrite (NoRollback.run_nodes_keeps _ _ _ _ _ _ r Hrun); simpl;
             [done | done |].
           right. intros Hin. rewrite Forall_forall in Hids.
           apply Hids in Hin. lia.
        -- apply Stability.examine_Replicate_inv in Hex
             as ([[Hn0 Hc _ _] (value & shape & Hv & Hb & Hle) Hd Hcpu] & _).
           repeat split; try done. exists shape.
           unfold value_shape, GetNodeAttr_value. by rewrite Hv.
      * destruct (Hnew r ltac:(lia)) as (orig & d & Hr' & Hq).
        exists orig, d. split; [| done]. rewrite Hr'. do 2 f_equal. lia.
    + injection Hrun as <- <-. split; [| intros r Hr; lia].
      rewrite Nat.sub_diag. simpl. lia.
Qed.

(** Every node a run adds is the replica of a qualified constant: a
    constant with the same value, placed on some device and named
    <original-name>/replicate/_<c>, where [c] is the value the name counter
    had at the start of the run plus the number of nodes added before this
    one.  The counter advances by one per node added, and the new nodes are
    all present when the run ends. *)
Theorem Run_adds_only_replicas g g' :
  graph (Run (Some g)) = Some g' →
  name_counter_ g' =
    (name_counter_ g + N.of_nat (num_node_ids g' - num_node_ids g))%N ∧
  ∀ r, (num_node_ids g ≤ r < num_node_ids g')%nat →
       ∃ orig d,
         FindNodeId g' r =
           Some (replica orig
                   (name_counter_ g + N.of_nat (r - num_node_ids g))%N d) ∧
         qualified orig.
Proof.
  intros Hg'.
  destruct (Stability.Run_unfold ParseFullName DeviceNameToCpuDeviceName g)
    as [Hgraph _].
  rewrite Hgraph in Hg'. injection Hg' as <-.
  destruct (run_nodes (nodes g) (initial g)) as [st s1] eqn:Hrun. simpl.
  by apply (run_nodes_new (nodes g) (initial g) st s1 (num_node_ids g)
              (Stability.nodes_lt g) (Nat.le_refl _) Hrun).
Qed.

Lemma unique_index_digits d :
  unique_index (NilZero.string_of_uint d) = None.
Proof.
  assert (H : unique_index (NilEmpty.string_of_uint d) = None).
  { induction d as [|d IH|d IH|d IH|d IH|d IH|d IH|d IH|d IH|d IH|d IH];
      [reflexivity | ..];
      cbn [NilEmpty.string_of_uint unique_index]; rewrite IH; reflexivity. }
  destruct d; [reflexivity | exact H ..].
Qed.

Lemma unique_index_append prefix c digits :
  unique_index digits = None →
  unique_index (prefix +:+ String c (String "_" digits)) = Some digits.
Proof.
  intros Hd. induction prefix as [|a prefix IH]; simpl.
  - by rewrite Hd.
  - by rewrite IH.
Qed.

Lemma unique_index_replica orig c d :
  unique_index (name (replica orig c d)) = Some (decimal c).
Proof. apply unique_index_append, unique_index_digits. Qed.

Lemma decimal_inj c1 c2 : decimal c1 = decimal c2 → c1 = c2.
Proof.
  intros Heq. apply DecimalN.Unsigned.to_uint_inj.
  assert (Hnn : ∀ c, N.to_uint c ≠ Decimal.Nil).
  { intros [|p]; [done |]. apply DecimalPos.Unsigned.to_uint_nonnil. }
  pose proof (NilZero.usu _ (Hnn c1)) as H1.
  pose proof (NilZero.usu _ (Hnn c2)) as H2.
  unfold decimal in Heq. rewrite Heq in H1. congruence.
Qed.

(** The nodes a run adds carry pairwise different names, whatever the names
    of the constants they replicate: the name of each ends in the decimal
    form of its own counter value, after the last underscore. *)
Theorem Run_new_names_distinct g g' r1 r2 n1 n2 :
  graph (Run (Some g)) = Some g' →
  (num_node_ids g ≤ r1)%nat → (num_node_ids g ≤ r2)%nat →
  FindNodeId g' r1 = Some n1 → FindNodeId g' r2 = Some n2 →
  r1 ≠ r2 →
  name n1 ≠ name n2 ∧
  unique_index (name n1) =
    Some (decimal (name_counter_ g + N.of_nat (r1 - num_node_ids g))).
Proof.
  intros Hg' Hr1 Hr2 Hn1 Hn2 Hne.
  destruct (Stability.Run_unfold ParseFullName DeviceNameToCpuDeviceName g)
    as [Hgraph _].
  rewrite Hgraph in Hg'. injection Hg' as <-.
  destruct (run_nodes (nodes g) (initial g)) as [st s1] eqn:Hrun.
  cbn [snd] in *.
  destruct (run_nodes_new (nodes g) (initial g) st s1 (num_node_ids g)
              (Stability.nodes_lt g) (Nat.le_refl _) Hrun) as [_ Hnew].
  cbn [ls_graph initial] in Hnew.
  pose proof (Stability.FindNodeId_lt _ _ _ Hn1) as Hlt1.
  pose proof (Stability.FindNodeId_lt _ _ _ Hn2) as Hlt2.
  destruct (Hnew r1 ltac:(lia)) as (o1 & d1 & Hf1 & _).
  destruct (Hnew r2 ltac:(lia)) as (o2 & d2 & Hf2 & _).
  rewrite Hn1 in Hf1. rewrite Hn2 in Hf2.
  injection Hf1 as ->. injection Hf2 as ->.
  split; [| apply unique_index_replica].
  intros Heq. apply (f_equal unique_index) in Heq.
  rewrite !unique_index_replica in Heq. injection Heq as Heq.
  apply decimal_inj in Heq. lia.
Qed.

End WithDeviceNames.

Local Ltac concrete :=
  first [ reflexivity | vm_compute; reflexivity | vm_compute; lia
        | vm_compute; discriminate
        | apply (bool_decide_unpack _); vm_compute; exact I ].

Lemma Run_keeps_edges_attached_witness :
  wf_graph Example.g_scenario ∧
  ∃ g', graph (Example.run (Some Example.g_scenario)) = Some g' ∧ wf_graph g'.
Proof.
  assert (Hwf : wf_graph Example.g_scenario) by concrete.
  split; [exact Hwf |]. eexists. split; [vm_compute; reflexivity |].
  refine (Run_keeps_edges_attached Example.ParseFullName
            Example.DeviceNameToCpuDeviceName Example.g_scenario _ Hwf _).
  vm_compute. reflexivity.
Defined.

Lemma Run_leaves_nothing_to_replicate_witness :
  wf_graph Example.g_scenario ∧
  status (Example.run (Some Example.g_scenario)) = OkStatus ∧
  ∃ g', graph (Example.run (Some Example.g_scenario)) = Some g' ∧
        Eligibility.settled Example.ParseFullName
          Example.DeviceNameToCpuDeviceName g' 5.
Proof.
  assert (Hwf : wf_graph Example.g_scenario) by concrete.
  assert (Hst : status (Example.run (Some Example.g_scenario)) = OkStatus)
    by concrete.
  split; [exact Hwf |]. split; [exact Hst |].
  eexists. split; [vm_compute; reflexivity |].
  refine (Run_leaves_nothing_to_replicate Example.ParseFullName
            Example.DeviceNameToCpuDeviceName Example.g_scenario _ Hwf Hst _
            5%nat).
  vm_compute. reflexivity.
Defined.

Lemma Run_removes_only_qualified_constants_witness :
  ∃ g', graph (Example.run (Some Example.g_scenario)) = Some g' ∧
        FindNodeId g' 1 =
          Some (mkNode "x" false (Some "a/GPU:0"%string) None).
Proof.
  eexists. split; [vm_compute; reflexivity |].
  refine (proj1 (proj2 (proj2 (Run_removes_only_qualified_constants
            Example.ParseFullName Example.DeviceNameToCpuDeviceName
            Example.g_scenario _ _))) 1%nat _ _ _); concrete.
Defined.

Lemma Run_adds_only_replicas_witness :
  ∃ g', graph (Example.run (Some Example.g_scenario)) = Some g' ∧
        name_counter_ g' =
          (name_counter_ Example.g_scenario +
           N.of_nat (num_node_ids g' - num_node_ids Example.g_scenario))%N.
Proof.
  eexists. split; [vm_compute; reflexivity |].
  refine (proj1 (Run_adds_only_replicas Example.ParseFullName
            Example.DeviceNameToCpuDeviceName Example.g_scenario _ _)).
  vm_compute. reflexivity.
Defined.

Lemma Run_new_names_distinct_witness :
  ∃ g' n1 n2,
    graph (Example.run (Some Example.g_scenario)) = Some g' ∧
    FindNodeId g' 5 = Some n1 ∧ FindNodeId g' 6 = Some n2 ∧
    name n1 ≠ name n2.
Proof.
  eexists. eexists. eexists.
  split; [vm_compute; reflexivity |].
  split; [vm_compute; reflexivity |]. split; [vm_compute; reflexivity |].
  refine (proj1 (Run_new_names_distinct Example.ParseFullName
            Example.DeviceNameToCpuDeviceName Example.g_scenario _ 5%nat 6%nat
            _ _ _ _ _ _ _ _)); concrete.
Defined.

End Postconditions.

(** ** When the loop body moves on without a rewrite *)

Module SkipRules.

Section WithDeviceNames.

Variable ParseFullName : string → option string.
Variable DeviceNameToCpuDeviceName : string → option string.

Local Abbreviation examine := (Pass.examine ParseFullName DeviceNameToCpuDeviceName).
Local Abbreviation run_nodes :=
  (Pass.run_nodes ParseFullName DeviceNameToCpuDeviceName).
Local Abbreviation Run := (Pass.Run ParseFullName DeviceNameToCpuDeviceName).
Local Abbreviation GetSuccessorEdges :=
  (Pass.GetSuccessorEdges DeviceNameToCpuDeviceName).
Local Abbreviation device_of := (Eligibility.device_of DeviceNameToCpuDeviceName).
Local Abbreviation HasCpuDevice := (Pass.HasCpuDevice ParseFullName).
Local Abbreviation reaches_grouping :=
  (Eligibility.reaches_grouping ParseFullName).

Lemma run_nodes_all_skipped ids s :
  Forall (λ i, ∃ why, examine (ls_graph s) i = Skip why) ids →
  run_nodes ids s = (OkStatus, s).
Proof.
  induction ids as [|i ids IH]; intros Hall; [done |].
  apply Forall_cons in Hall as [[why Hi] Hall]. simpl. rewrite Hi. by apply IH.
Qed.

(** The first three tests come before anything that can fail: when every
    node is not a constant, has at most one outbound edge or has an outbound
    control edge, a run succeeds, leaves the graph as it is and reports no
    range, whatever the value attributes and the assigned devices are. *)
Theorem Run_noop_without_candidates g :
  (∀ i n, FindNodeId g i = Some n →
          IsConstant n = false ∨ (length (out_edges g i) ≤ 1)%nat ∨
          Pass.HasControlOut g i = true) →
  Run (Some g) = mkRunResult OkStatus (Some g) None.
Proof.
  intros Hall. unfold Pass.Run.
  rewrite run_nodes_all_skipped; [done |].
  apply Forall_forall. intros i _. simpl. unfold Pass.examine.
  destruct (FindNodeId g i) as [n|] eqn:Hn; [| by eexists].
  destruct (Hall i n Hn) as [Hc|[Hlen|Hctl]].
  - rewrite Hc. by eexists.
  - destruct (negb _); [by eexists |].
    destruct (Nat.leb_spec (length (out_edges g i)) 1); [by eexists | lia].
  - destruct (negb _); [by eexists |].
    destruct (_ <=? _)%nat; [by eexists |]. rewrite Hctl. by eexists.
Qed.

(** The constant's own device is tested before its consumers are looked
    at: a small constant without an assigned device, or whose assigned
    device name does not parse or is not of type CPU, is passed over, and
    the loop moves on with the same state even when the grouping of its
    consumers would fail. *)
Theorem own_device_decides_first g node n shape :
  reaches_size_test g node n →
  value_shape n = Ok shape →
  num_elements shape ≤ kMaxSize →
  (assigned_device_name n = None → examine g node = Skip NoAssignedDevice) ∧
  (∀ a, assigned_device_name n = Some a → ParseFullName a = None →
        examine g node = Skip NotOnCpu) ∧
  (∀ a type, assigned_device_name n = Some a →
             ParseFullName a = Some type → type ≠ "CPU"%string →
             examine g node = Skip NotOnCpu) ∧
  (has_assigned_device_name n = false ∨ HasCpuDevice n = false →
   ∀ rest s, ls_graph s = g → run_nodes (node :: rest) s = run_nodes rest s).
Proof.
  intros Hr Hs Hle.
  pose proof (LoopFacts.examine_at_size_test ParseFullName
                DeviceNameToCpuDeviceName g node n Hr) as Hex.
  unfold value_shape in Hs.
  destruct (GetNodeAttr_value n) as [value|]; [| discriminate].
  rewrite Hs in Hex.
  destruct (Z.ltb_spec kMaxSize (num_elements shape)); [lia |].
  unfold Pass.examine_devices in Hex.
  split; [| split; [| split]].
  - intros Ha. rewrite Hex. unfold has_assigned_device_name. by rewrite Ha.
  - intros a Ha HP. rewrite Hex.
    unfold has_assigned_device_name, Pass.HasCpuDevice. rewrite Ha. simpl.
    by rewrite HP.
  - intros a type Ha HP Hty. rewrite Hex.
    unfold has_assigned_device_name, Pass.HasCpuDevice. rewrite Ha. simpl.
    rewrite HP. by rewrite bool_decide_eq_false_2.
  - intros Hcase rest s <-. simpl. rewrite Hex.
    destruct (has_assigned_device_name n); simpl; [| done].
    destruct Hcase as [|Hcpu]; [done |]. by rewrite Hcpu.
Qed.

(** A constant whose consumers all resolve to one CPU device is left where
    it is. *)
Theorem same_device_skips g node n d :
  reaches_grouping g node n →
  Forall (λ e, device_of g e = Ok d) (out_edges g node) →
  examine g node = Skip SameDevice ∧
  ∃ edges, GetSuccessorEdges g node [] = Ok [(d, edges)].
Proof.
  intros Hr Hall.
  rewrite (LoopFacts.examine_at_grouping _ _ _ _ _ Hr).
  destruct (Stability.collect_edges_total DeviceNameToCpuDeviceName g
              (out_edges g node) []) as [dte Hdte].
  { eapply Forall_impl; [exact Hall |]. intros e He. by exists d. }
  unfold Pass.GetSuccessorEdges. rewrite Hdte.
  pose proof (Grouping.collect_edges_one_device _ _ _ _ _ Hdte Hall) as Hlen.
  destruct (Nat.leb_spec (length dte) 1) as [_|]; [| lia].
  split; [done |].
  destruct Hr as [[_ _ Hfan _] _ _ _].
  destruct (out_edges g node) as [|e es] eqn:Hout; [simpl in Hfan; lia |].
  assert (Hk : d ∈ BTree.keys dte).
  { apply (Grouping.collect_edges_keys _ _ _ _ _ Hdte). right.
    exists e. split; [left |]. by apply Forall_cons in Hall as [? _]. }
  destruct dte as [|[k v] [|? ?]]; simpl in Hlen; [| | lia].
  - by apply elem_of_nil in Hk.
  - apply list_elem_of_singleton in Hk. simpl in Hk. subst k. by exists v.
Qed.

End WithDeviceNames.

Local Ltac concrete :=
  first [ reflexivity | vm_compute; reflexivity | vm_compute; lia
        | vm_compute; discriminate
        | apply (bool_decide_unpack _); vm_compute; exact I ].

Lemma Run_noop_without_candidates_witness :
  Example.run (Some Example.g_quiet) =
    mkRunResult OkStatus (Some Example.g_quiet) None.
Proof.
  apply (Run_noop_without_candidates Example.ParseFullName
           Example.DeviceNameToCpuDeviceName Example.g_quiet).
  intros i n Hn.
  destruct i as [|[|[|[|i]]]]; vm_compute in Hn; try discriminate;
    injection Hn as <-.
  - right; left. vm_compute. lia.
  - left. reflexivity.
  - right; right. reflexivity.
  - left. reflexivity.
Defined.

Lemma own_device_decides_first_witness :
  reaches_size_test Example.g_gpu_const 0
    (mkNode "G" true (Some "a/GPU:0"%string) (Some [2])) ∧
  Example.examine Example.g_gpu_const 0 = Skip NotOnCpu ∧
  Pass.GetSuccessorEdges Example.DeviceNameToCpuDeviceName
    Example.g_gpu_const 0 [] = Err NoAssignedDeviceError.
Proof.
  assert (Hr : reaches_size_test Example.g_gpu_const 0
                 (mkNode "G" true (Some "a/GPU:0"%string) (Some [2])))
    by (split; concrete).
  split; [exact Hr |]. split; [| concrete].
  refine (proj1 (proj2 (proj2 (own_device_decides_first Example.ParseFullName
            Example.DeviceNameToCpuDeviceName Example.g_gpu_const 0%nat _
            (mkTensorShape [2] 2) Hr _ _)))
          "a/GPU:0"%string "GPU"%string _ _ _); concrete.
Defined.

Lemma same_device_skips_witness :
  Eligibility.reaches_grouping Example.ParseFullName Example.g_same_host 0
    (mkNode "S" true (Some "a/CPU:0"%string) (Some [2])) ∧
  Example.examine Example.g_same_host 0 = Skip SameDevice.
Proof.
  assert (Hr : Eligibility.reaches_grouping Example.ParseFullName
                 Example.g_same_host 0
                 (mkNode "S" true (Some "a/CPU:0"%string) (Some [2]))).
  { split; [split; concrete | | concrete | concrete].
    exists [2], (mkTensorShape [2] 2). repeat split; concrete. }
  split; [exact Hr |].
  refine (proj1 (same_device_skips Example.ParseFullName
            Example.DeviceNameToCpuDeviceName Example.g_same_host 0%nat _
            "a/CPU:0"%string Hr _)).
  repeat constructor.
Defined.

End SkipRules.

(** ** What a reported range says *)

Module Range.

Section WithDeviceNames.

Variable ParseFullName : string → option string.
Variable DeviceNameToCpuDeviceName : string → option string.

Local Abbreviation run_nodes :=
  (Pass.run_nodes ParseFullName DeviceNameToCpuDeviceName).
Local Abbreviation Run := (Pass.Run ParseFullName DeviceNameToCpuDeviceName).
Local Abbreviation skipped_sizes :=
  (Eligibility.skipped_sizes ParseFullName DeviceNameToCpuDeviceName).

(** A range is only reported by a run that succeeds, and then it is exact:
    both ends are element counts of constants skipped for their size, every
    skipped count lies between them, and the lower end exceeds the
    threshold.  In particular no range is reported when no constant was
    skipped for its size. *)
Theorem reported_range_is_exact g mn mx :
  skipped_range (Run (Some g)) = Some (mn, mx) →
  let sizes := skipped_sizes (nodes g) g in
  status (Run (Some g)) = OkStatus ∧
  mn ∈ sizes ∧ mx ∈ sizes ∧ Forall (λ x, mn ≤ x ≤ mx) sizes ∧
  kMaxSize < mn ∧ mn ≤ mx.
Proof.
  intros Hrange sizes. unfold Pass.Run in *.
  destruct (Diagnostics.run_nodes_range ParseFullName DeviceNameToCpuDeviceName
              (nodes g) g INT64_MAX INT64_MIN) as (_ & _ & Hfold).
  destruct (run_nodes (nodes g) (mkLoopState g INT64_MAX INT64_MIN))
    as [[|e] s]; [| discriminate]. simpl in *.
  destruct (Hfold eq_refl) as [Hmin Hmax]. fold sizes in Hmin, Hmax.
  case_bool_decide as Hd; [| discriminate]. injection Hrange as <- <-.
  pose proof (Diagnostics.skipped_sizes_large ParseFullName
                DeviceNameToCpuDeviceName (nodes g) g) as Hlarge.
  fold sizes in Hlarge.
  destruct (Diagnostics.foldl_min_spec INT64_MAX sizes) as (_ & Hmall & Hmin').
  destruct (Diagnostics.foldl_max_spec INT64_MIN sizes) as (_ & Hxall & Hmax').
  rewrite <- Hmin in *. rewrite <- Hmax in *.
  assert (Hmn : min_skipped s ∈ sizes) by (by destruct Hmin').
  assert (Hmx : max_skipped s ∈ sizes).
  { destruct Hmax' as [Heq|]; [| done].
    rewrite Forall_forall in Hxall, Hlarge.
    specialize (Hxall _ Hmn). specialize (Hlarge _ Hmn).
    unfold INT64_MIN, kMaxSize in *. lia. }
  rewrite Forall_forall in Hmall, Hxall, Hlarge.
  split; [done |]. split; [done |]. split; [done |]. split; [| split].
  - apply Forall_forall. intros x Hx. split; [by apply Hmall | by apply Hxall].
  - by apply Hlarge.
  - by apply Hxall.
Qed.

End WithDeviceNames.

Lemma reported_range_is_exact_witness :
  skipped_range (Example.run (Some (Example.g_sized [17]))) = Some (17, 17) ∧
  17 ∈ Eligibility.skipped_sizes Example.ParseFullName
         Example.DeviceNameToCpuDeviceName
         (nodes (Example.g_sized [17])) (Example.g_sized [17]).
Proof.
  assert (H : skipped_range (Example.run (Some (Example.g_sized [17]))) =
              Some (17, 17)) by (vm_compute; reflexivity).
  split; [exact H |].
  exact (proj1 (proj2 (reported_range_is_exact Example.ParseFullName
           Example.DeviceNameToCpuDeviceName (Example.g_sized [17]) 17 17 H))).
Defined.

Lemma range_below_sentinel_witness :
  status (Example.run (Some (Example.g_sized [17]))) = OkStatus ∧
  Forall (λ x, x < INT64_MAX)
    (Eligibility.skipped_sizes Example.ParseFullName
       Example.DeviceNameToCpuDeviceName
       (nodes (Example.g_sized [17])) (Example.g_sized [17])) ∧
  (skipped_range (Example.run (Some (Example.g_sized [17]))) = None ↔
   Eligibility.skipped_sizes Example.ParseFullName
     Example.DeviceNameToCpuDeviceName
     (nodes (Example.g_sized [17])) (Example.g_sized [17]) = []).
Proof.
  assert (Hst : status (Example.run (Some (Example.g_sized [17]))) = OkStatus)
    by (vm_compute; reflexivity).
  assert (Hall : Forall (λ x, x < INT64_MAX)
            (Eligibility.skipped_sizes Example.ParseFullName
               Example.DeviceNameToCpuDeviceName
               (nodes (Example.g_sized [17])) (Example.g_sized [17]))).
  { apply (bool_decide_unpack _). vm_compute. exact I. }
  split; [exact Hst |]. split; [exact Hall |].
  exact (proj1 (Diagnostics.range_below_sentinel Example.ParseFullName
           Example.DeviceNameToCpuDeviceName (Example.g_sized [17]) Hst Hall)).
Defined.

End Range.

(** ** Counting the edges of a rewrite *)

Module EdgeCount.

Import BTree.

Lemma length_plain_edges copy (preds : list NodeId)
    (dte : btree_map (list Edge)) :
  length (plain_edges copy preds dte) =
    (length (concat (dte.*2)) + length preds * length dte)%nat.
Proof.
  revert copy. induction dte as [|pair rest IH]; intros copy; simpl; [lia |].
  rewrite !length_app, !length_fmap, IH, Nat.mul_succ_r.
  change (list_fmap (string * list Edge)%type (list Edge) snd rest)
    with (rest.*2).
  lia.
Qed.

Lemma length_detached node (l : list Edge) :
  (∀ x, x ∈ l → ¬ (src x = node ∧ dst x = node)) →
  (length (filter (λ e, src e ≠ node ∧ dst e ≠ node) l) +
   length (filter (λ e, src e = node) l) +
   length (filter (λ e, dst e = node) l))%nat = length l.
Proof.
  induction l as [|x l IH]; intros Hno; [done |].
  specialize (IH ltac:(intros y Hy; apply Hno; by right)).
  specialize (Hno x ltac:(left)).
  rewrite !filter_cons.
  destruct (decide (src x = node)), (decide (dst x = node)),
    (decide (src x ≠ node ∧ dst x ≠ node)); simpl; try lia; tauto.
Qed.

Section WithDeviceNames.

Variable ParseFullName : string → option string.
Variable DeviceNameToCpuDeviceName : string → option string.

Local Abbreviation examine := (Pass.examine ParseFullName DeviceNameToCpuDeviceName).

(** Rewriting a constant with [k] inbound edges into [m] device groups
    changes the number of edges by [k * (m - 1)]: its outbound edges are
    replaced one for one and each inbound edge is replaced by [m] control
    edges.  A constant without predecessors leaves the number of edges as it
    was; the number never goes down. *)
Theorem rewrite_edge_count g node n dte :
  wf_graph g →
  examine g node = Replicate n dte →
  node ∉ in_nodes g node →
  let g' := Pass.ReplicateToEachDevice g node n dte in
  let k := length (in_nodes g node) in
  let m := length dte in
  (length (edges_ g') + k = length (edges_ g) + k * m)%nat ∧
  (length (edges_ g) ≤ length (edges_ g'))%nat ∧
  (k = 0%nat → length (edges_ g') = length (edges_ g)).
Proof.
  intros Hwf Hex Hself g' k m. subst g' k m.
  assert (Hcount : (length (edges_ (Pass.ReplicateToEachDevice g node n dte)) +
                    length (in_nodes g node) =
                    length (edges_ g) +
                    length (in_nodes g node) * length dte)%nat).
  { rewrite (FanOut.edges_rewritten_plain _ _ _ _ _ _ Hex Hself).
    rewrite length_app, length_plain_edges.
    rewrite (Permutation_length (FanOut.groups_concat _ _ _ _ _ _ Hex)).
    assert (Hdet := length_detached node (edges_ g)).
    specialize (Hdet ltac:(intros x Hx [Hs Hd]; apply Hself; rewrite <- Hs at 1;
                           apply list_elem_of_fmap_2, list_elem_of_filter;
                           done)).
    unfold in_nodes. rewrite !length_fmap.
    unfold in_edges, out_edges in *. nia. }
  pose proof (Stability.rewritten_has_groups _ _ _ _ _ _ Hex) as Hm.
  split; [exact Hcount |]. split; [nia | intros Hk; lia].
Qed.

End WithDeviceNames.

Lemma rewrite_edge_count_witness :
  wf_graph Example.g_scenario ∧
  Example.examine Example.g_scenario 0 =
    Replicate Example.c_scenario Example.dte_scenario ∧
  (0%nat ∉ in_nodes Example.g_scenario 0) ∧
  (length (edges_ (Pass.ReplicateToEachDevice Example.g_scenario 0
                     Example.c_scenario Example.dte_scenario)) +
   length (in_nodes Example.g_scenario 0) =
   length (edges_ Example.g_scenario) +
   length (in_nodes Example.g_scenario 0) * length Example.dte_scenario)%nat.
Proof.
  assert (Hwf : wf_graph Example.g_scenario)
    by (apply (bool_decide_unpack _); vm_compute; exact I).
  assert (Hex : Example.examine Example.g_scenario 0 =
                Replicate Example.c_scenario Example.dte_scenario)
    by (vm_compute; reflexivity).
  assert (Hself : 0%nat ∉ in_nodes Example.g_scenario 0)
    by (apply (bool_decide_unpack _); vm_compute; exact I).
  split; [exact Hwf |]. split; [exact Hex |]. split; [exact Hself |].
  exact (proj1 (rewrite_edge_count Example.ParseFullName
           Example.DeviceNameToCpuDeviceName Example.g_scenario 0%nat
           Example.c_scenario Example.dte_scenario Hwf Hex Hself)).
Defined.

End EdgeCount.

(** ** What a run preserves around the nodes it keeps *)

Module Preservation.

Import BTree.

Lemma filter_endpoint d (l : list Edge) :
  filter (λ t : Z * NodeId * Z, t.1.2 = d) (endpoint <$> l) =
  endpoint <$> filter (λ e, dst e = d) l.
Proof.
  induction l as [|e l IH]; [done |].
  rewrite fmap_cons, !filter_cons. simpl.
  destruct (decide (dst e = d)); by rewrite IH.
Qed.

Lemma filter_new_edges node copy preds (dte : btree_map (list Edge)) d :
  d ≠ node → (d < copy)%nat → (node < copy)%nat →
  filter (λ x, dst x = d ∧ src x ≠ node ∧ dst x ≠ node)
    (new_edges node copy preds dte) =
  filter (λ x, dst x = d) (redirected copy dte).
Proof.
  intros Hne Hd Hn. revert copy preds Hd Hn.
  induction dte as [|entry rest IH]; intros copy preds Hd Hn; [done |].
  simpl. rewrite !filter_app. rewrite IH by lia.
  rewrite (Stability.filter_none _ (control_edge copy <$> _)).
  - simpl. f_equal. apply Stability.filter_ext_in. intros x Hx.
    apply list_elem_of_fmap in Hx as (e & -> & _). simpl.
    split; [tauto |]. intros ->. repeat split; [lia | done].
  - intros x Hx [Hdx _]. apply list_elem_of_fmap in Hx as (p & -> & _).
    simpl in Hdx. lia.
Qed.

Lemma elem_of_redirected copy (dte : btree_map (list Edge)) x :
  x ∈ redirected copy dte →
  ∃ k pair e, dte !! k = Some pair ∧ e ∈ pair.2 ∧ x = redirect (copy + k) e.
Proof.
  revert copy. induction dte as [|entry rest IH]; intros copy Hx; simpl in Hx.
  - by apply elem_of_nil in Hx.
  - apply elem_of_app in Hx as [Hx|Hx].
    + apply list_elem_of_fmap in Hx as (e & -> & He).
      exists 0%nat, entry, e. by rewrite Nat.add_0_r.
    + destruct (IH _ Hx) as (k & pair & e & Hk & He & ->).
      exists (S k), pair, e. repeat split; [done | done |].
      f_equal. lia.
Qed.

Section WithDeviceNames.

Variable ParseFullName : string → option string.
Variable DeviceNameToCpuDeviceName : string → option string.

Local Abbreviation examine := (Pass.examine ParseFullName DeviceNameToCpuDeviceName).
Local Abbreviation run_nodes :=
  (Pass.run_nodes ParseFullName DeviceNameToCpuDeviceName).
Local Abbreviation Run := (Pass.Run ParseFullName DeviceNameToCpuDeviceName).
Local Abbreviation device_of := (Eligibility.device_of DeviceNameToCpuDeviceName).
Local Abbreviation qualified := (GroupView.qualified ParseFullName).

Lemma examine_Replicate_qualified g node n dte :
  examine g node = Replicate n dte →
  FindNodeId g node = Some n ∧ qualified n.
Proof.
  intros Hex.
  apply Stability.examine_Replicate_inv in Hex
    as ([[Hn Hc _ _] (value & shape & Hv & Hb & Hle) Hd Hcpu] & _).
  split; [done |]. repeat split; try done. exists shape.
  unfold value_shape, GetNodeAttr_value. by rewrite Hv.
Qed.

Section Rewritten.

Variables (g : Graph) (node : NodeId) (n : Node).
Variable dte : btree_map (list Edge).

Hypothesis Hwf : wf_graph g.
Hypothesis Hex : examine g node = Replicate n dte.

Local Abbreviation g' := (Pass.ReplicateToEachDevice g node n dte).

(** The edges that enter another node after the rewrite: those it had from
    nodes other than the constant, then the redirected ones. *)
Lemma in_edges_rewritten d :
  d ≠ node → (d < num_node_ids g)%nat →
  in_edges g' d =
    filter (λ x, src x ≠ node) (in_edges g d) ++
    filter (λ x, dst x = d) (redirected (num_node_ids g) dte).
Proof.
  intros Hne Hd.
  pose proof (Stability.rewritten_node_lt _ _ _ _ _ _ Hex) as Hlt.
  unfold in_edges. rewrite (Stability.rewritten_eq _ _ _ _ _ _ Hex). simpl.
  rewrite !list_filter_filter, filter_app. f_equal.
  - apply Stability.filter_ext_in. intros x _. split.
    + intros (Hx & Hs & _). done.
    + intros (Hs & Hx). repeat split; [done | done | congruence].
  - by apply filter_new_edges.
Qed.

Lemma inputs_rewritten d :
  d ≠ node → (d < num_node_ids g)%nat →
  (endpoint <$> in_edges g' d) ≡ₚ (endpoint <$> in_edges g d).
Proof.
  intros Hne Hd. rewrite in_edges_rewritten by done.
  rewrite fmap_app, <- filter_endpoint, FanOut.endpoint_redirected.
  rewrite (FanOut.groups_concat _ _ _ _ _ _ Hex), filter_endpoint.
  rewrite <- fmap_app. apply fmap_Permutation.
  etrans; [| apply (filter_app_complement (λ x, src x ≠ node))].
  apply Permutation_app_head. unfold out_edges, in_edges.
  rewrite !list_filter_filter.
  erewrite Stability.filter_ext_in; [reflexivity |].
  intros x _. simpl. destruct (decide (src x = node)); tauto.
Qed.

Lemma in_edges_rewritten_elem d x :
  d ≠ node → (d < num_node_ids g)%nat → x ∈ in_edges g' d →
  (x ∈ in_edges g d ∧ src x ≠ node) ∨
  ∃ k pair e, dte !! k = Some pair ∧ e ∈ pair.2 ∧ e ∈ in_edges g d ∧
              x = redirect (num_node_ids g + k) e.
Proof.
  intros Hne Hd Hx. apply list_elem_of_filter in Hx as [Hdx Hx].
  apply (Stability.elem_of_edges_rewritten _ _ _ _ _ _ Hex) in Hx
    as [[Hs _] [Hx|Hx]].
  - left. split; [| done]. by apply list_elem_of_filter.
  - apply RewriteFacts.elem_of_new_edges in Hx
      as [(k & pair & e & Hk & He & ->)|(k & p & Hk & -> & _)].
    + right. exists k, pair, e. repeat split; try done.
      apply list_elem_of_filter. split; [done |].
      by destruct (Stability.group_edge _ _ _ _ _ _ Hex _ _ _ Hk He).
    + simpl in Hdx. lia.
Qed.

End Rewritten.

Lemma run_nodes_inputs ids s st s' N0 d :
  wf_graph (ls_graph s) →
  Forall (λ i, (i < N0)%nat) ids →
  (N0 ≤ num_node_ids (ls_graph s))%nat →
  run_nodes ids s = (st, s') →
  (d < num_node_ids (ls_graph s))%nat →
  live (ls_graph s') d →
  (endpoint <$> in_edges (ls_graph s') d) ≡ₚ
    (endpoint <$> in_edges (ls_graph s) d) ∧
  ∀ x, x ∈ in_edges (ls_graph s') d →
    x ∈ in_edges (ls_graph s) d ∨
    ∃ e orig c dev,
      e ∈ in_edges (ls_graph s) d ∧ (src e < N0)%nat ∧
      IsControlEdge e = false ∧ x = redirect (src x) e ∧
      (num_node_ids (ls_graph s) ≤ src x)%nat ∧
      FindNodeId (ls_graph s) (src e) = Some orig ∧ qualified orig ∧
      FindNodeId (ls_graph s') (src x) = Some (replica orig c dev) ∧
      device_of (ls_graph s) e = Ok dev.
Proof.
  intros Hwf Hids. revert s Hwf.
  induction ids as [|node ids IH]; intros s Hwf HN Hrun Hd Hlive;
    simpl in Hrun.
  - injection Hrun as <- <-. split; [done |]. intros x Hx. by left.
  - apply Forall_cons in Hids as [Hnode Hids].
    destruct (examine (ls_graph s) node) as [why|elements|n dte|e] eqn:Hex.
    + by apply (IH Hids _ Hwf HN Hrun).
    + by apply (IH Hids (mkLoopState (ls_graph s) _ _) Hwf HN Hrun).
    + pose proof (Stability.wf_rewritten _ _ _ _ _ _ Hwf Hex) as Hwf1.
      pose proof (Stability.num_node_ids_rewritten _ _ _ _ _ _ Hex) as Hlen.
      pose proof (Stability.rewritten_node_lt _ _ _ _ _ _ Hex) as Hlt.
      assert (Hne : d ≠ node).
      { intros ->. destruct Hlive as [nd Hnd].
        pose proof (Stability.FindNodeId_rewritten_node _ _ _ _ _ _ Hex)
          as Hgone.
        rewrite (NoRollback.run_nodes_keeps _ _ _ _ _ _ node Hrun) in Hnd;
          simpl; [| lia | by left].
        simpl in Hnd. congruence. }
      destruct (IH Hids (mkLoopState _ _ _) Hwf1 ltac:(simpl; lia) Hrun
                  ltac:(simpl; lia) Hlive) as [Hperm Helem].
      cbn [ls_graph] in Hperm, Helem.
      split.
      { rewrite Hperm. by apply inputs_rewritten. }
      intros x Hx. destruct (Helem x Hx) as [Hx1|Hx1].
      * destruct (in_edges_rewritten_elem _ _ _ _ Hex d x Hne Hd Hx1)
          as [[Hold _]|(k & pair & e & Hk & He & Hin & ->)]; [by left |].
        right.
        destruct (examine_Replicate_qualified _ _ _ _ Hex) as [Hn Hq].
        destruct (Stability.group_edge _ _ _ _ _ _ Hex _ _ _ Hk He)
          as (_ & Hs & Hdev).
        pose proof (FanOut.out_edges_data _ _ _ _ _ _ Hex) as Hdata.
        rewrite Forall_forall in Hdata.
        exists e, n, (name_counter_ (ls_graph s) + N.of_nat k)%N, pair.1.
        assert (Hk' : (k < length dte)%nat) by by eapply lookup_lt_Some.
        split; [done |]. split; [lia |]. split.
        { apply Hdata. apply list_elem_of_filter. split; [done |].
          by apply list_elem_of_filter in Hin as [_ Hin]. }
        split; [done |]. split; [simpl; lia |]. split; [congruence |].
        split; [done |]. split; [| done]. simpl.
        rewrite (NoRollback.run_nodes_keeps _ _ _ _ _ _ _ Hrun); simpl.
        -- by apply (Stability.FindNodeId_rewritten_replica _ _ _ _ _ _ Hex).
        -- lia.
        -- right. intros Hin'. rewrite Forall_forall in Hids.
           apply Hids in Hin'. lia.
      * destruct Hx1 as (e & orig & c & dev & He & Hsrc & Hdata & Hxe & Hge
                         & Horig & Hq & Hrep & Hdev).
        destruct (in_edges_rewritten_elem _ _ _ _ Hex d e Hne Hd He)
          as [[Hold Hsn]|(k & pair & e0 & _ & _ & _ & ->)];
          [| simpl in Hsrc; lia].
        right. exists e, orig, c, dev.
        assert (Hse : (src e < num_node_ids (ls_graph s))%nat) by lia.
        assert (Hde : dst e = d) by by apply list_elem_of_filter in Hold as [? _].
        split; [done |]. split; [done |]. split; [done |]. split; [done |].
        split; [lia |]. split.
        { by rewrite <- (Stability.FindNodeId_rewritten_old _ _ _ _ _ _ Hex). }
        split; [done |]. split; [done |].
        unfold Eligibility.device_of in *. rewrite Hde in *.
        by rewrite <- (Stability.FindNodeId_rewritten_old _ _ _ _ _ _ Hex).
    + injection Hrun as <- <-. split; [done |]. intros x Hx. by left.
Qed.

(** Every node that a run keeps has the inputs it had: its inbound edges
    arrive at the same input slots from the same output slots, data and
    control alike.  An inbound edge that is not one of the original ones is
    a data edge that came from a qualified constant of the original graph
    and now comes from a replica of that constant, a node added by the run,
    placed on the CPU device of the node it feeds. *)
Theorem Run_preserves_inputs g g' d :
  wf_graph g →
  graph (Run (Some g)) = Some g' →
  (d < num_node_ids g)%nat →
  live g' d →
  (endpoint <$> in_edges g' d) ≡ₚ (endpoint <$> in_edges g d) ∧
  ∀ x, x ∈ in_edges g' d →
    x ∈ in_edges g d ∨
    ∃ e orig c dev,
      e ∈ in_edges g d ∧ IsControlEdge e = false ∧ x = redirect (src x) e ∧
      (num_node_ids g ≤ src x)%nat ∧
      FindNodeId g (src e) = Some orig ∧ qualified orig ∧
      FindNodeId g' (src x) = Some (replica orig c dev) ∧
      device_of g' x = Ok dev.
Proof.
  intros Hwf Hg' Hd Hlive.
  destruct (Stability.Run_unfold ParseFullName DeviceNameToCpuDeviceName g)
    as [Hgraph _].
  rewrite Hgraph in Hg'. injection Hg' as <-.
  destruct (run_nodes (nodes g) (initial g)) as [st s1] eqn:Hrun.
  cbn [snd] in *.
  destruct (run_nodes_inputs (nodes g) (initial g) st s1 (num_node_ids g) d
              Hwf (Stability.nodes_lt g) (Nat.le_refl _) Hrun Hd Hlive)
    as [Hperm Helem].
  split; [exact Hperm |]. intros x Hx.
  destruct (Helem x Hx) as [Hold|(e & orig & c & dev & He & _ & Hdata & Hxe
                                  & Hge & Horig & Hq & Hrep & Hdev)];
    [by left |].
  right. exists e, orig, c, dev.
  do 7 (split; [done |]).
  simpl in Hdev. unfold Eligibility.device_of in *.
  assert (Hdx : dst x = dst e) by (rewrite Hxe; done).
  assert (Hde : dst e = d) by by apply list_elem_of_filter in He as [? _].
  rewrite Hdx, Hde in *.
  destruct (FindNodeId g d) as [nd|] eqn:Hnd.
  - destruct (Postconditions.run_nodes_fate _ _ _ _ _ _ d nd Hrun Hnd)
      as [Hk|[Hk _]]; [by rewrite Hk |].
    destruct Hlive as [? Hl]. congruence.
  - rewrite (NoRollback.run_nodes_keeps _ _ _ _ _ _ d Hrun); simpl.
    + by rewrite Hnd.
    + done.
    + by left.
Qed.

(** *** Nodes that no visit can qualify *)

Local Abbreviation unsplittable :=
  (GroupView.unsplittable DeviceNameToCpuDeviceName).

Lemma unsplittable_not_rewritten g i n dte :
  unsplittable g i → examine g i ≠ Replicate n dte.
Proof.
  intros HJ Hex. unfold GroupView.unsplittable in HJ.
  apply Stability.examine_Replicate_inv in Hex
    as ([[_ _ Hfan Hctl] _ _ _] & Hg & Hlen).
  destruct HJ as [Hle|[Hc|[d Hall]]]; [lia | congruence |].
  pose proof (Grouping.collect_edges_one_device _ _ _ _ _ Hg Hall). lia.
Qed.

Lemma unsplittable_rewritten g node n dte i :
  wf_graph g →
  examine g node = Replicate n dte →
  (i < num_node_ids g)%nat → i ≠ node →
  unsplittable g i →
  unsplittable (Pass.ReplicateToEachDevice g node n dte) i.
Proof.
  intros Hwf Hex Hi Hne HJ. unfold GroupView.unsplittable in *.
  pose proof (Stability.rewritten_node_lt _ _ _ _ _ _ Hex) as Hlt.
  destruct (decide (i ∈ in_nodes g node)) as [Hin|Hnot].
  - right. left.
    apply (Stability.HasControlOut_true _ _
             (control_edge (num_node_ids g + 0) i)); [| done | done].
    apply (Stability.elem_of_edges_rewritten _ _ _ _ _ _ Hex). simpl.
    split; [split; [done | lia] |].
    right. apply RewriteFacts.control_in_new_edges; [| done].
    pose proof (Stability.rewritten_has_groups _ _ _ _ _ _ Hex). lia.
  - pose proof (Stability.out_edges_rewritten_old _ _ _ _ _ _ Hex i Hi Hne
                  Hnot) as Hout.
    unfold Pass.HasControlOut. rewrite Hout.
    destruct HJ as [Hle|[Hc|[d Hall]]]; [by left | by right; left |].
    right. right. exists d. rewrite Forall_forall in Hall.
    apply Forall_forall. intros e He. specialize (Hall e He).
    unfold Eligibility.device_of in *.
    apply list_elem_of_filter in He as [Hs He].
    rewrite (Stability.FindNodeId_rewritten_old _ _ _ _ _ _ Hex); [done | |].
    + by apply (Stability.edge_in_range g Hwf).
    + intros Hdn. apply Hnot. rewrite <- Hs.
      apply list_elem_of_fmap_2, list_elem_of_filter. done.
Qed.

Lemma run_nodes_unsplittable ids s st s' i n :
  wf_graph (ls_graph s) →
  run_nodes ids s = (st, s') →
  FindNodeId (ls_graph s) i = Some n →
  unsplittable (ls_graph s) i →
  FindNodeId (ls_graph s') i = Some n ∧ unsplittable (ls_graph s') i.
Proof.
  revert s. induction ids as [|node ids IH]; intros s Hwf Hrun Hn HJ;
    simpl in Hrun.
  - by injection Hrun as <- <-.
  - destruct (examine (ls_graph s) node) as [why|elements|n0 dte|e] eqn:Hex.
    + by apply (IH _ Hwf Hrun).
    + by apply (IH (mkLoopState (ls_graph s) _ _) Hwf Hrun).
    + assert (Hne : i ≠ node).
      { intros ->. by apply (unsplittable_not_rewritten _ _ n0 dte) in HJ. }
      pose proof (Stability.FindNodeId_lt _ _ _ Hn) as Hi.
      apply (IH (mkLoopState _ _ _)
               (Stability.wf_rewritten _ _ _ _ _ _ Hwf Hex) Hrun).
      * simpl.
        by rewrite (Stability.FindNodeId_rewritten_old _ _ _ _ _ _ Hex).
      * by apply unsplittable_rewritten.
    + by injection Hrun as <- <-.
Qed.

(** A node with at most one outbound edge, with a control successor, or
    with all its successors on one CPU device in the input graph is never
    replicated, whatever the run does to the rest of the graph: it is kept
    as it was and is in one of the three situations afterwards. *)
Theorem Run_keeps_unsplittable g g' i n :
  wf_graph g →
  graph (Run (Some g)) = Some g' →
  FindNodeId g i = Some n →
  unsplittable g i →
  FindNodeId g' i = Some n ∧ unsplittable g' i.
Proof.
  intros Hwf Hg' Hn HJ.
  destruct (Stability.Run_unfold ParseFullName DeviceNameToCpuDeviceName g)
    as [Hgraph _].
  rewrite Hgraph in Hg'. injection Hg' as <-.
  destruct (run_nodes (nodes g) (initial g)) as [st s1] eqn:Hrun.
  by apply (run_nodes_unsplittable (nodes g) (initial g) st s1 i n Hwf Hrun).
Qed.

(** *** Decisions that can be read off the input graph *)

Lemma no_data_into_constants_rewritten g node n dte :
  wf_graph g → no_data_into_constants g →
  examine g node = Replicate n dte →
  no_data_into_constants (Pass.ReplicateToEachDevice g node n dte).
Proof.
  intros Hwf HH Hex. unfold no_data_into_constants in *.
  rewrite Forall_forall in HH. apply Forall_forall. intros x Hx Hdata.
  apply (Stability.elem_of_edges_rewritten _ _ _ _ _ _ Hex) in Hx
    as [[_ Hd] [Hx|Hx]].
  - rewrite (Stability.FindNodeId_rewritten_old _ _ _ _ _ _ Hex);
      [by apply HH | | done].
    by apply (Stability.edge_in_range g Hwf).
  - apply RewriteFacts.elem_of_new_edges in Hx
      as [(k & pair & e & Hk & He & ->)|(k & p & Hk & -> & _)];
      [| done].
    destruct (Stability.group_edge _ _ _ _ _ _ Hex _ _ _ Hk He) as (Hin & _).
    simpl in *.
    rewrite (Stability.FindNodeId_rewritten_old _ _ _ _ _ _ Hex);
      [by apply HH | | done].
    by apply (Stability.edge_in_range g Hwf).
Qed.

(** Rewriting one constant does not change what the loop body decides for
    another node, except that a node it passed over may be passed over for
    a different reason. *)
Lemma examine_rewritten g node n dte i :
  wf_graph g → no_data_into_constants g →
  examine g node = Replicate n dte →
  (i < num_node_ids g)%nat → i ≠ node →
  examine (Pass.ReplicateToEachDevice g node n dte) i = examine g i ∨
  (quiet (examine g i) ∧
   quiet (examine (Pass.ReplicateToEachDevice g node n dte) i)).
Proof.
  intros Hwf HH Hex Hi Hne.
  destruct (decide (i ∈ in_nodes g node)) as [Hin|Hnot].
  - right.
    assert (Hset : Eligibility.settled ParseFullName DeviceNameToCpuDeviceName
                     g i).
    { apply list_elem_of_fmap in Hin as (x & -> & Hx).
      apply list_elem_of_filter in Hx as [Hd Hx].
      apply Stability.settled_control_out.
      apply (Stability.HasControlOut_true _ _ x); [done | done |].
      destruct (IsControlEdge x) eqn:Hc; [done |].
      unfold no_data_into_constants in HH. rewrite Forall_forall in HH.
      specialize (HH x Hx Hc). rewrite Hd in HH.
      destruct (examine_Replicate_qualified _ _ _ _ Hex) as [Hn [Hcst _]].
      rewrite Hn in HH. simpl in HH. congruence. }
    split; [exact Hset |].
    by apply (Stability.settled_rewritten_old _ _ _ _ _ _ Hwf Hex).
  - left. apply Stability.examine_ext.
    + by apply (Stability.FindNodeId_rewritten_old _ _ _ _ _ _ Hex).
    + by apply (Stability.out_edges_rewritten_old _ _ _ _ _ _ Hex).
    + rewrite (Stability.out_edges_rewritten_old _ _ _ _ _ _ Hex) by done.
      apply Forall_forall. intros e He.
      apply list_elem_of_filter in He as [Hs He].
      apply (Stability.FindNodeId_rewritten_old _ _ _ _ _ _ Hex);
        [by apply (Stability.edge_in_range g Hwf) |].
      intros Hd. apply Hnot. rewrite <- Hs.
      apply list_elem_of_fmap_2, list_elem_of_filter. done.
Qed.

Lemma FindNodeId_rewritten_None g node n dte i :
  examine g node = Replicate n dte →
  (i < num_node_ids g)%nat →
  FindNodeId (Pass.ReplicateToEachDevice g node n dte) i = None ↔
  FindNodeId g i = None ∨ i = node.
Proof.
  intros Hex Hi. destruct (decide (i = node)) as [->|Hne].
  - split; [by right |]. intros _.
    apply (Stability.FindNodeId_rewritten_node _ _ _ _ _ _ Hex).
  - rewrite (Stability.FindNodeId_rewritten_old _ _ _ _ _ _ Hex) by done.
    split; [by left |]. by intros [|].
Qed.

Local Ltac quiet_step IH Hex Hnd Hids Hrun node :=
  destruct (IH (mkLoopState _ _ _) ltac:(done) ltac:(done) Hnd Hids Hrun)
    as (pre & post & -> & Hno & Hst & Hiff);
  cbn [ls_graph] in Hno, Hst, Hiff;
  exists (node :: pre), post;
  split; [done |]; split;
  [ intros i e [->|Hi]%elem_of_cons; [by rewrite Hex | by apply Hno]
  | split; [exact Hst |];
    intros i Hi; rewrite (Hiff i Hi); split;
    [ intros [|[Hin Hrep]]; [by left | right; split; [by right | done]]
    | intros [|[[->|Hin]%elem_of_cons Hrep]];
      [ by left
      | destruct Hrep as (? & ? & Hrep); rewrite Hex in Hrep; discriminate
      | by right ] ] ].

Lemma run_nodes_decided ids s st s' :
  wf_graph (ls_graph s) → no_data_into_constants (ls_graph s) →
  NoDup ids →
  Forall (λ i, (i < num_node_ids (ls_graph s))%nat) ids →
  run_nodes ids s = (st, s') →
  ∃ pre post,
    ids = pre ++ post ∧
    (∀ i e, i ∈ pre → examine (ls_graph s) i ≠ Abort e) ∧
    match st with
    | OkStatus => post = []
    | Failed e =>
        ∃ node rest, post = node :: rest ∧ examine (ls_graph s) node = Abort e
    end ∧
    ∀ i, (i < num_node_ids (ls_graph s))%nat →
      (FindNodeId (ls_graph s') i = None ↔
       FindNodeId (ls_graph s) i = None ∨
       (i ∈ pre ∧ ∃ n dte, examine (ls_graph s) i = Replicate n dte)).
Proof.
  revert s. induction ids as [|node ids IH]; intros s Hwf HH Hnd Hids Hrun;
    simpl in Hrun.
  - injection Hrun as <- <-. exists [], []. split; [done |].
    split; [intros i e Hi; by apply elem_of_nil in Hi |]. split; [done |].
    intros i Hi. split; [by left |].
    intros [|[Hin _]]; [done | by apply elem_of_nil in Hin].
  - apply NoDup_cons in Hnd as [Hnotin Hnd].
    apply Forall_cons in Hids as [Hnode Hids].
    destruct (examine (ls_graph s) node) as [why|elements|n dte|e] eqn:Hex.
    + destruct s as [g mn mx]. quiet_step IH Hex Hnd Hids Hrun node.
    + quiet_step IH Hex Hnd Hids Hrun node.
    + pose proof (Stability.wf_rewritten _ _ _ _ _ _ Hwf Hex) as Hwf1.
      pose proof (no_data_into_constants_rewritten _ _ _ _ Hwf HH Hex) as HH1.
      pose proof (Stability.num_node_ids_rewritten _ _ _ _ _ _ Hex) as Hlen.
      assert (Hids1 : Forall (λ i, (i < num_node_ids
                (Pass.ReplicateToEachDevice (ls_graph s) node n dte))%nat) ids).
      { eapply Forall_impl; [exact Hids |]. simpl. intros i Hi. lia. }
      destruct (IH (mkLoopState _ _ _) Hwf1 HH1 Hnd Hids1 Hrun)
        as (pre & post & -> & Hno & Hst & Hiff).
      cbn [ls_graph] in Hno, Hst, Hiff.
      assert (Hsame : ∀ i, i ∈ pre ++ post →
                examine (Pass.ReplicateToEachDevice (ls_graph s) node n dte) i
                  = examine (ls_graph s) i ∨
                (quiet (examine (ls_graph s) i) ∧
                 quiet (examine
                          (Pass.ReplicateToEachDevice (ls_graph s) node n dte)
                          i))).
      { intros i Hi. apply examine_rewritten; try done.
        - rewrite Forall_forall in Hids. by apply Hids.
        - by intros ->. }
      exists (node :: pre), post. split; [done |]. split; [| split].
      * intros i e [->|Hi]%elem_of_cons; [by rewrite Hex |].
        destruct (Hsame i ltac:(apply elem_of_app; by left)) as [Heq|[Hq _]].
        -- rewrite <- Heq. by apply Hno.
        -- intros Hab. by rewrite Hab in Hq.
      * destruct st as [|e]; [done |].
        destruct Hst as (node' & rest & -> & Hab).
        exists node', rest. split; [done |].
        destruct (Hsame node' ltac:(apply elem_of_app; right; left))
          as [Heq|[_ Hq]].
        -- by rewrite <- Heq.
        -- by rewrite Hab in Hq.
      * intros i Hi. rewrite (Hiff i ltac:(lia)).
        rewrite (FindNodeId_rewritten_None _ _ _ _ _ Hex Hi).
        split.
        -- intros [[?| ->]|[Hin (n1 & dte1 & Hrep)]].
           ++ by left.
           ++ right. split; [left | by exists n, dte].
           ++ right. split; [by right |].
              destruct (Hsame i ltac:(apply elem_of_app; by left))
                as [Heq|[_ Hq]].
              ** exists n1, dte1. by rewrite <- Heq.
              ** by rewrite Hrep in Hq.
        -- intros [?|[[->|Hin]%elem_of_cons (n1 & dte1 & Hrep)]].
           ++ left. by left.
           ++ left. by right.
           ++ right. split; [done |].
              destruct (Hsame i ltac:(apply elem_of_app; by left))
                as [Heq|[Hq _]].
              ** exists n1, dte1. by rewrite Heq.
              ** by rewrite Hrep in Hq.
    + injection Hrun as <- <-. exists [], (node :: ids). split; [done |].
      split; [intros i e' Hi; by apply elem_of_nil in Hi |].
      split; [by exists node, ids |].
      intros i Hi. split; [by left |].
      intros [|[Hin _]]; [done | by apply elem_of_nil in Hin].
Qed.

Lemma seq_prefix (pre post : list nat) len i :
  seq 0 len = pre ++ post → i ∈ pre ↔ (i < length pre)%nat.
Proof.
  intros Heq. split.
  - intros Hi. apply list_elem_of_lookup in Hi as [j Hj].
    pose proof (lookup_lt_Some _ _ _ Hj) as Hlt.
    assert (Hs : seq 0 len !! j = Some i)
      by (rewrite Heq; by apply lookup_app_l_Some).
    apply lookup_seq in Hs as [-> _]. done.
  - intros Hi. destruct (lookup_lt_is_Some_2 pre i Hi) as [x Hx].
    assert (Hs : seq 0 len !! i = Some x)
      by (rewrite Heq; by apply lookup_app_l_Some).
    apply lookup_seq in Hs as [-> _]. by eapply list_elem_of_lookup_2.
Qed.

(** On a graph whose constants take no data inputs, what a run does to a
    node is decided by the input graph alone.  The run fails iff the loop
    body would fail on some node of the input graph, with the error of the
    first such node in visiting order (node [stop]); and the nodes it
    removes are exactly those before [stop] that pass all the tests of the
    loop body in the input graph. *)
Theorem Run_decided_by_input g g' :
  wf_graph g → no_data_into_constants g →
  graph (Run (Some g)) = Some g' →
  ∃ stop,
    (stop ≤ num_node_ids g)%nat ∧
    (∀ i e, (i < stop)%nat → examine g i ≠ Abort e) ∧
    match status (Run (Some g)) with
    | OkStatus => stop = num_node_ids g
    | Failed e => examine g stop = Abort e
    end ∧
    ∀ i, (i < num_node_ids g)%nat →
      (FindNodeId g' i = None ↔
       FindNodeId g i = None ∨
       ((i < stop)%nat ∧ ∃ n dte, examine g i = Replicate n dte)).
Proof.
  intros Hwf HH Hg'.
  destruct (Stability.Run_unfold ParseFullName DeviceNameToCpuDeviceName g)
    as [Hgraph Hstatus].
  rewrite Hgraph in Hg'. injection Hg' as <-. rewrite Hstatus.
  destruct (run_nodes (nodes g) (initial g)) as [st s1] eqn:Hrun.
  cbn [fst snd].
  destruct (run_nodes_decided (nodes g) (initial g) st s1 Hwf HH
              (NoDup_seq _ _) (Stability.nodes_lt g) Hrun)
    as (pre & post & Heq & Hno & Hst & Hiff).
  cbn [ls_graph initial] in Hno, Hst, Hiff.
  pose proof (λ i, seq_prefix pre post _ i Heq) as Hpre.
  assert (Hlen : (length pre + length post = num_node_ids g)%nat).
  { rewrite <- length_app, <- Heq. unfold nodes. by rewrite length_seq. }
  exists (length pre). split; [lia |]. split; [| split].
  - intros i e Hi. apply Hno. by apply Hpre.
  - destruct st as [|e].
    + subst post. simpl in Hlen. lia.
    + destruct Hst as (node & rest & -> & Hab).
      assert (Hs : nodes g !! length pre = Some node).
      { rewrite Heq. by rewrite list_lookup_middle. }
      apply lookup_seq in Hs as [-> _]. done.
  - intros i Hi. rewrite (Hiff i Hi). by rewrite Hpre.
Qed.

(** *** The inputs of the replicas *)

Lemma run_nodes_gone ids s st s' node n dte :
  examine (ls_graph s) node = Replicate n dte →
  run_nodes ids
    (mkLoopState (Pass.ReplicateToEachDevice (ls_graph s) node n dte)
       (min_skipped s) (max_skipped s)) = (st, s') →
  FindNodeId (ls_graph s') node = None.
Proof.
  intros Hex Hrun.
  pose proof (Stability.FindNodeId_rewritten_node _ _ _ _ _ _ Hex) as Hgone.
  pose proof (Stability.rewritten_node_lt _ _ _ _ _ _ Hex) as Hlt.
  pose proof (Stability.num_node_ids_rewritten _ _ _ _ _ _ Hex) as Hlen.
  rewrite (NoRollback.run_nodes_keeps _ _ _ _ _ _ node Hrun); simpl;
    [done | lia | by left].
Qed.

Lemma no_self_edge g node n dte :
  no_data_into_constants g →
  examine g node = Replicate n dte →
  node ∉ in_nodes g node.
Proof.
  intros HH Hex Hin.
  apply list_elem_of_fmap in Hin as (x & Hs & Hx).
  apply list_elem_of_filter in Hx as [Hd Hx].
  pose proof (FanOut.out_edges_data _ _ _ _ _ _ Hex) as Hdata.
  rewrite Forall_forall in Hdata.
  specialize (Hdata x ltac:(by apply list_elem_of_filter)).
  unfold no_data_into_constants in HH. rewrite Forall_forall in HH.
  specialize (HH x Hx Hdata). rewrite Hd in HH.
  destruct (examine_Replicate_qualified _ _ _ _ Hex) as [Hn [Hc _]].
  rewrite Hn in HH. simpl in HH. congruence.
Qed.

Lemma control_inputs_of_constant g i orig :
  no_data_into_constants g →
  FindNodeId g i = Some orig → IsConstant orig = true →
  Forall (λ x, IsControlEdge x = true) (in_edges g i).
Proof.
  intros HH Hi Hc. apply Forall_forall. intros x Hx.
  apply list_elem_of_filter in Hx as [Hd Hx].
  destruct (IsControlEdge x) eqn:Hctl; [done |].
  unfold no_data_into_constants in HH. rewrite Forall_forall in HH.
  specialize (HH x Hx Hctl). rewrite Hd, Hi in HH. simpl in HH. congruence.
Qed.

(** A node that only has control inputs keeps its inbound edges when
    another node is rewritten. *)
Lemma in_edges_rewritten_control g node n dte d :
  wf_graph g →
  examine g node = Replicate n dte →
  d ≠ node → (d < num_node_ids g)%nat →
  Forall (λ x, IsControlEdge x = true) (in_edges g d) →
  in_edges (Pass.ReplicateToEachDevice g node n dte) d = in_edges g d.
Proof.
  intros Hwf Hex Hne Hd Hctl. rewrite Forall_forall in Hctl.
  pose proof (FanOut.out_edges_data _ _ _ _ _ _ Hex) as Hdata.
  rewrite Forall_forall in Hdata.
  assert (Hsrc : ∀ x, x ∈ in_edges g d → src x ≠ node).
  { intros x Hx Hs. specialize (Hctl x Hx).
    apply list_elem_of_filter in Hx as [_ Hx].
    specialize (Hdata x ltac:(by apply list_elem_of_filter)). congruence. }
  rewrite (in_edges_rewritten g node n dte Hex d Hne Hd).
  rewrite (Stability.filter_all (λ x, src x ≠ node)) by done.
  rewrite Stability.filter_none; [by rewrite app_nil_r |].
  intros x Hx Hdx.
  apply elem_of_redirected in Hx as (k & pair & e & Hk & He & ->).
  destruct (Stability.group_edge _ _ _ _ _ _ Hex _ _ _ Hk He) as (Hin & Hs & _).
  apply (Hsrc e); [| done]. by apply list_elem_of_filter.
Qed.

Lemma run_nodes_control_inputs ids s st s' d :
  wf_graph (ls_graph s) →
  run_nodes ids s = (st, s') →
  (d < num_node_ids (ls_graph s))%nat →
  live (ls_graph s') d →
  Forall (λ x, IsControlEdge x = true) (in_edges (ls_graph s) d) →
  in_edges (ls_graph s') d = in_edges (ls_graph s) d.
Proof.
  revert s. induction ids as [|node ids IH]; intros s Hwf Hrun Hd Hlive Hctl;
    simpl in Hrun.
  - by injection Hrun as <- <-.
  - destruct (examine (ls_graph s) node) as [why|elements|n dte|e] eqn:Hex.
    + by apply (IH _ Hwf Hrun).
    + by apply (IH (mkLoopState (ls_graph s) _ _) Hwf Hrun).
    + pose proof (Stability.wf_rewritten _ _ _ _ _ _ Hwf Hex) as Hwf1.
      pose proof (Stability.num_node_ids_rewritten _ _ _ _ _ _ Hex) as Hlen.
      pose proof (run_nodes_gone _ _ _ _ _ _ _ Hex Hrun) as Hgone.
      assert (Hne : d ≠ node).
      { intros ->. destruct Hlive as [y Hy]. congruence. }
      pose proof (in_edges_rewritten_control _ _ _ _ _ Hwf Hex Hne Hd Hctl)
        as Hsame.
      rewrite <- Hsame.
      apply (IH (mkLoopState _ _ _) Hwf1 Hrun); simpl; [lia | done |].
      by rewrite Hsame.
    + by injection Hrun as <- <-.
Qed.

Lemma run_nodes_replica_inputs ids s st s' N0 :
  wf_graph (ls_graph s) → no_data_into_constants (ls_graph s) →
  Forall (λ i, (i < N0)%nat) ids →
  (N0 ≤ num_node_ids (ls_graph s))%nat →
  run_nodes ids s = (st, s') →
  ∀ r, (num_node_ids (ls_graph s) ≤ r < num_node_ids (ls_graph s'))%nat →
    ∃ i orig c dev,
      i ∈ ids ∧ FindNodeId (ls_graph s) i = Some orig ∧
      IsConstant orig = true ∧
      FindNodeId (ls_graph s') i = None ∧
      FindNodeId (ls_graph s') r = Some (replica orig c dev) ∧
      in_edges (ls_graph s') r = control_edge r <$> in_nodes (ls_graph s) i.
Proof.
  intros Hwf HH Hids. revert s Hwf HH.
  induction ids as [|node ids IH]; intros s Hwf HH HN Hrun r Hr;
    simpl in Hrun.
  - injection Hrun as <- <-. lia.
  - apply Forall_cons in Hids as [Hnode Hids].
    destruct (examine (ls_graph s) node) as [why|elements|n dte|e] eqn:Hex.
    + destruct (IH Hids _ Hwf HH HN Hrun r Hr)
        as (i & orig & c & dev & Hi & Hrest).
      exists i, orig, c, dev. split; [by right | done].
    + destruct (IH Hids (mkLoopState (ls_graph s) _ _) Hwf HH HN Hrun r Hr)
        as (i & orig & c & dev & Hi & Hrest).
      exists i, orig, c, dev. split; [by right | done].
    + pose proof (Stability.wf_rewritten _ _ _ _ _ _ Hwf Hex) as Hwf1.
      pose proof (no_data_into_constants_rewritten _ _ _ _ Hwf HH Hex) as HH1.
      pose proof (Stability.num_node_ids_rewritten _ _ _ _ _ _ Hex) as Hlen.
      pose proof (run_nodes_gone _ _ _ _ _ _ _ Hex Hrun) as Hgone.
      pose proof (NoRollback.run_nodes_grows _ _ _ _ _ _ Hrun) as Hgrow.
      simpl in Hgrow.
      destruct (examine_Replicate_qualified _ _ _ _ Hex) as [Hn [Hc _]].
      destruct (decide (r < num_node_ids
                  (Pass.ReplicateToEachDevice (ls_graph s) node n dte))%nat)
        as [Hnow|Hlater].
      * destruct (lookup_lt_is_Some_2 dte (r - num_node_ids (ls_graph s)))
          as [pair Hp]; [lia |].
        pose proof (Stability.FindNodeId_rewritten_replica _ _ _ _ _ _ Hex
                      _ _ Hp) as Hrep.
        replace (num_node_ids (ls_graph s) + (r - num_node_ids (ls_graph s)))%nat
          with r in Hrep by lia.
        assert (Hkeep : FindNodeId (ls_graph s') r =
                        Some (replica n (name_counter_ (ls_graph s) +
                                N.of_nat (r - num_node_ids (ls_graph s)))
                                pair.1)).
        { rewrite (NoRollback.run_nodes_keeps _ _ _ _ _ _ r Hrun); simpl;
            [done | done |].
          right. intros Hin. rewrite Forall_forall in Hids.
          apply Hids in Hin. lia. }
        pose proof (FanOut.into_replica _ _ _ _ _ _ Hwf Hex
                      (no_self_edge _ _ _ _ HH Hex) r
                      ltac:(apply elem_of_seq; lia)) as Hinto.
        exists node, n, (name_counter_ (ls_graph s) +
                         N.of_nat (r - num_node_ids (ls_graph s)))%N, pair.1.
        split; [left |]. split; [done |]. split; [done |].
        split; [done |]. split; [exact Hkeep |].
        rewrite <- Hinto.
        apply (run_nodes_control_inputs _ (mkLoopState _ _ _) _ _ r Hwf1 Hrun);
          simpl; [done | by eexists |].
        rewrite Hinto. apply Forall_forall.
        intros x Hx. by apply list_elem_of_fmap in Hx as (p & -> & _).
      * destruct (IH Hids (mkLoopState _ _ _) Hwf1 HH1 ltac:(simpl; lia) Hrun
                    r ltac:(simpl; lia))
          as (i & orig & c & dev & Hi & Horig & Hcst & Hnone & Hrep & Hin).
        cbn [ls_graph] in Horig, Hin.
        assert (Hne : i ≠ node).
        { intros ->.
          rewrite (Stability.FindNodeId_rewritten_node _ _ _ _ _ _ Hex)
            in Horig. done. }
        assert (Hlt : (i < num_node_ids (ls_graph s))%nat).
        { rewrite Forall_forall in Hids. apply Hids in Hi. lia. }
        rewrite (Stability.FindNodeId_rewritten_old _ _ _ _ _ _ Hex)
          in Horig by done.
        exists i, orig, c, dev.
        split; [by right |]. split; [done |]. split; [done |].
        split; [done |]. split; [done |].
        rewrite Hin. unfold in_nodes.
        rewrite (in_edges_rewritten_control _ _ _ _ _ Hwf Hex Hne Hlt);
          [done |].
        by apply (control_inputs_of_constant _ _ orig).
    + injection Hrun as <- <-. lia.
Qed.

(** On a graph whose constants take no data inputs, the inbound edges of
    every node a run adds are control edges, one for each inbound edge the
    replaced constant had in the input graph, from the same sources and in
    the same order.  The constant is gone and those sources are still
    present, as they were. *)
Theorem Run_replica_inputs g g' r :
  wf_graph g → no_data_into_constants g →
  graph (Run (Some g)) = Some g' →
  (num_node_ids g ≤ r < num_node_ids g')%nat →
  ∃ i orig c dev,
    FindNodeId g i = Some orig ∧ FindNodeId g' i = None ∧
    FindNodeId g' r = Some (replica orig c dev) ∧
    in_edges g' r = control_edge r <$> in_nodes g i ∧
    ∀ p, p ∈ in_nodes g i → live g p ∧ FindNodeId g' p = FindNodeId g p.
Proof.
  intros Hwf HH Hg' Hr.
  destruct (Stability.Run_unfold ParseFullName DeviceNameToCpuDeviceName g)
    as [Hgraph _].
  rewrite Hgraph in Hg'. injection Hg' as <-.
  destruct (run_nodes (nodes g) (initial g)) as [st s1] eqn:Hrun.
  cbn [snd] in *.
  destruct (run_nodes_replica_inputs (nodes g) (initial g) st s1
              (num_node_ids g) Hwf HH (Stability.nodes_lt g) (Nat.le_refl _)
              Hrun r Hr)
    as (i & orig & c & dev & _ & Horig & _ & Hnone & Hrep & Hin).
  cbn [ls_graph initial] in Horig, Hin.
  exists i, orig, c, dev. do 4 (split; [done |]).
  intros p Hp.
  pose proof (Stability.in_nodes_live g i Hwf p Hp) as Hlive.
  split; [done |].
  destruct (Stability.run_nodes_settles _ _ (nodes g) (initial g) st s1 Hwf
              (Stability.nodes_lt g) Hrun) as (Hwf1 & _).
  assert (Hedge : control_edge r p ∈ edges_ (ls_graph s1)).
  { assert (Hx : control_edge r p ∈ in_edges (ls_graph s1) r)
      by (rewrite Hin; by apply list_elem_of_fmap_2).
    by apply list_elem_of_filter in Hx as [_ Hx]. }
  unfold wf_graph in Hwf1. rewrite Forall_forall in Hwf1.
  destruct (Hwf1 _ Hedge) as [[np' Hp'] _]. simpl in Hp'.
  destruct Hlive as [np Hnp].
  destruct (Postconditions.run_nodes_fate _ _ _ _ _ _ p np Hrun Hnp)
    as [Hk|[Hk _]]; [| simpl in *; congruence].
  simpl in *. congruence.
Qed.

(** *** The data edges of the graph *)

Lemma data_plain_edges copy (preds : list NodeId)
    (dte : btree_map (list Edge)) :
  Forall (λ p, Forall (λ e, IsControlEdge e = false) p.2) dte →
  filter (λ x, IsControlEdge x = false) (plain_edges copy preds dte) =
  redirected copy dte.
Proof.
  revert copy. induction dte as [|entry rest IH]; intros copy Hall; [done |].
  apply Forall_cons in Hall as [Hentry Hall]. simpl.
  rewrite !filter_app, (IH _ Hall).
  rewrite (Stability.filter_none _ (control_edge copy <$> preds)), app_nil_l.
  - f_equal. apply Stability.filter_all. intros x Hx.
    apply list_elem_of_fmap in Hx as (e & -> & He).
    rewrite Forall_forall in Hentry. exact (Hentry e He).
  - intros x Hx. by apply list_elem_of_fmap in Hx as (p & -> & _).
Qed.

Lemma data_edges_rewritten g node n dte :
  wf_graph g → no_data_into_constants g →
  examine g node = Replicate n dte →
  (endpoint <$> filter (λ x, IsControlEdge x = false)
                  (edges_ (Pass.ReplicateToEachDevice g node n dte))) ≡ₚ
  (endpoint <$> filter (λ x, IsControlEdge x = false) (edges_ g)).
Proof.
  intros Hwf HH Hex.
  pose proof (no_self_edge _ _ _ _ HH Hex) as Hself.
  pose proof (FanOut.out_edges_data _ _ _ _ _ _ Hex) as Hdata.
  rewrite (FanOut.edges_rewritten_plain _ _ _ _ _ _ Hex Hself).
  rewrite filter_app, data_plain_edges.
  2:{ apply Forall_forall. intros pair Hpair. apply Forall_forall.
      intros e He. apply list_elem_of_lookup in Hpair as [k Hk].
      destruct (Stability.group_edge _ _ _ _ _ _ Hex _ _ _ Hk He)
        as (Hin & Hs & _).
      rewrite Forall_forall in Hdata. apply Hdata.
      by apply list_elem_of_filter. }
  rewrite fmap_app, FanOut.endpoint_redirected.
  rewrite (FanOut.groups_concat _ _ _ _ _ _ Hex).
  rewrite <- fmap_app. apply fmap_Permutation.
  etrans; [| apply (filter_app_complement (λ x, src x ≠ node))].
  rewrite !list_filter_filter. apply Permutation_app.
  - erewrite Stability.filter_ext_in; [reflexivity |].
    intros x Hx. split; [tauto |].
    intros [Hs Hc]. split; [done |]. split; [done |].
    intros Hd. unfold no_data_into_constants in HH.
    rewrite Forall_forall in HH. specialize (HH x Hx Hc). rewrite Hd in HH.
    destruct (examine_Replicate_qualified _ _ _ _ Hex) as [Hn [Hcst _]].
    rewrite Hn in HH. simpl in HH. congruence.
  - unfold out_edges. erewrite Stability.filter_ext_in; [reflexivity |].
    intros x Hx. split.
    + intros Hs. split; [by intros ? |].
      rewrite Forall_forall in Hdata. apply Hdata.
      by apply list_elem_of_filter.
    + intros [Hs _]. by destruct (decide (src x = node)).
Qed.

Lemma run_nodes_data_edges ids s st s' :
  wf_graph (ls_graph s) → no_data_into_constants (ls_graph s) →
  run_nodes ids s = (st, s') →
  (endpoint <$> filter (λ x, IsControlEdge x = false) (edges_ (ls_graph s')))
    ≡ₚ
  (endpoint <$> filter (λ x, IsControlEdge x = false) (edges_ (ls_graph s))).
Proof.
  revert s. induction ids as [|node ids IH]; intros s Hwf HH Hrun;
    simpl in Hrun.
  - by injection Hrun as <- <-.
  - destruct (examine (ls_graph s) node) as [why|elements|n dte|e] eqn:Hex.
    + by apply (IH _ Hwf HH Hrun).
    + by apply (IH (mkLoopState (ls_graph s) _ _) Hwf HH Hrun).
    + rewrite (IH (mkLoopState _ _ _)
                 (Stability.wf_rewritten _ _ _ _ _ _ Hwf Hex)
                 (no_data_into_constants_rewritten _ _ _ _ Hwf HH Hex) Hrun).
      by apply data_edges_rewritten.
    + by injection Hrun as <- <-.
Qed.

Lemma run_nodes_no_data_into_constants ids s st s' :
  wf_graph (ls_graph s) → no_data_into_constants (ls_graph s) →
  run_nodes ids s = (st, s') →
  no_data_into_constants (ls_graph s').
Proof.
  revert s. induction ids as [|node ids IH]; intros s Hwf HH Hrun;
    simpl in Hrun.
  - by injection Hrun as <- <-.
  - destruct (examine (ls_graph s) node) as [why|elements|n dte|e] eqn:Hex.
    + by apply (IH _ Hwf HH Hrun).
    + by apply (IH (mkLoopState (ls_graph s) _ _) Hwf HH Hrun).
    + apply (IH (mkLoopState _ _ _)
               (Stability.wf_rewritten _ _ _ _ _ _ Hwf Hex)
               (no_data_into_constants_rewritten _ _ _ _ Hwf HH Hex) Hrun).
    + by injection Hrun as <- <-.
Qed.

(** On a graph whose constants take no data inputs, a run neither adds nor
    drops a data edge, whether it succeeds or fails: the data edges of the
    result deliver to the same input slots of the same nodes, from the same
    output slots, as those of the input graph.  Only their sources change,
    and only control edges are added. *)
Theorem Run_conserves_data_edges g g' :
  wf_graph g → no_data_into_constants g →
  graph (Run (Some g)) = Some g' →
  (endpoint <$> filter (λ x, IsControlEdge x = false) (edges_ g')) ≡ₚ
    (endpoint <$> filter (λ x, IsControlEdge x = false) (edges_ g)) ∧
  length (filter (λ x, IsControlEdge x = false) (edges_ g')) =
    length (filter (λ x, IsControlEdge x = false) (edges_ g)) ∧
  no_data_into_constants g'.
Proof.
  intros Hwf HH Hg'.
  destruct (Stability.Run_unfold ParseFullName DeviceNameToCpuDeviceName g)
    as [Hgraph _].
  rewrite Hgraph in Hg'. injection Hg' as <-.
  destruct (run_nodes (nodes g) (initial g)) as [st s1] eqn:Hrun.
  cbn [snd].
  pose proof (run_nodes_data_edges (nodes g) (initial g) st s1 Hwf HH Hrun)
    as Hperm.
  split; [exact Hperm |]. split.
  - apply Permutation_length in Hperm. by rewrite !length_fmap in Hperm.
  - exact (run_nodes_no_data_into_constants (nodes g) (initial g) st s1
             Hwf HH Hrun).
Qed.

(** *** The edges between the nodes of the input graph *)


Lemma run_nodes_frame ids s st s' N0 :
  wf_graph (ls_graph s) →
  Forall (λ i, (i < N0)%nat) ids →
  (N0 ≤ num_node_ids (ls_graph s))%nat →
  run_nodes ids s = (st, s') →
  filter (λ x, (src x < N0)%nat ∧ (dst x < N0)%nat) (edges_ (ls_graph s')) =
  filter (λ x, live (ls_graph s') (src x) ∧ live (ls_graph s') (dst x))
    (filter (λ x, (src x < N0)%nat ∧ (dst x < N0)%nat) (edges_ (ls_graph s))).
Proof.
  intros Hwf Hids. revert s Hwf.
  induction ids as [|node ids IH]; intros s Hwf HN Hrun; simpl in Hrun.
  - injection Hrun as <- <-. symmetry. apply Stability.filter_all.
    intros x Hx. apply list_elem_of_filter in Hx as [_ Hx].
    unfold wf_graph in Hwf. rewrite Forall_forall in Hwf. by apply Hwf.
  - apply Forall_cons in Hids as [Hnode Hids].
    destruct (examine (ls_graph s) node) as [why|elements|n dte|e] eqn:Hex.
    + by apply (IH Hids _ Hwf HN Hrun).
    + by apply (IH Hids (mkLoopState (ls_graph s) _ _) Hwf HN Hrun).
    + pose proof (Stability.wf_rewritten _ _ _ _ _ _ Hwf Hex) as Hwf1.
      pose proof (Stability.num_node_ids_rewritten _ _ _ _ _ _ Hex) as Hlen.
      pose proof (run_nodes_gone _ _ _ _ _ _ _ Hex Hrun) as Hgone.
      rewrite (IH Hids (mkLoopState _ _ _) Hwf1 ltac:(simpl; lia) Hrun).
      cbn [ls_graph].
      rewrite (Stability.rewritten_eq _ _ _ _ _ _ Hex). cbn [edges_].
      rewrite !list_filter_filter, filter_app.
      rewrite (Stability.filter_none _ (new_edges _ _ _ _)), app_nil_r.
      * apply Stability.filter_ext_in. intros x _. split; [tauto |].
        intros ([Hs Hd] & Hlt). repeat split; try tauto.
        -- intros Heq. rewrite Heq in Hs. destruct Hs as [y Hy]. congruence.
        -- intros Heq. rewrite Heq in Hd. destruct Hd as [y Hy]. congruence.
      * intros x Hx [[_ [Hs Hd]] _].
        apply RewriteFacts.elem_of_new_edges in Hx
          as [(k & pair & e & _ & _ & ->)|(k & p & _ & -> & _)];
          simpl in *; lia.
    + injection Hrun as <- <-. symmetry. apply Stability.filter_all.
      intros x Hx. apply list_elem_of_filter in Hx as [_ Hx].
      unfold wf_graph in Hwf. rewrite Forall_forall in Hwf. by apply Hwf.
Qed.

(** A run leaves the edges between the nodes of the input graph alone: the
    edges of the result that join two nodes of the input graph are the
    edges of the input graph whose two ends are still present, in their
    order and with their multiplicity.  Every edge the run adds has a
    replica at one end. *)
Theorem Run_frames_edges g g' :
  wf_graph g →
  graph (Run (Some g)) = Some g' →
  filter (λ x, (src x < num_node_ids g)%nat ∧ (dst x < num_node_ids g)%nat)
    (edges_ g') =
  filter (λ x, live g' (src x) ∧ live g' (dst x)) (edges_ g).
Proof.
  intros Hwf Hg'.
  destruct (Stability.Run_unfold ParseFullName DeviceNameToCpuDeviceName g)
    as [Hgraph _].
  rewrite Hgraph in Hg'. injection Hg' as <-.
  destruct (run_nodes (nodes g) (initial g)) as [st s1] eqn:Hrun.
  cbn [snd].
  rewrite (run_nodes_frame (nodes g) (initial g) st s1 (num_node_ids g) Hwf
             (Stability.nodes_lt g) (Nat.le_refl _) Hrun).
  f_equal. apply Stability.filter_all. intros x Hx.
  by apply (Stability.edge_in_range g Hwf).
Qed.

End WithDeviceNames.

Local Ltac concrete :=
  first [ reflexivity | vm_compute; reflexivity | vm_compute; lia
        | vm_compute; discriminate
        | apply (bool_decide_unpack _); vm_compute; exact I ].

Lemma Run_preserves_inputs_witness :
  wf_graph Example.g_scenario ∧
  ∃ g', graph (Example.run (Some Example.g_scenario)) = Some g' ∧
        (1 < num_node_ids Example.g_scenario)%nat ∧ live g' 1 ∧
        (endpoint <$> in_edges g' 1) ≡ₚ
          (endpoint <$> in_edges Example.g_scenario 1).
Proof.
  assert (Hwf : wf_graph Example.g_scenario) by concrete.
  split; [exact Hwf |]. eexists.
  split; [vm_compute; reflexivity |].
  assert (Hd : (1 < num_node_ids Example.g_scenario)%nat) by concrete.
  split; [exact Hd |].
  match goal with |- live ?g 1 ∧ _ => assert (Hl : live g 1) by concrete end.
  split; [exact Hl |].
  refine (proj1 (Run_preserves_inputs Example.ParseFullName
            Example.DeviceNameToCpuDeviceName Example.g_scenario _ 1%nat
            Hwf _ Hd Hl)).
  vm_compute. reflexivity.
Defined.

Lemma Run_keeps_unsplittable_witness :
  wf_graph Example.g_scenario ∧
  ∃ g', graph (Example.run (Some Example.g_scenario)) = Some g' ∧
        Pass.HasControlOut Example.g_scenario 4 = true ∧
        FindNodeId g' 4 =
          Some (mkNode "p" false (Some "a/CPU:0"%string) None).
Proof.
  assert (Hwf : wf_graph Example.g_scenario) by concrete.
  split; [exact Hwf |]. eexists.
  split; [vm_compute; reflexivity |].
  assert (Hc : Pass.HasControlOut Example.g_scenario 4 = true) by concrete.
  split; [exact Hc |].
  refine (proj1 (Run_keeps_unsplittable Example.ParseFullName
            Example.DeviceNameToCpuDeviceName Example.g_scenario _ 4%nat _
            Hwf _ _ (or_intror (or_introl Hc)))); concrete.
Defined.

Lemma Run_decided_by_input_witness :
  wf_graph Example.g_scenario ∧
  no_data_into_constants Example.g_scenario ∧
  ∃ g', graph (Example.run (Some Example.g_scenario)) = Some g' ∧
  ∃ stop,
    (stop ≤ num_node_ids Example.g_scenario)%nat ∧
    (∀ i e, (i < stop)%nat → Example.examine Example.g_scenario i ≠ Abort e) ∧
    match status (Example.run (Some Example.g_scenario)) with
    | OkStatus => stop = num_node_ids Example.g_scenario
    | Failed e => Example.examine Example.g_scenario stop = Abort e
    end ∧
    ∀ i, (i < num_node_ids Example.g_scenario)%nat →
      (FindNodeId g' i = None ↔
       FindNodeId Example.g_scenario i = None ∨
       ((i < stop)%nat ∧
        ∃ n dte, Example.examine Example.g_scenario i = Replicate n dte)).
Proof.
  assert (Hwf : wf_graph Example.g_scenario) by concrete.
  assert (HH : no_data_into_constants Example.g_scenario)
    by (unfold no_data_into_constants; concrete).
  split; [exact Hwf |]. split; [exact HH |]. eexists.
  split; [vm_compute; reflexivity |].
  refine (Run_decided_by_input Example.ParseFullName
            Example.DeviceNameToCpuDeviceName Example.g_scenario _ Hwf HH _).
  vm_compute. reflexivity.
Defined.

Lemma Run_frames_edges_witness :
  wf_graph Example.g_scenario ∧
  ∃ g', graph (Example.run (Some Example.g_scenario)) = Some g' ∧
        filter (λ x, (src x < num_node_ids Example.g_scenario)%nat ∧
                     (dst x < num_node_ids Example.g_scenario)%nat)
          (edges_ g') =
        filter (λ x, live g' (src x) ∧ live g' (dst x))
          (edges_ Example.g_scenario).
Proof.
  assert (Hwf : wf_graph Example.g_scenario) by concrete.
  split; [exact Hwf |]. eexists.
  split; [vm_compute; reflexivity |].
  refine (Run_frames_edges Example.ParseFullName
            Example.DeviceNameToCpuDeviceName Example.g_scenario _ Hwf _).
  vm_compute. reflexivity.
Defined.

Lemma Run_replica_inputs_witness :
  wf_graph Example.g_scenario ∧
  no_data_into_constants Example.g_scenario ∧
  ∃ g', graph (Example.run (Some Example.g_scenario)) = Some g' ∧
        (num_node_ids Example.g_scenario ≤ 5 < num_node_ids g')%nat ∧
        ∃ i orig c dev,
          FindNodeId Example.g_scenario i = Some orig ∧
          FindNodeId g' i = None ∧
          FindNodeId g' 5 = Some (replica orig c dev) ∧
          in_edges g' 5 = control_edge 5 <$> in_nodes Example.g_scenario i ∧
          ∀ p, p ∈ in_nodes Example.g_scenario i →
               live Example.g_scenario p ∧
               FindNodeId g' p = FindNodeId Example.g_scenario p.
Proof.
  assert (Hwf : wf_graph Example.g_scenario) by concrete.
  assert (HH : no_data_into_constants Example.g_scenario)
    by (unfold no_data_into_constants; concrete).
  split; [exact Hwf |]. split; [exact HH |]. eexists.
  split; [vm_compute; reflexivity |].
  match goal with
  | |- ?R ∧ _ => assert (Hr : R) by (vm_compute; lia)
  end.
  split; [exact Hr |].
  refine (Run_replica_inputs Example.ParseFullName
            Example.DeviceNameToCpuDeviceName Example.g_scenario _ 5%nat
            Hwf HH _ Hr).
  vm_compute. reflexivity.
Defined.

Lemma Run_conserves_data_edges_witness :
  wf_graph Example.g_scenario ∧
  no_data_into_constants Example.g_scenario ∧
  ∃ g', graph (Example.run (Some Example.g_scenario)) = Some g' ∧
        length (filter (λ x, IsControlEdge x = false) (edges_ g')) =
          length (filter (λ x, IsControlEdge x = false)
                    (edges_ Example.g_scenario)).
Proof.
  assert (Hwf : wf_graph Example.g_scenario) by concrete.
  assert (HH : no_data_into_constants Example.g_scenario)
    by (unfold no_data_into_constants; concrete).
  split; [exact Hwf |]. split; [exact HH |]. eexists.
  split; [vm_compute; reflexivity |].
  refine (proj1 (proj2 (Run_conserves_data_edges Example.ParseFullName
            Example.DeviceNameToCpuDeviceName Example.g_scenario _ Hwf HH _))).
  vm_compute. reflexivity.
Defined.

End Preservation.

(** ** Runs on the same graph under another enumeration of its edges *)

Module Determinism.

Import BTree BTreeFacts.

Local Abbreviation groups_reordered :=
  (Forall2 (λ p1 p2 : string * list Edge, p1.1 = p2.1 ∧ p1.2 ≡ₚ p2.2)).

Lemma existsb_Permutation {A} (f : A → bool) (l1 l2 : list A) :
  l1 ≡ₚ l2 → existsb f l1 = existsb f l2.
Proof.
  induction 1 as [|x l1 l2 _ IH|x y l|l1 l2 l3 _ IH1 _ IH2]; simpl.
  - done.
  - by rewrite IH.
  - by destruct (f x), (f y).
  - congruence.
Qed.

Lemma keys_reordered (dte1 dte2 : btree_map (list Edge)) :
  groups_reordered dte1 dte2 → keys dte1 = keys dte2.
Proof.
  unfold keys. induction 1 as [|p1 p2 l1 l2 [Hk _] _ IH]; [done |].
  by rewrite !fmap_cons, Hk, IH.
Qed.

Lemma new_nodes_reordered n c (dte1 dte2 : btree_map (list Edge)) :
  groups_reordered dte1 dte2 → new_nodes n c dte1 = new_nodes n c dte2.
Proof.
  intros H. revert c.
  induction H as [|p1 p2 l1 l2 [Hk _] _ IH]; intros c; simpl; [done |].
  by rewrite Hk, IH.
Qed.

Lemma new_edges_reordered node copy (preds1 preds2 : list NodeId)
    (dte1 dte2 : btree_map (list Edge)) :
  groups_reordered dte1 dte2 → preds1 ≡ₚ preds2 →
  new_edges node copy preds1 dte1 ≡ₚ new_edges node copy preds2 dte2.
Proof.
  intros H. revert copy preds1 preds2.
  induction H as [|p1 p2 l1 l2 [_ Hp] _ IH]; intros copy preds1 preds2 Hpreds;
    simpl; [done |].
  assert (Hadded : redirect copy <$> p1.2 ≡ₚ redirect copy <$> p2.2)
    by by apply fmap_Permutation.
  assert (Hpreds' :
            preds1 ++ (src <$> filter (λ e, dst e = node)
                                 (redirect copy <$> p1.2)) ≡ₚ
            preds2 ++ (src <$> filter (λ e, dst e = node)
                                 (redirect copy <$> p2.2))).
  { apply Permutation_app; [done |].
    by apply fmap_Permutation, filter_Permutation. }
  apply Permutation_app; [done |].
  apply Permutation_app; [by apply fmap_Permutation | by apply IH].
Qed.

Lemma FindNodeId_reordered g1 g2 i :
  reordered g1 g2 → FindNodeId g1 i = FindNodeId g2 i.
Proof. intros (Hn & _). unfold FindNodeId. by rewrite Hn. Qed.

Lemma num_node_ids_reordered g1 g2 :
  reordered g1 g2 → num_node_ids g1 = num_node_ids g2.
Proof. intros (Hn & _). unfold num_node_ids. by rewrite Hn. Qed.

Lemma out_edges_reordered g1 g2 i :
  reordered g1 g2 → out_edges g1 i ≡ₚ out_edges g2 i.
Proof. intros (_ & _ & He). by apply filter_Permutation. Qed.

Lemma in_nodes_reordered g1 g2 i :
  reordered g1 g2 → in_nodes g1 i ≡ₚ in_nodes g2 i.
Proof.
  intros (_ & _ & He). by apply fmap_Permutation, filter_Permutation.
Qed.

Lemma ReplicateToEachDevice_reordered g1 g2 node n
    (dte1 dte2 : btree_map (list Edge)) :
  reordered g1 g2 → groups_reordered dte1 dte2 →
  (node < num_node_ids g1)%nat →
  reordered (Pass.ReplicateToEachDevice g1 node n dte1)
            (Pass.ReplicateToEachDevice g2 node n dte2).
Proof.
  intros Hre Hd Hlt. pose proof Hre as (Hn & Hc & He).
  pose proof (num_node_ids_reordered _ _ Hre) as Hlen.
  rewrite (RewriteFacts.ReplicateToEachDevice_eq node n g1 dte1 Hlt).
  rewrite (RewriteFacts.ReplicateToEachDevice_eq node n g2 dte2) by lia.
  unfold reordered. simpl. split; [| split].
  - by rewrite Hn, Hc, (new_nodes_reordered _ _ _ _ Hd).
  - by rewrite Hc, (Forall2_length _ _ _ Hd).
  - apply filter_Permutation, Permutation_app; [done |].
    rewrite Hlen. apply new_edges_reordered; [done |].
    by apply in_nodes_reordered.
Qed.

Section WithDeviceNames.

Variable ParseFullName : string → option string.
Variable DeviceNameToCpuDeviceName : string → option string.

Local Abbreviation examine := (Pass.examine ParseFullName DeviceNameToCpuDeviceName).
Local Abbreviation run_nodes :=
  (Pass.run_nodes ParseFullName DeviceNameToCpuDeviceName).
Local Abbreviation Run := (Pass.Run ParseFullName DeviceNameToCpuDeviceName).
Local Abbreviation collect_edges :=
  (Pass.collect_edges DeviceNameToCpuDeviceName).
Local Abbreviation device_of := (Eligibility.device_of DeviceNameToCpuDeviceName).

(** The groups do not depend on the order in which the edges are handed
    to the grouping, except for the order inside each group. *)
Lemma collect_edges_reordered g es1 es2 dte1 dte2 :
  es1 ≡ₚ es2 →
  collect_edges g es1 [] = Ok dte1 → collect_edges g es2 [] = Ok dte2 →
  groups_reordered dte1 dte2.
Proof.
  intros Hp H1 H2.
  pose proof (Grouping.collect_edges_keys_perm _ _ _ _ _ _ Hp H1 H2) as Hkeys.
  assert (Hs1 : sorted dte1)
    by (eapply Grouping.collect_edges_sorted; [exact H1 | constructor]).
  assert (Hs2 : sorted dte2)
    by (eapply Grouping.collect_edges_sorted; [exact H2 | constructor]).
  pose proof (GroupingSpec.map_of_groups dte1 (sorted_NoDup _ Hs1)) as E1.
  pose proof (GroupingSpec.map_of_groups dte2 (sorted_NoDup _ Hs2)) as E2.
  rewrite Hkeys in E1. remember (keys dte2) as ks eqn:Hks. clear Hks Hkeys.
  assert (Hgroups : ∀ d, group_of d dte1 ≡ₚ group_of d dte2).
  { intros d.
    rewrite (GroupingSpec.collect_edges_group _ g es1 [] dte1 d
               (SSorted_nil _) H1).
    rewrite (GroupingSpec.collect_edges_group _ g es2 [] dte2 d
               (SSorted_nil _) H2).
    simpl. by apply filter_Permutation. }
  rewrite E1, E2.
  apply Forall2_fmap, Forall_Forall2_diag, Forall_forall. intros d _.
  split; [done |]. apply Hgroups.
Qed.

Lemma collect_edges_agree g es1 es2 :
  es1 ≡ₚ es2 →
  match collect_edges g es1 [], collect_edges g es2 [] with
  | Ok dte1, Ok dte2 => groups_reordered dte1 dte2
  | Err e1, Err e2 => resolver_error e1 ∧ resolver_error e2
  | _, _ => False
  end.
Proof.
  intros Hp.
  destruct (collect_edges g es1 []) as [dte1|e1] eqn:H1,
           (collect_edges g es2 []) as [dte2|e2] eqn:H2.
  - by eapply collect_edges_reordered.
  - apply Resolver.collect_edges_ok_resolves in H1. rewrite Hp in H1.
    destruct (Stability.collect_edges_total DeviceNameToCpuDeviceName g es2 [])
      as [dte Hdte]; [| congruence].
    eapply Forall_impl; [exact H1 |]. by intros e [d Hd]; exists d.
  - apply Resolver.collect_edges_ok_resolves in H2. rewrite <- Hp in H2.
    destruct (Stability.collect_edges_total DeviceNameToCpuDeviceName g es1 [])
      as [dte Hdte]; [| congruence].
    eapply Forall_impl; [exact H2 |]. by intros e [d Hd]; exists d.
  - apply Resolver.collect_edges_fails in H1 as (? & ? & ? & _ & _ & He1).
    apply Resolver.collect_edges_fails in H2 as (? & ? & ? & _ & _ & He2).
    split; eapply Resolver.resolver_error_kinds; eassumption.
Qed.

Lemma examine_reordered g1 g2 node :
  reordered g1 g2 →
  match examine g1 node, examine g2 node with
  | Skip why1, Skip why2 => why1 = why2
  | SkipTooLarge x1, SkipTooLarge x2 => x1 = x2
  | Replicate n1 dte1, Replicate n2 dte2 =>
      n1 = n2 ∧ groups_reordered dte1 dte2
  | Abort e1, Abort e2 =>
      e1 = e2 ∨ (resolver_error e1 ∧ resolver_error e2)
  | _, _ => False
  end.
Proof.
  intros Hre. unfold Pass.examine.
  rewrite <- (FindNodeId_reordered g1 g2 node Hre).
  destruct (FindNodeId g1 node) as [n|]; [| done].
  destruct (negb (IsConstant n)); [done |].
  pose proof (out_edges_reordered g1 g2 node Hre) as Hout.
  rewrite <- (Permutation_length Hout).
  destruct (length (out_edges g1 node) <=? 1)%nat; [done |].
  unfold Pass.HasControlOut. rewrite <- (existsb_Permutation _ _ _ Hout).
  destruct (existsb IsControlEdge (out_edges g1 node)); [done |].
  destruct (GetNodeAttr_value n) as [value|]; [| by left].
  destruct (BuildTensorShape value) as [shape|]; [| by left].
  destruct (kMaxSize <? num_elements shape); [done |].
  unfold Pass.examine_devices.
  destruct (negb (has_assigned_device_name n)); [done |].
  destruct (negb (Pass.HasCpuDevice ParseFullName n)); [done |].
  unfold Pass.GetSuccessorEdges.
  rewrite <- (Stability.collect_edges_ext DeviceNameToCpuDeviceName g1 g2
                (out_edges g2 node) []).
  2:{ apply Forall_forall. intros e _. by apply FindNodeId_reordered. }
  pose proof (collect_edges_agree g1 _ _ Hout) as Hag.
  destruct (collect_edges g1 (out_edges g1 node) []) as [dte1|e1],
           (collect_edges g1 (out_edges g2 node) []) as [dte2|e2];
    try done; [| by right].
  rewrite <- (Forall2_length _ _ _ Hag).
  destruct (length dte1 <=? 1)%nat; done.
Qed.

Lemma run_nodes_reordered ids s1 s2 st1 st2 s1' s2' :
  reordered (ls_graph s1) (ls_graph s2) →
  min_skipped s1 = min_skipped s2 → max_skipped s1 = max_skipped s2 →
  run_nodes ids s1 = (st1, s1') → run_nodes ids s2 = (st2, s2') →
  reordered (ls_graph s1') (ls_graph s2') ∧
  min_skipped s1' = min_skipped s2' ∧ max_skipped s1' = max_skipped s2' ∧
  (st1 = st2 ∨
   ∃ e1 e2, st1 = Failed e1 ∧ st2 = Failed e2 ∧
            resolver_error e1 ∧ resolver_error e2).
Proof.
  revert s1 s2.
  induction ids as [|node ids IH]; intros s1 s2 Hre Hmn Hmx H1 H2;
    simpl in H1, H2.
  - injection H1 as <- <-. injection H2 as <- <-.
    split; [done |]. split; [done |]. split; [done | by left].
  - pose proof (examine_reordered _ _ node Hre) as Hag.
    destruct (examine (ls_graph s1) node) as [w1|x1|n1 dte1|e1] eqn:E1,
             (examine (ls_graph s2) node) as [w2|x2|n2 dte2|e2] eqn:E2;
      try done.
    + by apply (IH s1 s2).
    + subst x2.
      refine (IH (mkLoopState (ls_graph s1) _ _) (mkLoopState (ls_graph s2) _ _)
                Hre _ _ H1 H2); simpl; congruence.
    + destruct Hag as [-> Hd].
      refine (IH (mkLoopState _ _ _) (mkLoopState _ _ _) _ Hmn Hmx H1 H2).
      simpl.
      apply ReplicateToEachDevice_reordered; [done | done |].
      by apply (Stability.rewritten_node_lt _ _ _ _ _ _ E1).
    + injection H1 as <- <-. injection H2 as <- <-.
      split; [done |]. split; [done |]. split; [done |].
      destruct Hag as [->|[Hr1 Hr2]]; [by left |].
      right. by exists e1, e2.
Qed.

(** C7: take two graphs that are the same graph with its edges enumerated
    in two orders.  The runs on them end with the same graph, again up to
    the order of its edges: the same nodes under the same ids, replica names
    and devices included, and the same name counter.  Both succeed with the
    same reported range, or both fail, with the same error unless the error
    comes from resolving a consumer's device, where the kind reported can
    depend on which failing consumer is met first.  Whenever the loop body
    replicates a constant in one graph it does so in the other, with the
    same device keys; the keys are the CPU devices its consumers resolve to,
    in strictly increasing lexicographic order, and the [k]-th key gets the
    replica with the [k]-th fresh id and the [k]-th value of the name
    counter, in both graphs.  In the graph a run ends with, the replicas
    of every constant the run replicated sit under consecutive ids in this
    order of their devices, named with consecutive values of the counter. *)
Theorem replicas_in_device_order g1 g2 :
  reordered g1 g2 →
  (∃ g1' g2',
     graph (Run (Some g1)) = Some g1' ∧ graph (Run (Some g2)) = Some g2' ∧
     reordered g1' g2') ∧
  (status (Run (Some g1)) = status (Run (Some g2)) ∨
   ∃ e1 e2,
     status (Run (Some g1)) = Failed e1 ∧ status (Run (Some g2)) = Failed e2 ∧
     resolver_error e1 ∧ resolver_error e2) ∧
  skipped_range (Run (Some g1)) = skipped_range (Run (Some g2)) ∧
  (∀ node n dte1,
     examine g1 node = Replicate n dte1 →
     ∃ dte2,
       examine g2 node = Replicate n dte2 ∧ keys dte2 = keys dte1 ∧
       StronglySorted key_lt (keys dte1) ∧
       (∀ d, d ∈ keys dte1 ↔
             ∃ e, e ∈ out_edges g1 node ∧ device_of g1 e = Ok d) ∧
       (∀ k d,
          keys dte1 !! k = Some d →
          FindNodeId (Pass.ReplicateToEachDevice g1 node n dte1)
            (num_node_ids g1 + k) =
            Some (replica n (name_counter_ g1 + N.of_nat k) d) ∧
          FindNodeId (Pass.ReplicateToEachDevice g2 node n dte2)
            (num_node_ids g1 + k) =
            Some (replica n (name_counter_ g1 + N.of_nat k) d)) ∧
       reordered (Pass.ReplicateToEachDevice g1 node n dte1)
                 (Pass.ReplicateToEachDevice g2 node n dte2)) ∧
  (∀ pre node post s n dte g1',
     nodes g1 = pre ++ node :: post →
     run_nodes pre (initial g1) = (OkStatus, s) →
     examine (ls_graph s) node = Replicate n dte →
     graph (Run (Some g1)) = Some g1' →
     StronglySorted key_lt (keys dte) ∧
     ∀ k d,
       keys dte !! k = Some d →
       FindNodeId g1' (num_node_ids (ls_graph s) + k) =
         Some (replica n (name_counter_ (ls_graph s) + N.of_nat k) d)).
Proof.
  intros Hre.
  assert (Hruns :
    ∃ st1 st2 s1 s2,
      run_nodes (nodes g1) (mkLoopState g1 INT64_MAX INT64_MIN) = (st1, s1) ∧
      run_nodes (nodes g2) (mkLoopState g2 INT64_MAX INT64_MIN) = (st2, s2) ∧
      reordered (ls_graph s1) (ls_graph s2) ∧
      min_skipped s1 = min_skipped s2 ∧ max_skipped s1 = max_skipped s2 ∧
      (st1 = st2 ∨
       ∃ e1 e2, st1 = Failed e1 ∧ st2 = Failed e2 ∧
                resolver_error e1 ∧ resolver_error e2)).
  { destruct (run_nodes (nodes g1) (mkLoopState g1 INT64_MAX INT64_MIN))
      as [st1 s1] eqn:H1.
    destruct (run_nodes (nodes g2) (mkLoopState g2 INT64_MAX INT64_MIN))
      as [st2 s2] eqn:H2.
    exists st1, st2, s1, s2. split; [done |]. split; [done |].
    unfold nodes in H2. rewrite <- (num_node_ids_reordered _ _ Hre) in H2.
    exact (run_nodes_reordered (nodes g1) (mkLoopState g1 _ _)
             (mkLoopState g2 _ _) st1 st2 s1 s2 Hre eq_refl eq_refl H1 H2). }
  destruct Hruns as (st1 & st2 & s1 & s2 & H1 & H2 & Hre' & Hmn & Hmx & Hst).
  unfold Pass.Run. rewrite H1, H2.
  split; [| split; [| split; [| split]]].
  - exists (ls_graph s1), (ls_graph s2).
    by destruct st1, st2.
  - destruct Hst as [->|(e1 & e2 & -> & -> & Hr1 & Hr2)].
    + left. by destruct st2.
    + right. by exists e1, e2.
  - destruct Hst as [->|(e1 & e2 & -> & -> & _)]; [| done].
    destruct st2; [| done]. simpl. by rewrite Hmn, Hmx.
  - intros node n dte1 Hex1.
    pose proof (examine_reordered g1 g2 node Hre) as Hag.
    rewrite Hex1 in Hag.
    destruct (examine g2 node) as [| |n2 dte2|] eqn:Hex2; try done.
    destruct Hag as [<- Hd].
    pose proof (keys_reordered _ _ Hd) as Hkeys.
    pose proof (Stability.grouping_ok _ _ _ _ _ _ Hex1) as Hg.
    exists dte2. split; [done |]. split; [done |]. split; [| split; [| split]].
    + eapply (Grouping.collect_edges_sorted _ _ _ _ _ Hg). constructor.
    + intros d. rewrite (Grouping.collect_edges_keys _ _ _ _ _ Hg d). split.
      * intros [Hin|Hin]; [by apply elem_of_nil in Hin | done].
      * by right.
    + intros k d Hk. split.
      * unfold keys in Hk. rewrite list_lookup_fmap in Hk.
        destruct (dte1 !! k) as [pair|] eqn:Hp; [| done].
        injection Hk as <-.
        by apply (Stability.FindNodeId_rewritten_replica _ _ _ _ _ _ Hex1).
      * rewrite Hkeys in Hk. unfold keys in Hk.
        rewrite list_lookup_fmap in Hk.
        destruct (dte2 !! k) as [pair|] eqn:Hp; [| done].
        injection Hk as <-.
        rewrite (num_node_ids_reordered _ _ Hre).
        destruct Hre as (_ & -> & _).
        by apply (Stability.FindNodeId_rewritten_replica _ _ _ _ _ _ Hex2).
    + apply ReplicateToEachDevice_reordered; [done | done |].
      by apply (Stability.rewritten_node_lt _ _ _ _ _ _ Hex1).
  - intros pre node post s n dte g1' Hn Hpre Hex Hg'.
    assert (g1' = ls_graph s1) as -> by (destruct st1; simpl in Hg'; congruence).
    pose proof (Stability.grouping_ok _ _ _ _ _ _ Hex) as Hg.
    split.
    { eapply (Grouping.collect_edges_sorted _ _ _ _ _ Hg). constructor. }
    intros k d Hk. unfold keys in Hk. rewrite list_lookup_fmap in Hk.
    destruct (dte !! k) as [pair|] eqn:Hp; [| done]. injection Hk as <-.
    pose proof (lookup_lt_Some _ _ _ Hp) as Hlt.
    pose proof (NoRollback.run_nodes_grows _ _ _ _ _ _ Hpre) as Hgrow.
    simpl in Hgrow.
    rewrite Hn, LoopFacts.run_nodes_app in H1. unfold initial in Hpre.
    rewrite Hpre in H1. simpl in H1. rewrite Hex in H1.
    rewrite (NoRollback.run_nodes_keeps _ _ _ _ _ _ _ H1); simpl.
    + by apply (Stability.FindNodeId_rewritten_replica _ _ _ _ _ _ Hex).
    + rewrite (Stability.num_node_ids_rewritten _ _ _ _ _ _ Hex). lia.
    + right. intros Hin.
      assert (Hin' : (num_node_ids (ls_graph s) + k)%nat ∈ nodes g1).
      { rewrite Hn. apply elem_of_app. right. by right. }
      unfold nodes in Hin'. apply elem_of_seq in Hin'. lia.
Qed.

End WithDeviceNames.

Lemma replicas_in_device_order_witness :
  reordered Example.g_scenario Example.g_scenario_reordered ∧
  ∃ g1' g2',
    graph (Example.run (Some Example.g_scenario)) = Some g1' ∧
    graph (Example.run (Some Example.g_scenario_reordered)) = Some g2' ∧
    reordered g1' g2'.
Proof.
  assert (Hre : reordered Example.g_scenario Example.g_scenario_reordered).
  { split; [reflexivity |]. split; [reflexivity |].
    apply (bool_decide_unpack _). vm_compute. exact I. }
  split; [exact Hre |].
  exact (proj1 (replicas_in_device_order Example.ParseFullName
           Example.DeviceNameToCpuDeviceName Example.g_scenario
           Example.g_scenario_reordered Hre)).
Defined.

End Determinism.
